(** * HGV Destinations Pro: route anchor resolution and geocoded path rendering

    A shallow embedding of the LST route module (the file that defines
    [geocodePlace], [resolveEndpoint], [osrmRoute] and [drawRoutesOnMap]),
    followed by the properties of its label classifier, its two caches, its
    endpoint resolver and its path builder.  The embedding also covers the
    route store ([ensureSeedRoutes], [LST_STORE]), the search box of the
    route list ([filterRoutes]), two callers in the administration (the
    preview of the route editor and the deletion of a route) and the
    references to stored photos ([MediaStore]).

    Conventions of the embedding.
    - A JavaScript number is a binary64 float ([PrimFloat.float]); the
      comparisons of the source are [ltb] and [leb], so NaN and the
      infinities behave as in the source.
    - A JavaScript string is the list of its UTF-16 code units ([jstring]).
    - A regular expression of the source is a term of [regex], run by a
      backtracking matcher with the priorities of the source's engine.
    - [localStorage] holds parsed JSON ([Json]); an object is the list of its
      own properties, in insertion order.
    - An [async] function is a function of the state [St] that returns a
      value or an error together with the new state; the two web services
      are answered by oracles that see the requests issued so far.
    - Route and segment documents are records with the fields of the data
      model; the status line, the popups and the timers are left out.

    What the embedding takes for granted.
    - A cache object is read and written through its own properties only.
      For a label whose cache key names a property of [Object.prototype]
      the source reads the inherited value, and an assignment to
      [__proto__] stores nothing; [plainKey] tells the other keys, and the
      theorems on what the geocode cache holds after a lookup assume it.
    - A query reaches the place search as it is.  [encodeURIComponent]
      throws on a string with a lone surrogate, and [geocodePlace] with
      it, before any request; [sendable] tells the labels whose queries
      are well formed, and the theorems on the failures and the requests
      of a lookup assume it.
    - A write to [localStorage] succeeds, and what is read back is what was
      written.
    - The payloads of the two web services are well typed: a feature has
      its two numbers, a path is a list of pairs of numbers.
    - The map exists and no other drawing is in progress, so the two guards
      at the head of [drawRoutesOnMap] are passed. *)

From Stdlib Require Import String Ascii.
From Stdlib Require Import List Bool Arith NArith ZArith Lia.
From Stdlib Require Import Floats.
Import ListNotations.

(** The decimal literals of the source denote the nearest binary64 value. *)
Set Warnings "-inexact-float".

Set Implicit Arguments.

(** * Part I: the program *)

(** ** Numbers *)

Module Num.

Local Open Scope float_scope.

Definition lt (x y : float) : Prop := (x <? y) = true.
Definition le (x y : float) : Prop := (x <=? y) = true.

(** [Math.PI]. *)
Definition Math_PI : float := 3.141592653589793.

(** [Math.min] and [Math.max] of two numbers: NaN if either is NaN, and
    -0 is below +0. *)
Definition Math_min (x y : float) : float :=
  if is_nan x || is_nan y then nan
  else if x <? y then x
  else if y <? x then y
  else if get_sign x then x else y.

Definition Math_max (x y : float) : float :=
  if is_nan x || is_nan y then nan
  else if x <? y then y
  else if y <? x then x
  else if get_sign x then y else x.

End Num.

(** ** Strings *)

Module Str.

Local Open Scope N_scope.

(** A string is the list of its code units. *)
Definition jstring : Type := list N.

Definition code (a : ascii) : N := N_of_ascii a.

(** A literal of the source. *)
Definition js (s : string) : jstring := map code (list_ascii_of_string s).

Fixpoint eqb (a b : jstring) : bool :=
  match a, b with
  | [], [] => true
  | x :: a', y :: b' => (x =? y) && eqb a' b'
  | _, _ => false
  end.

(** Truthiness of a string: it is not empty. *)
Definition nonEmpty (s : jstring) : bool :=
  match s with [] => false | _ :: _ => true end.

(** [a || b] on strings. *)
Definition orElse (a b : jstring) : jstring := if nonEmpty a then a else b.

(** White space and line terminators: what [trim] removes and [\s]
    matches. *)
Definition isWhiteSpace (c : N) : bool :=
  ((9 <=? c) && (c <=? 13)) || (c =? 32) || (c =? 160) || (c =? 5760)
  || ((8192 <=? c) && (c <=? 8202)) || (c =? 8232) || (c =? 8233)
  || (c =? 8239) || (c =? 8287) || (c =? 12288) || (c =? 65279).

Fixpoint trimStart (s : jstring) : jstring :=
  match s with
  | x :: t => if isWhiteSpace x then trimStart t else s
  | [] => []
  end.

Definition trimEnd (s : jstring) : jstring := rev (trimStart (rev s)).

Definition trim (s : jstring) : jstring := trimEnd (trimStart s).

Definition isDigit (c : N) : bool := (48 <=? c) && (c <=? 57).
Definition isUpper (c : N) : bool := (65 <=? c) && (c <=? 90).
Definition isLower (c : N) : bool := (97 <=? c) && (c <=? 122).

(** A word character [\w]: a letter, a digit or the underscore. *)
Definition isWord (c : N) : bool :=
  isUpper c || isLower c || isDigit c || (c =? 95).

Definition isAscii (c : N) : bool := c <? 128.

(** The two halves of a surrogate pair. *)
Definition isHighSurrogate (c : N) : bool := (55296 <=? c) && (c <=? 56319).
Definition isLowSurrogate (c : N) : bool := (56320 <=? c) && (c <=? 57343).

(** [s.isWellFormed()]: no surrogate without its other half.  These are the
    strings [encodeURIComponent] accepts; on any other it throws a
    [URIError]. *)
Fixpoint isWellFormed (s : jstring) : bool :=
  match s with
  | [] => true
  | x :: t =>
      if isHighSurrogate x then
        match t with
        | y :: t' => isLowSurrogate y && isWellFormed t'
        | [] => false
        end
      else negb (isLowSurrogate x) && isWellFormed t
  end.

(** Upper case of one code unit of the ASCII range. *)
Definition upperAscii (c : N) : N := if isLower c then c - 32 else c.

End Str.

Export Str.

(** ** Regular expressions *)

Module Regex.

(** The constructs the source's patterns use.  [Cls p] is one code unit
    that satisfies [p]; [Star] is the greedy [*]; [Cap n] is the [n]-th
    capturing group; [Bnd], [Bol] and [Eol] are [\b], [^] and [$]. *)
Inductive regex : Type :=
| Eps
| Cls (p : N -> bool)
| Cat (r1 r2 : regex)
| Alt (r1 r2 : regex)
| Star (r : regex)
| Cap (n : nat) (r : regex)
| Bnd
| Bol
| Eol.

(** A position in the subject: the code units behind it, nearest first, and
    those ahead. *)
Record pos : Type := mkPos { behind : jstring; ahead : jstring }.

(** The captures: group number and captured text, latest first. *)
Definition caps : Type := list (nat * jstring).

Fixpoint group (n : nat) (c : caps) : option jstring :=
  match c with
  | [] => None
  | (k, w) :: c' => if Nat.eqb k n then Some w else group n c'
  end.

Definition isBoundary (z : pos) : bool :=
  let a := match behind z with x :: _ => isWord x | [] => false end in
  let b := match ahead z with x :: _ => isWord x | [] => false end in
  xorb a b.

Section Matcher.

Variable R : Type.

(** A continuation: what remains to match after the current term. *)
Definition cont : Type := pos -> caps -> option R.

(** The loop of a greedy star: one more iteration of the body first, and the
    continuation when that fails; an iteration that consumes nothing is
    refused. *)
Fixpoint starLoop (body : pos -> caps -> cont -> option R) (fuel : nat)
  (z : pos) (c : caps) (k : cont) : option R :=
  match fuel with
  | O => k z c
  | S fuel' =>
      match body z c (fun z' c' =>
                        if Nat.ltb (length (ahead z')) (length (ahead z))
                        then starLoop body fuel' z' c' k
                        else None) with
      | Some res => Some res
      | None => k z c
      end
  end.

(** The backtracking matcher: alternatives in order, the first success
    wins. *)
Fixpoint run (r : regex) (z : pos) (c : caps) (k : cont) : option R :=
  match r with
  | Eps => k z c
  | Cls p =>
      match ahead z with
      | x :: t => if p x then k (mkPos (x :: behind z) t) c else None
      | [] => None
      end
  | Cat r1 r2 => run r1 z c (fun z' c' => run r2 z' c' k)
  | Alt r1 r2 =>
      match run r1 z c k with
      | Some res => Some res
      | None => run r2 z c k
      end
  | Star r1 => starLoop (run r1) (length (ahead z)) z c k
  | Cap n r1 =>
      run r1 z c (fun z' c' =>
        k z' ((n, firstn (length (ahead z) - length (ahead z')) (ahead z))
                :: c'))
  | Bnd => if isBoundary z then k z c else None
  | Bol => match behind z with [] => k z c | _ :: _ => None end
  | Eol => match ahead z with [] => k z c | _ :: _ => None end
  end.

End Matcher.

(** A match: where it starts, where it ends, and its captures. *)
Record found : Type :=
  mkFound { m_start : pos; m_end : pos; m_caps : caps }.

Definition matchAt (r : regex) (z : pos) : option found :=
  run r z [] (fun z' c => Some (mkFound z z' c)).

(** The leftmost match at or after a position. *)
Fixpoint searchFrom (r : regex) (b a : jstring) : option found :=
  match matchAt r (mkPos b a) with
  | Some f => Some f
  | None =>
      match a with
      | [] => None
      | x :: t => searchFrom r (x :: b) t
      end
  end.

(** [s.match(r)] for a pattern without the [g] flag. *)
Definition search (r : regex) (s : jstring) : option found :=
  searchFrom r [] s.

(** [r.test(s)]. *)
Definition test (r : regex) (s : jstring) : bool :=
  match search r s with Some _ => true | None => false end.

(** The matched text, [m[0]]. *)
Definition matched (f : found) : jstring :=
  firstn (length (ahead (m_start f)) - length (ahead (m_end f)))
         (ahead (m_start f)).

(** [s.replace(r, by)] for a pattern with the [g] flag. *)
Fixpoint replaceFrom (fuel : nat) (r : regex) (b a by_ : jstring)
  : jstring :=
  match fuel with
  | O => a
  | S fuel' =>
      match searchFrom r b a with
      | None => a
      | Some f =>
          let skipped := length a - length (ahead (m_start f)) in
          firstn skipped a ++ by_ ++
          match matched f, ahead (m_end f) with
          | [], x :: t => x :: replaceFrom fuel' r (x :: behind (m_end f)) t by_
          | [], [] => []
          | _ :: _, rest => replaceFrom fuel' r (behind (m_end f)) rest by_
          end
      end
  end.

Definition replaceAll (r : regex) (s by_ : jstring) : jstring :=
  replaceFrom (S (length s)) r [] s by_.

(** Derived forms. *)
Definition Opt (r : regex) : regex := Alt r Eps.
Definition Plus (r : regex) : regex := Cat r (Star r).
(** [r{1,2}] and [r{1,3}], greedy. *)
Definition Rep12 (r : regex) : regex := Cat r (Opt r).
Definition Rep13 (r : regex) : regex := Cat r (Opt (Cat r (Opt r))).

Fixpoint Seq (rs : list regex) : regex :=
  match rs with
  | [] => Eps
  | r :: rs' => match rs' with [] => r | _ :: _ => Cat r (Seq rs') end
  end.

Fixpoint AnyOf (rs : list regex) : regex :=
  match rs with
  | [] => Cls (fun _ => false)
  | r :: rs' => match rs' with [] => r | _ :: _ => Alt r (AnyOf rs') end
  end.

(** One given code unit; with the [i] flag, either case of an ASCII
    letter (no other code unit has an ASCII letter as its canonical form). *)
Definition chr (a : ascii) : regex := Cls (N.eqb (code a)).
Definition chrI (a : ascii) : regex :=
  Cls (fun c => N.eqb (upperAscii c) (upperAscii (code a))).

(** A literal word under the [i] flag. *)
Definition wordI (s : string) : regex :=
  Seq (map chrI (list_ascii_of_string s)).

Definition digit : regex := Cls isDigit.
Definition space : regex := Cls isWhiteSpace.
(** [[A-Z]] under the [i] flag. *)
Definition letterI : regex := Cls (fun c => isUpper c || isLower c).
(** [[AM]] under the [i] flag. *)
Definition roadLetterI : regex :=
  Cls (fun c => N.eqb (upperAscii c) 65 || N.eqb (upperAscii c) 77).

End Regex.

Import Regex.

(** ** JSON values, as [localStorage] holds them *)

#[local] Set Warnings "-register-all".

Inductive Json : Type :=
| JNull
| JBool (b : bool)
| JNum (x : float)
| JStr (s : jstring)
| JArr (items : list Json)
| JObj (fields : list (jstring * Json)).

(** The own properties of an object, in insertion order. *)
Definition props : Type := list (jstring * Json).

(** [o[k]]. *)
Fixpoint getProp (k : jstring) (o : props) : option Json :=
  match o with
  | [] => None
  | (k', v) :: o' => if Str.eqb k' k then Some v else getProp k o'
  end.

(** [o[k] = v]: an existing property keeps its place, a new one goes last. *)
Fixpoint setProp (k : jstring) (v : Json) (o : props) : props :=
  match o with
  | [] => [(k, v)]
  | (k', v') :: o' =>
      if Str.eqb k' k then (k, v) :: o' else (k', v') :: setProp k v o'
  end.

(** [delete o[k]]. *)
Definition delProp (k : jstring) (o : props) : props :=
  filter (fun kv => negb (Str.eqb (fst kv) k)) o.

(** The property names an object inherits from [Object.prototype].  Under
    one of these names the source's [o[k]] finds the inherited value when
    [o] has no own property [k], and [o["__proto__"] = v] sets the prototype
    of [o] and adds no property; [getProp] and [setProp] are the source's
    [o[k]] and [o[k] = v] for every other name. *)
Definition objectPrototypeNames : list jstring :=
  map js
    [ "constructor"; "hasOwnProperty"; "isPrototypeOf";
      "propertyIsEnumerable"; "toLocaleString"; "toString"; "valueOf";
      "__proto__"; "__defineGetter__"; "__defineSetter__";
      "__lookupGetter__"; "__lookupSetter__" ]%string.

Definition plainKey (k : jstring) : bool :=
  negb (existsb (Str.eqb k) objectPrototypeNames).

(** [Object.keys(o)]. *)
Definition keysOf (o : props) : list jstring := map fst o.

(** [v?.[k]] for a property name [k]. *)
Definition field (v : Json) (k : string) : option Json :=
  match v with
  | JObj o => getProp (js k) o
  | _ => None
  end.

(** Truthiness of a value. *)
Definition truthy (v : Json) : bool :=
  match v with
  | JNull => false
  | JBool b => b
  | JNum x => negb (is_nan x || is_zero x)
  | JStr s => nonEmpty s
  | JArr _ | JObj _ => true
  end.

(** ** The data model *)

(** An object with numeric [lat] and [lng], and a [displayName] when it is
    the result of a lookup. *)
Record Point : Type :=
  mkPoint { lat : float; lng : float; displayName : option jstring }.

(** A GeoJSON position: longitude first. *)
Definition LngLat : Type := (float * float)%type.

(** A Leaflet position: latitude first. *)
Definition LatLng : Type := (float * float)%type.

Inductive Risk : Type := RiskL | RiskM | RiskH.

Record Segment : Type := mkSegment {
  road : jstring;
  from : jstring;
  to : jstring;
  risk : Risk;
  fromCoords : option Point;
  toCoords : option Point;
  geometry : option (list LngLat);
  comment : jstring
}.

Record Route : Type := mkRoute {
  id : jstring;
  title : jstring;
  notes : jstring;
  startLabel : jstring;
  startPostcode : jstring;
  startCoords : option Point;
  endLabel : jstring;
  endPostcode : jstring;
  endCoords : option Point;
  segments : list Segment
}.

(** The name of an endpoint: [seg[key]] and [seg[key + "Coords"]]. *)
Inductive Key : Type := KFrom | KTo | KStart | KEnd.

(** What [resolveEndpoint] reads of its first argument, a segment or a
    route. *)
Class Endpoints (A : Type) : Type := {
  coordsAt : A -> Key -> option Point;
  labelAt : A -> Key -> option jstring
}.

#[export] Instance SegmentEndpoints : Endpoints Segment := {
  coordsAt seg key :=
    match key with
    | KFrom => fromCoords seg
    | KTo => toCoords seg
    | KStart | KEnd => None
    end;
  labelAt seg key :=
    match key with
    | KFrom => Some (from seg)
    | KTo => Some (to seg)
    | KStart | KEnd => None
    end
}.

#[export] Instance RouteEndpoints : Endpoints Route := {
  coordsAt r key :=
    match key with
    | KStart => startCoords r
    | KEnd => endCoords r
    | KFrom | KTo => None
    end;
  labelAt _ _ := None
}.

(** A candidate of the place search: [geometry.coordinates] read with
    [Number], and [properties.name] and [properties.label] (empty when
    absent). *)
Record Feature : Type := mkFeature {
  f_lng : float;
  f_lat : float;
  f_name : jstring;
  f_label : jstring
}.

(** A request to one of the two web services. *)
Inductive Request : Type :=
| PlaceSearch (q : jstring)
| RouteRequest (fromLng fromLat toLng toLat : float).

(** A line on the route layer. *)
Record Polyline : Type := mkPolyline {
  latlngs : list LatLng;
  color : jstring;
  weight : nat;
  opacity : float;
  dashArray : option jstring
}.

(** ** The host: the language library and the network *)

Class Env : Type := {
  toUpperCase : jstring -> jstring;
  toLowerCase : jstring -> jstring;
  (** on ASCII text [toUpperCase] is the ASCII upper case *)
  toUpperCase_ascii :
    forall s, forallb isAscii s = true -> toUpperCase s = map upperAscii s;
  Math_sin : float -> float;
  Math_cos : float -> float;
  Math_asin : float -> float;
  (** [x.toFixed(6)] *)
  toFixed6 : float -> jstring;
  (** the place search: after the requests issued so far, the answer to a
      query; [None] when the request fails or the payload has no
      [features] array *)
  placeSearch : list Request -> jstring -> option (list Feature);
  (** the routing service: [routes[0].geometry.coordinates], or [None]
      when the request fails or the payload has no such array *)
  routing :
    list Request -> float -> float -> float -> float -> option (list LngLat)
}.

(** ** State, errors and the monad of the asynchronous functions *)

Record St : Type := mkSt {
  (** [localStorage["hgv.lst.geocodeCache"]], parsed; [None] when absent *)
  geocodeStore : option props;
  (** [localStorage["hgv.lst.osrmCache"]] *)
  osrmStore : option props;
  (** the requests issued, oldest first *)
  requests : list Request;
  (** [__routeLayer] *)
  routeLayer : list Polyline;
  (** [bounds] of [drawRoutesOnMap] *)
  bounds : list LatLng;
  (** [prev] and [failedSegments] of the route being drawn *)
  prev : option Point;
  failedSegments : nat
}.

Inductive Error : Type :=
| MissingGeocodeLabel
| NoMatchFor (label : jstring)
| GeocodeOutOfUkBounds (label : jstring)
| BadEndpointFor (road : jstring)
| UnrealisticSegmentJump (km : float).

Inductive Res (A : Type) : Type :=
| Ok (a : A)
| Err (e : Error).

Arguments Ok {A} a.
Arguments Err {A} e.

Definition M (A : Type) : Type := St -> Res A * St.

Definition ret {A : Type} (a : A) : M A := fun st => (Ok a, st).

Definition throw {A : Type} (e : Error) : M A := fun st => (Err e, st).

Definition bind {A B : Type} (m : M A) (f : A -> M B) : M B :=
  fun st =>
    match m st with
    | (Ok a, st') => f a st'
    | (Err e, st') => (Err e, st')
    end.

(** [try { m } catch (e) { h(e) }]: the handler runs in the state the body
    left. *)
Definition tryCatch {A : Type} (m : M A) (h : Error -> M A) : M A :=
  fun st =>
    match m st with
    | (Ok a, st') => (Ok a, st')
    | (Err e, st') => h e st'
    end.

Declare Scope monad_scope.
Delimit Scope monad_scope with monad.
Bind Scope monad_scope with M.

Notation "x <- c1 ;; c2" := (bind c1 (fun x => c2))
  (at level 61, c1 at next level, right associativity) : monad_scope.
Notation "c1 ;; c2" := (bind c1 (fun _ => c2))
  (at level 61, right associativity) : monad_scope.

Open Scope monad_scope.

Definition setGeocodeStore (v : option props) (st : St) : St :=
  mkSt v (osrmStore st) (requests st) (routeLayer st) (bounds st)
       (prev st) (failedSegments st).

Definition setOsrmStore (v : option props) (st : St) : St :=
  mkSt (geocodeStore st) v (requests st) (routeLayer st) (bounds st)
       (prev st) (failedSegments st).

Definition addRequest (q : Request) (st : St) : St :=
  mkSt (geocodeStore st) (osrmStore st) (requests st ++ [q]) (routeLayer st)
       (bounds st) (prev st) (failedSegments st).

Definition setRouteLayer (v : list Polyline) (st : St) : St :=
  mkSt (geocodeStore st) (osrmStore st) (requests st) v (bounds st)
       (prev st) (failedSegments st).

Definition setBounds (v : list LatLng) (st : St) : St :=
  mkSt (geocodeStore st) (osrmStore st) (requests st) (routeLayer st) v
       (prev st) (failedSegments st).

Definition setPrev (v : option Point) (st : St) : St :=
  mkSt (geocodeStore st) (osrmStore st) (requests st) (routeLayer st)
       (bounds st) v (failedSegments st).

Definition setFailedSegments (v : nat) (st : St) : St :=
  mkSt (geocodeStore st) (osrmStore st) (requests st) (routeLayer st)
       (bounds st) (prev st) v.

Definition modify (f : St -> St) : M unit := fun st => (Ok tt, f st).

Definition gets {A : Type} (f : St -> A) : M A := fun st => (Ok (f st), st).

(** [readJSON(key, {})]: the stored object, or the fallback. *)
Definition readJSON (stored : option props) : props :=
  match stored with
  | Some o => o
  | None => []
  end.

(** ** The functions of the module *)

Section Program.

Context {env : Env}.

Local Open Scope float_scope.

Definition GEOCODE_CACHE_VERSION : float := 2.

Record Bounds : Type :=
  mkBounds { minLat : float; maxLat : float; minLng : float; maxLng : float }.

Definition UK_BOUNDS : Bounds :=
  {| minLat := 49.8; maxLat := 60.95; minLng := -8.65; maxLng := 1.8 |}.

(** [inUkBounds(lat, lng)] on two numbers. *)
Definition inUkBounds (lat lng : float) : bool :=
  is_finite lat && is_finite lng
  && (minLat UK_BOUNDS <=? lat) && (lat <=? maxLat UK_BOUNDS)
  && (minLng UK_BOUNDS <=? lng) && (lng <=? maxLng UK_BOUNDS).

(** [inUkBounds(c?.lat, c?.lng)] on two values read from a stored object:
    [Number.isFinite] is false of what is not a number. *)
Definition inUkBoundsV (lat lng : option Json) : bool :=
  match lat, lng with
  | Some (JNum a), Some (JNum b) => inUkBounds a b
  | _, _ => false
  end.

Definition riskColor (r : Risk) : jstring :=
  match r with
  | RiskH => js "#ef4444"
  | RiskM => js "#f59e0b"
  | RiskL => js "#22c55e"
  end.

Definition toRad (deg : float) : float := (deg * Num.Math_PI) / 180.

(** The great-circle distance for an earth radius [R]. *)
Definition haversine (R : float) (a b : Point) : float :=
  let dLat := toRad (lat b - lat a) in
  let dLng := toRad (lng b - lng a) in
  let lat1 := toRad (lat a) in
  let lat2 := toRad (lat b) in
  let s1 := Math_sin (dLat / 2) in
  let s2 := Math_sin (dLng / 2) in
  let h := s1 * s1 + Math_cos lat1 * Math_cos lat2 * s2 * s2 in
  2 * R * Math_asin (sqrt h).

Definition haversineMetersSimple (a b : Point) : float :=
  haversine 6371000 a b.

(** [haversineKm] of [drawRoutesOnMap]. *)
Definition haversineKm (a b : Point) : float := haversine 6371 a b.

(** *** The label classifier *)

(** [/\b[A-Z]{1,2}\d{1,2}[A-Z]?\s*\d[A-Z]{2}\b/i] *)
Definition rePostcode : regex :=
  Seq [Bnd; Rep12 letterI; Rep12 digit; Opt letterI; Star space;
       digit; letterI; letterI; Bnd].

(** [/^(at|take|then|turn|continue|bear|keep|follow|exit|slip)\b/i] *)
Definition reInstructionStart : regex :=
  Seq [Bol;
       Cap 1 (AnyOf [wordI "at"; wordI "take"; wordI "then"; wordI "turn";
                     wordI "continue"; wordI "bear"; wordI "keep";
                     wordI "follow"; wordI "exit"; wordI "slip"]);
       Bnd].

(** [/\b(roundabout|flyover|1st|2nd|3rd|4th|5th)\b/i] *)
Definition reJunctionWord : regex :=
  Seq [Bnd;
       Cap 1 (AnyOf [wordI "roundabout"; wordI "flyover"; wordI "1st";
                     wordI "2nd"; wordI "3rd"; wordI "4th"; wordI "5th"]);
       Bnd].

(** [/\b(exit|take|onto|into)\b/i] *)
Definition reActionWord : regex :=
  Seq [Bnd;
       Cap 1 (AnyOf [wordI "exit"; wordI "take"; wordI "onto"; wordI "into"]);
       Bnd].

Definition isInstructionLikeLabel (v : jstring) : bool :=
  let s := trim v in
  if negb (nonEmpty s) then true
  else if test rePostcode s then false
  else if test reInstructionStart s then true
  else if test reJunctionWord s && test reActionWord s then true
  else false.

(** [/\b([AM]\d{1,3})(?:\s*\/\s*([AM]?\d{1,3}))?\b/i] *)
Definition reRoadToken : regex :=
  Seq [Bnd;
       Cap 1 (Cat roadLetterI (Rep13 digit));
       Opt (Seq [Star space; chr "/"; Star space;
                 Cap 2 (Cat (Opt roadLetterI) (Rep13 digit))]);
       Bnd].

(** [m[n]] read as a string, empty when the group did not take part. *)
Definition groupText (n : nat) (f : found) : jstring :=
  match group n (m_caps f) with
  | Some w => w
  | None => []
  end.

Definition extractRoadToken (v : jstring) : jstring :=
  match search reRoadToken v with
  | None => []
  | Some m =>
      if nonEmpty (groupText 2 m)
      then toUpperCase (groupText 1 m) ++ js "/" ++ toUpperCase (groupText 2 m)
      else toUpperCase (groupText 1 m)
  end.

(** [/^[AM]\d{1,3}(?:\s*\/\s*[AM]?\d{1,3})?$/i] *)
Definition reRoadOnly : regex :=
  Seq [Bol; roadLetterI; Rep13 digit;
       Opt (Seq [Star space; chr "/"; Star space; Opt roadLetterI;
                 Rep13 digit]);
       Eol].

Definition isRoadOnlyLabel (v : jstring) : bool :=
  let s := trim v in
  if negb (nonEmpty s) then false
  else test reRoadOnly s.

(** [String(seg?.[key] ?? "")] for an element of the segment list. *)
Definition segLabel (seg : option Segment) (key : Key) : jstring :=
  match seg with
  | Some s =>
      match labelAt s key with
      | Some l => l
      | None => []
      end
  | None => []
  end.

Definition segRoad (seg : option Segment) : jstring :=
  match seg with
  | Some s => road s
  | None => []
  end.

Definition isTo (key : Key) : bool :=
  match key with KTo => true | _ => false end.

Definition isFrom (key : Key) : bool :=
  match key with KFrom => true | _ => false end.

Definition effectiveLabelForEndpoint (route : Route) (segs : list Segment)
  (i : nat) (key : Key) : jstring :=
  let seg := nth_error segs i in
  let raw := trim (segLabel seg key) in
  if isRoadOnlyLabel raw then []
  else if negb (isInstructionLikeLabel raw) then raw
  else
    let tok := extractRoadToken raw in
    if nonEmpty tok then tok
    else if isTo key && Nat.eqb (S i) (length segs) then
      orElse (trim (orElse (endPostcode route) (endLabel route))) raw
    else if isFrom key && Nat.eqb i 0 then
      orElse (trim (orElse (startPostcode route) (startLabel route))) raw
    else if isTo key && Nat.ltb (i + 1) (length segs) then
      let next := nth_error segs (i + 1) in
      let nextFrom := trim (segLabel next KFrom) in
      let nextTok :=
        orElse (extractRoadToken nextFrom) (extractRoadToken (segRoad next)) in
      if negb (isInstructionLikeLabel nextFrom) && nonEmpty nextFrom
      then nextFrom
      else orElse nextTok (orElse (trim (segRoad next)) raw)
    else if isFrom key && Nat.leb 1 i then
      let before := nth_error segs (i - 1) in
      let prevTo := trim (segLabel before KTo) in
      let prevTok :=
        orElse (extractRoadToken prevTo) (extractRoadToken (segRoad before)) in
      if negb (isInstructionLikeLabel prevTo) && nonEmpty prevTo
      then prevTo
      else orElse prevTok (orElse (trim (segRoad before)) raw)
    else raw.

(** *** The geocode cache *)

Definition readGeocodeCache : M props :=
  gets (fun st => readJSON (geocodeStore st)).

(** [writeJSON(LS_KEYS.geocode, o)] *)
Definition writeGeocodeCache (o : props) : M unit :=
  modify (setGeocodeStore (Some o)).

(** [localStorage.removeItem(LS_KEYS.geocode)] *)
Definition removeGeocodeCache : M unit := modify (setGeocodeStore None).

(** [cache.__v === GEOCODE_CACHE_VERSION] *)
Definition versionOk (cache : props) : bool :=
  match getProp (js "__v") cache with
  | Some (JNum x) => x =? GEOCODE_CACHE_VERSION
  | _ => false
  end.

(** The query sent to the place search. *)
Definition normalizeQ (q : jstring) : jstring :=
  let s := trim q in
  if negb (nonEmpty s) then s
  else
    let s1 := replaceAll (chr "/") s (js " ") in
    let s2 := replaceAll (Seq [Bnd; wordI "near"; Bnd]) s1 (js " ") in
    let s3 := replaceAll (Seq [Bnd; wordI "Jn"; Bnd]) s2 (js "Junction") in
    let s4 := replaceAll (Seq [Bnd; wordI "Jnc"; Bnd]) s3 (js "Junction") in
    let s5 := replaceAll (Seq [Bnd; wordI "Rdbt"; Bnd]) s4 (js "Roundabout") in
    let s6 := replaceAll (Seq [Bnd; chrI "R"; chr "/"; chrI "A"; Bnd]) s5
                (js "Roundabout") in
    replaceAll (Seq [space; space; Star space]) s6 (js " ").

(** [fetch] of the place search and the reading of [data?.features], for a
    query that [encodeURIComponent] accepts (see [sendable] below). *)
Definition fetchPlaces (q : jstring) : M (option (list Feature)) :=
  fun st => (Ok (placeSearch (requests st) q), addRequest (PlaceSearch q) st).

(** The labels whose two queries can be sent.  [tryFetch] builds its URL
    with [encodeURIComponent(qq)], which throws on a query that is not well
    formed: for such a label [geocodePlace] ends there, with a [URIError]
    and no request.  [fetchPlaces] is the source's for the others. *)
Definition sendable (label : jstring) : bool :=
  isWellFormed (normalizeQ (label ++ js ", UK"))
  && isWellFormed (normalizeQ label).

Definition MAX_HINT_DISTANCE_M : float := 120000.

Definition featurePoint (f : Feature) : Point :=
  mkPoint (f_lat f) (f_lng f) None.

(** One turn of the loop that picks the candidate closest to the hint. *)
Definition closer (hint : Point) (acc : Feature * float) (f : Feature)
  : Feature * float :=
  let d := haversineMetersSimple hint (featurePoint f) in
  if d <? snd acc then (f, d) else acc.

Definition closest (hint : Point) (first : Feature)
  (candidates : list Feature) : Feature * float :=
  fold_left (closer hint) candidates (first, infinity).

Definition hintUsable (hint : option Point) : option Point :=
  match hint with
  | Some h => if is_finite (lat h) && is_finite (lng h) then Some h else None
  | None => None
  end.

(** [tryFetch(q)] of [geocodePlace]. *)
Definition tryFetch (hint : option Point) (q : jstring)
  : M (option Feature) :=
  feats <- fetchPlaces (normalizeQ q) ;;
  match feats with
  | None => ret None
  | Some [] => ret None
  | Some ((_ :: _) as feats) =>
      let candidates :=
        filter (fun f => inUkBounds (f_lat f) (f_lng f)) feats in
      match candidates with
      | [] => ret None
      | first :: _ =>
          match hintUsable hint with
          | Some h =>
              let (best, bestD) := closest h first candidates in
              if MAX_HINT_DISTANCE_M <? bestD then ret None
              else ret (Some best)
          | None => ret (Some first)
          end
      end
  end.

Definition jsonOfPoint (p : Point) : Json :=
  JObj ([(js "lat", JNum (lat p)); (js "lng", JNum (lng p))]
        ++ match displayName p with
           | Some d => [(js "displayName", JStr d)]
           | None => []
           end).

(** A stored entry that passed the bounds check, as the caller reads it. *)
Definition pointOfJson (c : Json) : Point :=
  mkPoint
    (match field c "lat" with Some (JNum x) => x | _ => nan end)
    (match field c "lng" with Some (JNum x) => x | _ => nan end)
    (match field c "displayName" with Some (JStr s) => Some s | _ => None end).

(** [geocodePlace] from the throttle on: the lookup missed, and
    [freshCache] is the cache object as it stands.  The place is stored
    as an own property of the cache, which is what [freshCache[k] = out]
    does for every key but [__proto__] (see [plainKey]). *)
Definition geocodeLookup (label : jstring) (hint : option Point)
  (k : jstring) (freshCache : props) : M Point :=
  hit1 <- tryFetch hint (label ++ js ", UK") ;;
  hit <- match hit1 with
         | Some f => ret (Some f)
         | None => tryFetch hint label
         end ;;
  match hit with
  | None => throw (NoMatchFor label)
  | Some f =>
      let out :=
        mkPoint (f_lat f) (f_lng f)
                (Some (orElse (f_name f) (orElse (f_label f) label))) in
      if negb (inUkBounds (lat out) (lng out))
      then throw (GeocodeOutOfUkBounds label)
      else
        writeGeocodeCache (setProp k (jsonOfPoint out) freshCache) ;;
        ret out
  end.

(** The cache is read through its own properties, which is what
    [freshCache[k]] does for every key that is no property name of
    [Object.prototype] (see [plainKey]). *)
Definition geocodePlace (label : jstring) (hint : option Point) : M Point :=
  cache <- readGeocodeCache ;;
  (if versionOk cache then ret tt else removeGeocodeCache) ;;
  let freshCache :=
    if versionOk cache then cache
    else [(js "__v", JNum GEOCODE_CACHE_VERSION)] in
  let k := toLowerCase (trim label) in
  if negb (nonEmpty k) then throw MissingGeocodeLabel
  else
    match getProp k freshCache with
    | Some c =>
        if truthy c then
          if inUkBoundsV (field c "lat") (field c "lng")
          then ret (pointOfJson c)
          else
            (* purge bad cached entries from older versions *)
            let purged := delProp k freshCache in
            writeGeocodeCache purged ;;
            geocodeLookup label hint k purged
        else geocodeLookup label hint k freshCache
    | None => geocodeLookup label hint k freshCache
    end.

(** *** The endpoint resolver *)

Definition resolveOverride (coords : option Point) : option Point :=
  match coords with
  | Some c =>
      if inUkBounds (lat c) (lng c)
      then Some (mkPoint (lat c) (lng c) (Some (js "Override")))
      else None
  | None => None
  end.

Definition resolveEndpoint {A : Type} `{Endpoints A} (seg : A) (key : Key)
  (hint : option Point) (labelOverride : option jstring) : M Point :=
  match resolveOverride (coordsAt seg key) with
  | Some override => ret override
  | None =>
      let raw :=
        trim (match labelOverride with
              | Some l => l
              | None =>
                  match labelAt seg key with
                  | Some l => l
                  | None => []
                  end
              end) in
      if negb (nonEmpty raw) then
        match hintUsable hint with
        | Some h => ret h
        | None => throw MissingGeocodeLabel
        end
      else geocodePlace raw hint
  end.

(** *** The route cache *)

Definition readOsrmCache : M props :=
  gets (fun st => readJSON (osrmStore st)).

Definition writeOsrmCache (o : props) : M unit :=
  modify (setOsrmStore (Some o)).

Definition routeKey (a b : Point) : jstring :=
  toFixed6 (lng a) ++ js "," ++ toFixed6 (lat a) ++ js "|"
  ++ toFixed6 (lng b) ++ js "," ++ toFixed6 (lat b).

(** [Array.isArray(c) && c.length>=2 && Number.isFinite(c[0]) &&
    Number.isFinite(c[1])] *)
Definition sanePair (c : Json) : bool :=
  match c with
  | JArr (JNum x :: JNum y :: _) => is_finite x && is_finite y
  | _ => false
  end.

Definition looksSane (coords : Json) : bool :=
  match coords with
  | JArr cs => Nat.leb 2 (length cs) && forallb sanePair cs
  | _ => false
  end.

(** The first two entries of a stored position. *)
Definition lngLatOf (c : Json) : LngLat :=
  match c with
  | JArr (JNum x :: JNum y :: _) => (x, y)
  | _ => (nan, nan)
  end.

Definition lngLatsOf (coords : Json) : list LngLat :=
  match coords with
  | JArr cs => map lngLatOf cs
  | _ => []
  end.

Definition jsonOfLngLats (cs : list LngLat) : Json :=
  JArr (map (fun c => JArr [JNum (fst c); JNum (snd c)]) cs).

(** [minLat, maxLat, minLng, maxLng] after the loop over the positions. *)
Definition extent (cs : list LngLat) : Bounds :=
  fold_left
    (fun b c =>
       let lng := fst c in
       let lat := snd c in
       mkBounds (Num.Math_min (minLat b) lat) (Num.Math_max (maxLat b) lat)
                (Num.Math_min (minLng b) lng) (Num.Math_max (maxLng b) lng))
    cs (mkBounds 90 (-90) 180 (-180)).

Definition within (b : Bounds) : bool :=
  (45 <? minLat b) && (maxLat b <? 62) && (-12 <? minLng b)
  && (maxLng b <? 5).

Definition fetchRoute (a b : Point) : M (option (list LngLat)) :=
  fun st =>
    (Ok (routing (requests st) (lng a) (lat a) (lng b) (lat b)),
     addRequest (RouteRequest (lng a) (lat a) (lng b) (lat b)) st).

(** Keep the cache bounded: beyond 250 keys, the first 50 go. *)
Definition evict (cache : props) : props :=
  let keys := keysOf cache in
  if Nat.ltb 250 (length keys)
  then fold_left (fun c k => delProp k c) (firstn 50 keys) cache
  else cache.

(** [osrmRoute] from the throttle on: the lookup missed, and [cache] is the
    cache object as it stands. *)
Definition osrmFetch (a b : Point) (k : jstring) (cache : props)
  : M (option (list LngLat)) :=
  coords <- fetchRoute a b ;;
  match coords with
  | None => ret None
  | Some cs =>
      if Nat.ltb (length cs) 2 then ret None
      else
        writeOsrmCache (evict (setProp k (jsonOfLngLats cs) cache)) ;;
        ret (Some cs)
  end.

Definition osrmRoute (a b : Point) : M (option (list LngLat)) :=
  cache <- readOsrmCache ;;
  let k := routeKey a b in
  match getProp k cache with
  | Some coords =>
      if truthy coords then
        if looksSane coords && within (extent (lngLatsOf coords))
        then ret (Some (lngLatsOf coords))
        else
          let dropped := delProp k cache in
          writeOsrmCache dropped ;;
          osrmFetch a b k dropped
      else osrmFetch a b k cache
  | None => osrmFetch a b k cache
  end.

End Program.

(** *** The path builder *)

Section PathBuilder.

Context {env : Env}.

Local Open Scope float_scope.

(** [c => [c[1], c[0]]] *)
Definition swap (c : LngLat) : LatLng := (snd c, fst c).

Definition pushBounds (lls : list LatLng) : M unit :=
  modify (fun st => setBounds (bounds st ++ lls) st).

(** [L.polyline(latlngs, options).addTo(__routeLayer)] *)
Definition addPolyline (p : Polyline) : M unit :=
  modify (fun st => setRouteLayer (routeLayer st ++ [p]) st).

(** [const pick = (v) => ...] of [nextAnchorLabel]. *)
Definition pickAnchor (v : jstring) : jstring :=
  if negb (nonEmpty v) then []
  else if isRoadOnlyLabel v then []
  else if negb (isInstructionLikeLabel v) then v
  else if test rePostcode v then v
  else [].

Fixpoint firstAnchor (segs : list Segment) : option jstring :=
  match segs with
  | [] => None
  | s :: rest =>
      let p1 := pickAnchor (trim (from s)) in
      if nonEmpty p1 then Some p1
      else
        let p2 := pickAnchor (trim (to s)) in
        if nonEmpty p2 then Some p2 else firstAnchor rest
  end.

Definition nextAnchorLabel (r : Route) (segs : list Segment) (idx : nat)
  : jstring :=
  match firstAnchor (skipn (idx + 1) segs) with
  | Some p => p
  | None => trim (orElse (endPostcode r) (endLabel r))
  end.

(** [/^[AM]\d+\b/i], [/^A\d+\/?A?\d*\b/i], [/^M\d+\b/i], [/\bJn\b/i] *)
Definition looksLikeRoadOnly (v : jstring) : bool :=
  let s := trim v in
  if negb (nonEmpty s) then true
  else
    test (Seq [Bol; roadLetterI; Plus digit; Bnd]) s
    || test (Seq [Bol; chrI "A"; Plus digit; Opt (chr "/"); Opt (chrI "A");
                  Star digit; Bnd]) s
    || test (Seq [Bol; chrI "M"; Plus digit; Bnd]) s
    || test (Seq [Bnd; wordI "Jn"; Bnd]) s.

(** A pinned coordinate that passes the bounds check, as a fresh object. *)
Definition pinned (coords : option Point) : option Point :=
  match coords with
  | Some c =>
      if inUkBounds (lat c) (lng c)
      then Some (mkPoint (lat c) (lng c) None)
      else None
  | None => None
  end.

(** The branch of the [try] block for a segment with stored geometry: the
    geometry is drawn as it is, and its last position becomes the hint of
    the next segment when it is inside the bounds. *)
Definition drawStored (seg : Segment) (coords : list LngLat) : M unit :=
  let lls := map swap coords in
  let endpoint := List.last coords (nan, nan) in
  (if inUkBounds (snd endpoint) (fst endpoint)
   then modify (setPrev (Some (mkPoint (snd endpoint) (fst endpoint) None)))
   else ret tt) ;;
  pushBounds lls ;;
  addPolyline (mkPolyline lls (riskColor (risk seg)) 6 0.9 None).

(** [a]: the previous endpoint, else the pinned [fromCoords], else the
    geocoded [fromLabel] unless it looks like a road name. *)
Definition resolveFrom (seg : Segment) (fromLabel : jstring)
  : M (option Point) :=
  p <- gets prev ;;
  match p with
  | Some a => ret (Some a)
  | None =>
      match pinned (fromCoords seg) with
      | Some a => ret (Some a)
      | None =>
          if nonEmpty fromLabel && negb (looksLikeRoadOnly fromLabel)
          then (x <- geocodePlace fromLabel None ;; ret (Some x))
          else ret None
      end
  end.

(** [b]: the pinned [toCoords], else the geocoded [toLabel] near [a]. *)
Definition resolveTo (seg : Segment) (toLabel : jstring) (a : Point)
  : M (option Point) :=
  match pinned (toCoords seg) with
  | Some b => ret (Some b)
  | None =>
      if nonEmpty toLabel
      then (x <- geocodePlace toLabel (Some a) ;; ret (Some x))
      else ret None
  end.

(** The end of the [try] block, once both endpoints passed the guards: the
    chain advances, and the routed line (or the straight dashed one) is
    drawn. *)
Definition drawBetween (seg : Segment) (a b : Point) : M unit :=
  (* only advance the chain when TO resolved *)
  modify (setPrev (Some b)) ;;
  coords <- osrmRoute a b ;;
  let lls :=
    match coords with
    | Some cs => map swap cs
    | None => [(lat a, lng a); (lat b, lng b)]
    end in
  pushBounds lls ;;
  addPolyline
    (mkPolyline lls (riskColor (risk seg)) 6 0.9
       (match coords with
        | Some _ => None
        | None => Some (js "10 10")
        end)).

(** The branch of the [try] block for a segment without stored geometry. *)
Definition drawResolved (r : Route) (segs : list Segment) (i : nat)
  (seg : Segment) : M unit :=
  let fromLabel := effectiveLabelForEndpoint r segs i KFrom in
  let toLabel0 := effectiveLabelForEndpoint r segs i KTo in
  let toLabel :=
    if nonEmpty toLabel0 then toLabel0 else nextAnchorLabel r segs i in
  a <- resolveFrom seg fromLabel ;;
  match a with
  | None => throw MissingGeocodeLabel
  | Some a =>
      b <- resolveTo seg toLabel a ;;
      match b with
      | None => throw (BadEndpointFor (road seg))
      | Some b =>
          if negb (inUkBounds (lat b) (lng b))
          then throw (BadEndpointFor (road seg))
          else
            (* guardrail: reject wildly long jumps *)
            let km := haversineKm a b in
            if 180 <? km then throw (UnrealisticSegmentJump km)
            else drawBetween seg a b
      end
  end.

(** The [try] block of the segment loop. *)
Definition drawSegment (r : Route) (segs : list Segment) (i : nat)
  (seg : Segment) : M unit :=
  match geometry seg with
  | Some ((_ :: _ :: _) as coords) => drawStored seg coords
  | _ => drawResolved r segs i seg
  end.

(** One turn of the segment loop: the [try] block, and [failedSegments++]
    in its [catch]. *)
Definition segmentStep (r : Route) (segs : list Segment) (i : nat)
  (seg : Segment) (st : St) : St :=
  match drawSegment r segs i seg st with
  | (Ok _, st') => st'
  | (Err _, st') => setFailedSegments (failedSegments st' + 1) st'
  end.

(** [for(let i=0; i<segs.length; i++)], from index [i] on. *)
Fixpoint segmentLoop (r : Route) (segs : list Segment) (i : nat)
  (rest : list Segment) (st : St) : St :=
  match rest with
  | [] => st
  | seg :: rest' => segmentLoop r segs (S i) rest' (segmentStep r segs i seg st)
  end.

(** The initial anchor of the chain. *)
Definition initPrev (r : Route) : M unit :=
  modify (setPrev None) ;;
  let startAnchorLabel := trim (orElse (startPostcode r) (startLabel r)) in
  if nonEmpty startAnchorLabel then
    tryCatch
      (match pinned (startCoords r) with
       | Some p => modify (setPrev (Some p))
       | None =>
           p <- geocodePlace startAnchorLabel None ;;
           modify (setPrev (Some p))
       end)
      (fun _ => modify (setPrev None))
  else ret tt.

(** The two anchors of the whole-route fallback. *)
Definition fallbackAnchors (r : Route) : M (Point * Point) :=
  start <- match pinned (startCoords r) with
           | Some p => ret p
           | None =>
               geocodePlace (trim (orElse (startPostcode r) (startLabel r)))
                            None
           end ;;
  finish <- match pinned (endCoords r) with
            | Some p => ret p
            | None =>
                geocodePlace (trim (orElse (endPostcode r) (endLabel r)))
                             (Some start)
            end ;;
  ret (start, finish).

(** The line of the fallback between two resolved anchors. *)
Definition fallbackLine (start finish : Point) : M unit :=
  if inUkBounds (lat start) (lng start) && inUkBounds (lat finish) (lng finish)
  then
    coords <- osrmRoute start finish ;;
    let lls :=
      match coords with
      | Some cs => map swap cs
      | None => [(lat start, lng start); (lat finish, lng finish)]
      end in
    pushBounds lls ;;
    addPolyline
      (mkPolyline lls (js "#9aa0a6") 5 0.6
         (match coords with
          | Some _ => Some (js "10 10")
          | None => Some (js "6 10")
          end))
  else ret tt.

(** After the loop: one line from journey start to journey end when a
    segment failed. *)
Definition routeFallback (r : Route) : M unit :=
  failed <- gets failedSegments ;;
  if Nat.ltb 0 failed then
    tryCatch
      (anchors <- fallbackAnchors r ;;
       fallbackLine (fst anchors) (snd anchors))
      (fun _ => ret tt)
  else ret tt.

(** The state when the segment loop of a route ends. *)
Definition afterSegments (r : Route) (st : St) : St :=
  let st1 := snd (initPrev r st) in
  segmentLoop r (segments r) 0 (segments r) (setFailedSegments 0 st1).

(** The body of [for(const r of routes)]. *)
Definition drawRoute (r : Route) (st : St) : St :=
  snd (routeFallback r (afterSegments r st)).

(** [drawRoutesOnMap({routeIds})] on the stored routes [all]: the layer is
    cleared, and the selected routes are drawn in order. *)
Definition drawRoutesOnMap (all : list Route) (routeIds : list jstring)
  (st : St) : St :=
  let routes :=
    filter (fun r => existsb (Str.eqb (id r)) routeIds) all in
  fold_left (fun s r => drawRoute r s) routes
            (setBounds [] (setRouteLayer [] st)).

End PathBuilder.

(** *** The route store *)

(** The arrow of the two titles, U+2192. *)
Definition arrow : jstring := [8594%N].

(** [SEED_ROUTES]: the two routes the module ships with. *)
Definition seedSegment (road from to : string) (risk : Risk) : Segment :=
  mkSegment (js road) (js from) (js to) risk None None None [].

Definition SEED_ROUTES : list Route :=
  [ mkRoute (js "turners-newmarket-bickers-yard")
      (js "Turners Newmarket " ++ arrow ++ js " Bickers Yard")
      (js ("High risk: trailer swing oncoming traffic when turning left "
           ++ "into yard."))
      [] [] None [] [] None
      [ seedSegment "Turners Newmarket" "Landwade Rd, Newmarket"
                    "A142, Newmarket" RiskL;
        seedSegment "A142" "A142, Newmarket" "A142/A10, Ely" RiskL;
        seedSegment "A10" "A142/A10, Ely" "A10/A17, King's Lynn" RiskL;
        seedSegment "A17" "A10/A17, King's Lynn" "A17/A52, near Grantham"
                    RiskL;
        seedSegment "A52" "A17/A52, near Grantham" "Bickers Yard" RiskH ];
    mkRoute (js "turners-newmarket-rdc-via-m6")
      (js "Turners Newmarket " ++ arrow ++ js " RDC (via A14/M6/M1)")
      (js ("High risk: turning right onto A14 slip road (vehicles from "
           ++ "behind). Medium: trailer position swing on M6 roundabout "
           ++ "(4th exit). Medium: trailer swing when turning right into "
           ++ "RDC."))
      [] [] None [] [] None
      [ seedSegment "Turners Newmarket" "Landwade Rd, Newmarket"
                    "A14 slip road from A142, Newmarket" RiskH;
        seedSegment "A14" "A14 slip road from A142, Newmarket"
                    "A14/A1 junction" RiskL;
        seedSegment "A14" "A14/A1 junction" "M6" RiskL;
        seedSegment "M6" "M6" "M6 Junction 1 (A426)" RiskL;
        seedSegment "M6 Roundabout" "M6 Junction 1 (A426)" "M6 (4th exit)"
                    RiskM;
        seedSegment "M6" "M6 (4th exit)" "M6/M1" RiskL;
        seedSegment "M1" "M6/M1" "M1 Junction 14 (A4428)" RiskL;
        seedSegment "A4428" "M1 Junction 14 (A4428)" "Dockham Way roundabout"
                    RiskL;
        seedSegment "Dockham Way" "Dockham Way roundabout" "RDC" RiskM ] ].

(** [localStorage["hgv.lst.routes"]] as [readJSON] gives it: an array of
    routes, or anything else (nothing stored, text that does not parse, a
    value that is not an array). *)
Inductive StoredRoutes : Type :=
| NoRouteArray
| RouteArray (routes : list Route).

(** [ensureSeedRoutes()]: the stored routes and the store it leaves. *)
Definition ensureSeedRoutes (s : StoredRoutes) : list Route * StoredRoutes :=
  match s with
  | RouteArray ((_ :: _) as existing) => (existing, s)
  | _ => (SEED_ROUTES, RouteArray SEED_ROUTES)
  end.

Module LST_STORE.

(** [JSON.parse(JSON.stringify(SEED_ROUTES))] *)
Definition seed : list Route := SEED_ROUTES.

Definition get (s : StoredRoutes) : list Route * StoredRoutes :=
  ensureSeedRoutes s.

Definition save (routes : list Route) (s : StoredRoutes) : StoredRoutes :=
  RouteArray routes.

Definition reset (s : StoredRoutes) : StoredRoutes := RouteArray seed.

End LST_STORE.

(** The handler of the administration's [Delete route] button, once
    confirmed: [saveLstRoutes(LST_STORE.get().filter(r => r.id !== rid))]. *)
Definition deleteRoute (rid : jstring) (s : StoredRoutes) : StoredRoutes :=
  let (routes, s1) := LST_STORE.get s in
  LST_STORE.save (filter (fun r => negb (Str.eqb (id r) rid)) routes) s1.

(** *** The search box of the route list *)

(** [s.startsWith(p)] *)
Fixpoint startsWith (s p : jstring) : bool :=
  match p, s with
  | [], _ => true
  | x :: p', y :: s' => N.eqb x y && startsWith s' p'
  | _ :: _, [] => false
  end.

(** [s.includes(q)] *)
Fixpoint includes (s q : jstring) : bool :=
  startsWith s q
  || match s with
     | [] => false
     | _ :: t => includes t q
     end.

(** [parts.join(sep)] *)
Fixpoint join (sep : jstring) (parts : list jstring) : jstring :=
  match parts with
  | [] => []
  | x :: rest =>
      match rest with
      | [] => x
      | _ :: _ => x ++ sep ++ join sep rest
      end
  end.

Section RouteSearch.

Context {env : Env}.

(** The text of a route that a query is looked up in. *)
Definition routeHaystack (r : Route) : jstring :=
  let segText :=
    join (js " ")
         (map (fun s => road s ++ js " " ++ from s ++ js " " ++ to s)
              (segments r)) in
  toLowerCase
    (join (js " ")
          (filter nonEmpty
                  [title r; notes r; startLabel r; startPostcode r;
                   endLabel r; endPostcode r; segText])).

(** [filterRoutes(query)] over the routes of the list. *)
Definition filterRoutes (routes : list Route) (query : jstring)
  : list Route :=
  let qq := toLowerCase (trim query) in
  if negb (nonEmpty qq) then routes
  else filter (fun r => includes (routeHaystack r) qq) routes.

End RouteSearch.

(** *** The preview of the route editor *)

Section Preview.

Context {env : Env}.

Local Open Scope float_scope.

(** The body of the segment loop of [drawLstPreview]: the line added to
    the preview layer, if any.  The two endpoints are resolved without a
    hint, each on its own. *)
Definition previewSegment (seg : Segment) : M (option Polyline) :=
  tryCatch
    (if negb (nonEmpty (from seg)) || negb (nonEmpty (to seg)) then ret None
     else
       lls <-
         match geometry seg with
         | Some ((_ :: _ :: _) as coords) => ret (map swap coords)
         | _ =>
             a <- resolveEndpoint seg KFrom None None ;;
             b <- resolveEndpoint seg KTo None None ;;
             coords <- osrmRoute a b ;;
             ret (match coords with
                  | Some ((_ :: _ :: _) as cs) => map swap cs
                  | _ => [(lat a, lng a); (lat b, lng b)]
                  end)
         end ;;
       ret (Some (mkPolyline lls (riskColor (risk seg)) 5 0.9 None)))
    (fun _ => ret None).

(** [drawLstPreview] on the segments of the route: the lines of the
    preview layer, in order. *)
Fixpoint previewLoop (segs : list Segment) (st : St)
  : list Polyline * St :=
  match segs with
  | [] => ([], st)
  | seg :: rest =>
      let (res, st1) := previewSegment seg st in
      let (lines, st2) := previewLoop rest st1 in
      (match res with
       | Ok (Some line) => line :: lines
       | _ => lines
       end, st2)
  end.

End Preview.

(** *** References to stored photos *)

Module MediaStore.

(** [MediaStore.isIdbUrl(url)] on a string. *)
Definition isIdbUrl (url : jstring) : bool := startsWith url (js "idb:").

(** [MediaStore.idFromUrl(url)]: [String(url || "").slice(4)]. *)
Definition idFromUrl (url : jstring) : jstring := skipn 4 url.

(** The reference [saveFile] returns for the photo it stored under
    [photoId]. *)
Definition urlOfId (photoId : jstring) : jstring := js "idb:" ++ photoId.

End MediaStore.

(** * Part II: a concrete host, for examples

    An instance of [Env] to run the program on: ASCII case mapping,
    polynomial approximations of the three [Math] functions (close enough
    for distances within Great Britain), [toFixed(6)] by exact integer
    arithmetic, and web services given as parameters of the instance. *)

Module Scenario.

Local Open Scope float_scope.

Definition lowerAscii (c : N) : N := if isUpper c then (c + 32)%N else c.

Definition sinApprox (x : float) : float :=
  let x2 := x * x in
  x * (1 - x2 / 6 * (1 - x2 / 20 * (1 - x2 / 42 * (1 - x2 / 72)))).

Definition cosApprox (x : float) : float :=
  let x2 := x * x in
  1 - x2 / 2 * (1 - x2 / 12 * (1 - x2 / 30 * (1 - x2 / 56 * (1 - x2 / 90)))).

Definition asinApprox (x : float) : float :=
  let x2 := x * x in
  x * (1 + x2 / 6 * (1 + x2 * 9 / 20 * (1 + x2 * 25 / 42))).

(** The integer [n] of [toFixed(6)]: the one nearest to [|x| * 10^6],
    and the larger of two equally near.  The value of a finite float is
    [m * 2^e] exactly, so the rounding is done on integers. *)
Definition scaled6 (x : float) : N :=
  match Prim2SF x with
  | S754_finite _ m e =>
      let num := (Z.pos m * 1000000)%Z in
      Z.to_N (if (0 <=? e)%Z then num * 2 ^ e
              else (2 * num + 2 ^ (- e)) / 2 ^ (1 - e))%Z
  | _ => 0%N
  end.

Fixpoint decimal (fuel : nat) (n : N) (acc : jstring) : jstring :=
  match fuel with
  | O => acc
  | S fuel' =>
      let acc' := (48 + n mod 10)%N :: acc in
      if (n / 10 =? 0)%N then acc' else decimal fuel' (n / 10)%N acc'
  end.

(** [x.toFixed(6)] for a number below [10^21] in magnitude (above, the
    method of the source switches to the exponent notation). *)
Definition toFixed6Decimal (x : float) : jstring :=
  if is_nan x then js "NaN"
  else if is_infinity x then
    if x <? 0 then js "-Infinity" else js "Infinity"
  else
    let n := scaled6 x in
    let whole := decimal 30 (n / 1000000)%N [] in
    let frac := decimal 7 (1000000 + n mod 1000000)%N [] in
    (if x <? 0 then js "-" else []) ++ whole ++ js "." ++ tl frac.

Definition host
  (places : list Request -> jstring -> option (list Feature))
  (routes : list Request -> float -> float -> float -> float
            -> option (list LngLat)) : Env :=
  {| toUpperCase := map upperAscii;
     toLowerCase := map lowerAscii;
     toUpperCase_ascii := fun s _ => eq_refl;
     Math_sin := sinApprox;
     Math_cos := cosApprox;
     Math_asin := asinApprox;
     toFixed6 := toFixed6Decimal;
     placeSearch := places;
     routing := routes |}.

(** A host whose two web services are down. *)
Definition offline : Env := host (fun _ _ => None) (fun _ _ _ _ _ => None).

(** Nothing stored, nothing requested, nothing drawn. *)
Definition emptySt : St := mkSt None None [] [] [] None 0.

(** A place search that answers from a table of queries; a query that is
    not in the table has no features. *)
Definition place (name : string) (lat lng : float) : Feature :=
  mkFeature lng lat (js name) [].

Fixpoint answer (table : list (jstring * list Feature)) (q : jstring)
  : list Feature :=
  match table with
  | [] => []
  | (q', feats) :: table' =>
      if Str.eqb q' q then feats else answer table' q
  end.

Definition gazetteer : list (jstring * list Feature) :=
  [ (js "Newmarket CB8 7NR, UK", [place "Newmarket" 52.2439 0.4081]);
    (js "Leicester", [place "Leicester" 52.6369 (-1.1332)]);
    (js "Ely, UK", [place "Ely" 52.3995 0.2622]);
    (js "Burwell, UK",
      [place "Burwell (Lincolnshire)" 53.9967 0.0322;
       place "Burwell (Cambridgeshire)" 52.2750 0.3270]);
    (js "Springfield, UK", [place "Springfield (Fife)" 56.2936 (-3.0708)]);
    (js "Springfield", [place "Springfield (Fife)" 56.2936 (-3.0708)]);
    (js "Paris", [place "Paris" 48.8566 2.3522]) ].

(** A host with the table as its place search and no routing service. *)
Definition online : Env :=
  host (fun _ q => Some (answer gazetteer q)) (fun _ _ _ _ _ => None).

Definition newmarket : Point := mkPoint 52.2439 0.4081 None.

(** A store that already holds Springfield (Fife). *)
Definition springfieldCached : St :=
  mkSt (Some [(js "__v", JNum 2);
              (js "springfield",
               JObj [(js "lat", JNum 56.2936); (js "lng", JNum (-3.0708));
                     (js "displayName", JStr (js "Springfield (Fife)"))])])
       None [] [] [] None 0.

(** The second seed route. *)
Definition viaM6 : Route :=
  nth 1 SEED_ROUTES (mkRoute [] [] [] [] [] None [] [] None []).

End Scenario.

(** * Part III: lemmas *)

(** ** The order of binary64 numbers

    Through the specification of the primitive comparisons: comparing is a
    lexicographic order on a key made of the class and sign, the exponent
    and the mantissa. *)

Module NumFacts.

Import Num.
Local Open Scope float_scope.

Definition cmp (x y : float) : option comparison :=
  SFcompare (Prim2SF x) (Prim2SF y).

Lemma ltb_cmp x y : (x <? y) = true <-> cmp x y = Some Lt.
Proof.
  rewrite ltb_spec. unfold SFltb, cmp.
  destruct (SFcompare (Prim2SF x) (Prim2SF y)) as [[]|];
    split; intros H; try discriminate; reflexivity.
Qed.

Lemma leb_cmp x y :
  (x <=? y) = true <-> cmp x y = Some Lt \/ cmp x y = Some Eq.
Proof.
  rewrite leb_spec. unfold SFleb, cmp.
  destruct (SFcompare (Prim2SF x) (Prim2SF y)) as [[]|];
    split; intros H; try discriminate; auto;
    destruct H; discriminate.
Qed.

(** Comparing specification floats is a lexicographic order on a key made
    of the class and sign, the exponent and the mantissa; NaN has no
    key. *)
Definition key (f : spec_float) : option (Z * Z * Z) :=
  match f with
  | S754_nan => None
  | S754_infinity true => Some (-2, 0, 0)%Z
  | S754_infinity false => Some (2, 0, 0)%Z
  | S754_zero _ => Some (0, 0, 0)%Z
  | S754_finite true m e => Some (-1, - e, Z.neg m)%Z
  | S754_finite false m e => Some (1, e, Z.pos m)%Z
  end.

Definition lex3 (a b : Z * Z * Z) : comparison :=
  let '(a1, a2, a3) := a in
  let '(b1, b2, b3) := b in
  match (a1 ?= b1)%Z with
  | Eq => match (a2 ?= b2)%Z with Eq => (a3 ?= b3)%Z | c => c end
  | c => c
  end.

Definition key_lt (a b : Z * Z * Z) : Prop :=
  let '(a1, a2, a3) := a in
  let '(b1, b2, b3) := b in
  (a1 < b1 \/ (a1 = b1 /\ (a2 < b2 \/ (a2 = b2 /\ a3 < b3))))%Z.

Lemma lex3_Lt a b : lex3 a b = Lt <-> key_lt a b.
Proof.
  destruct a as [[a1 a2] a3], b as [[b1 b2] b3]; simpl.
  destruct (Z.compare_spec a1 b1) as [E1|E1|E1],
    (Z.compare_spec a2 b2) as [E2|E2|E2],
    (Z.compare_spec a3 b3) as [E3|E3|E3];
    split; intros H; try discriminate; try reflexivity; try lia.
Qed.

Lemma lex3_Eq a b : lex3 a b = Eq <-> a = b.
Proof.
  destruct a as [[a1 a2] a3], b as [[b1 b2] b3]; simpl.
  destruct (Z.compare_spec a1 b1) as [E1|E1|E1],
    (Z.compare_spec a2 b2) as [E2|E2|E2],
    (Z.compare_spec a3 b3) as [E3|E3|E3];
    split; intros H; try discriminate; try reflexivity;
    try (injection H; lia); subst; reflexivity.
Qed.

Lemma SFcompare_key a b :
  SFcompare a b =
  match key a, key b with
  | Some x, Some y => Some (lex3 x y)
  | _, _ => None
  end.
Proof.
  destruct a as [sa|sa| |sa ma ea], b as [sb|sb| |sb mb eb];
    try destruct sa; try destruct sb; simpl; try reflexivity.
  - rewrite Z.compare_opp.
    destruct (Z.compare_spec ea eb) as [E|E|E].
    + subst. rewrite Z.compare_refl. reflexivity.
    + apply Z.compare_gt_iff in E. rewrite E. reflexivity.
    + apply Z.compare_lt_iff in E. rewrite E. reflexivity.
Qed.

Definition fkey (x : float) : option (Z * Z * Z) := key (Prim2SF x).

Lemma ltb_true x y :
  (x <? y) = true <->
  exists a b, fkey x = Some a /\ fkey y = Some b /\ key_lt a b.
Proof.
  rewrite ltb_cmp. unfold cmp, fkey. rewrite SFcompare_key.
  destruct (key (Prim2SF x)) as [a|], (key (Prim2SF y)) as [b|];
    split; intros H; try discriminate;
    try (destruct H as (a' & b' & H1 & H2 & H3); discriminate).
  - exists a, b. repeat split. apply lex3_Lt. congruence.
  - destruct H as (a' & b' & H1 & H2 & H3).
    injection H1 as <-. injection H2 as <-.
    f_equal. apply lex3_Lt. assumption.
Qed.

Lemma leb_true x y :
  (x <=? y) = true <->
  exists a b, fkey x = Some a /\ fkey y = Some b /\ (key_lt a b \/ a = b).
Proof.
  rewrite leb_cmp. unfold cmp, fkey. rewrite SFcompare_key.
  destruct (key (Prim2SF x)) as [a|], (key (Prim2SF y)) as [b|];
    split; intros H;
    try (destruct H as [H|H]; discriminate);
    try (destruct H as (a' & b' & H1 & H2 & H3); discriminate).
  - exists a, b. repeat split.
    destruct H as [H|H]; injection H as H.
    + left. apply lex3_Lt. assumption.
    + right. apply lex3_Eq. assumption.
  - destruct H as (a' & b' & H1 & H2 & [H3|H3]).
    + injection H1 as <-. injection H2 as <-.
      left. f_equal. apply lex3_Lt. assumption.
    + injection H1 as <-. injection H2 as <-.
      right. f_equal. apply lex3_Eq. assumption.
Qed.

Lemma is_nan_false x : is_nan x = false <-> exists a, fkey x = Some a.
Proof.
  unfold is_nan. rewrite negb_false_iff, FloatAxioms.eqb_spec.
  unfold SFeqb, fkey. rewrite SFcompare_key.
  destruct (key (Prim2SF x)) as [a|]; split; intros H; try discriminate.
  - eauto.
  - replace (lex3 a a) with Eq by (symmetry; apply lex3_Eq; reflexivity).
    reflexivity.
  - destruct H; discriminate.
Qed.

Lemma key_lt_trans a b c : key_lt a b -> key_lt b c -> key_lt a c.
Proof.
  destruct a as [[a1 a2] a3], b as [[b1 b2] b3], c as [[c1 c2] c3];
    simpl; lia.
Qed.

Lemma key_lt_irrefl a : ~ key_lt a a.
Proof. destruct a as [[a1 a2] a3]; simpl; lia. Qed.

Lemma key_total a b : key_lt a b \/ a = b \/ key_lt b a.
Proof.
  destruct a as [[a1 a2] a3], b as [[b1 b2] b3]; simpl.
  destruct (Z.compare_spec a1 b1) as [E1|E1|E1],
    (Z.compare_spec a2 b2) as [E2|E2|E2],
    (Z.compare_spec a3 b3) as [E3|E3|E3]; subst; auto; lia.
Qed.

Lemma lt_trans x y z : lt x y -> lt y z -> lt x z.
Proof.
  unfold lt. rewrite !ltb_true.
  intros (a & b & Ha & Hb & Hab) (b' & c & Hb' & Hc & Hbc).
  rewrite Hb in Hb'. injection Hb' as <-.
  exists a, c. repeat split; auto. eapply key_lt_trans; eauto.
Qed.

Lemma le_lt_trans x y z : le x y -> lt y z -> lt x z.
Proof.
  unfold lt, le. rewrite leb_true, !ltb_true.
  intros (a & b & Ha & Hb & Hab) (b' & c & Hb' & Hc & Hbc).
  rewrite Hb in Hb'. injection Hb' as <-.
  exists a, c. repeat split; auto.
  destruct Hab as [Hab | ->]; auto. eapply key_lt_trans; eauto.
Qed.

Lemma lt_le_trans x y z : lt x y -> le y z -> lt x z.
Proof.
  unfold lt, le. rewrite leb_true, !ltb_true.
  intros (a & b & Ha & Hb & Hab) (b' & c & Hb' & Hc & Hbc).
  rewrite Hb in Hb'. injection Hb' as <-.
  exists a, c. repeat split; auto.
  destruct Hbc as [Hbc | <-]; auto. eapply key_lt_trans; eauto.
Qed.

Lemma lt_irrefl x : ~ lt x x.
Proof.
  unfold lt. rewrite ltb_true. intros (a & b & Ha & Hb & Hab).
  rewrite Ha in Hb. injection Hb as <-. eapply key_lt_irrefl; eauto.
Qed.

Lemma lt_le x y : lt x y -> le x y.
Proof.
  unfold lt, le. rewrite leb_true, ltb_true.
  intros (a & b & Ha & Hb & Hab). exists a, b. auto.
Qed.

(** Two numbers that are not NaN are comparable. *)
Lemma not_lt_le x y :
  is_nan x = false -> is_nan y = false -> (x <? y) = false -> le y x.
Proof.
  rewrite !is_nan_false. intros (a & Ha) (b & Hb) H.
  unfold le. rewrite leb_true. exists b, a. repeat split; auto.
  destruct (key_total a b) as [L | [E | G]]; auto.
  assert (T : (x <? y) = true) by (apply ltb_true; eauto).
  congruence.
Qed.

Lemma lt_not_nan_l x y : lt x y -> is_nan x = false.
Proof.
  unfold lt. rewrite ltb_true, is_nan_false.
  intros (a & b & Ha & _). eauto.
Qed.

Lemma lt_not_nan_r x y : lt x y -> is_nan y = false.
Proof.
  unfold lt. rewrite ltb_true, is_nan_false.
  intros (a & b & _ & Hb & _). eauto.
Qed.

Lemma le_not_nan_l x y : le x y -> is_nan x = false.
Proof.
  unfold le. rewrite leb_true, is_nan_false.
  intros (a & b & Ha & _). eauto.
Qed.

Lemma le_not_nan_r x y : le x y -> is_nan y = false.
Proof.
  unfold le. rewrite leb_true, is_nan_false.
  intros (a & b & _ & Hb & _). eauto.
Qed.

Lemma le_not_lt x y : le x y -> (y <? x) = false.
Proof.
  intros H. destruct (y <? x) eqn:E; auto.
  exfalso. apply (@lt_irrefl x). eapply le_lt_trans; eauto.
Qed.

End NumFacts.

(** Finite numbers, and the extremes of two numbers. *)
Module NumBounds.

Import Num NumFacts.
Local Open Scope float_scope.

Lemma Prim2SF_infinity : Prim2SF infinity = S754_infinity false.
Proof. reflexivity. Qed.

Lemma is_finite_key x :
  is_finite x = true <->
  exists c e m, fkey x = Some (c, e, m) /\ (-1 <= c <= 1)%Z.
Proof.
  unfold is_finite, is_nan, is_infinity.
  rewrite !FloatAxioms.eqb_spec, abs_spec, Prim2SF_infinity. unfold fkey.
  destruct (Prim2SF x) as [s|s| |s m e]; try destruct s; unfold SFeqb; simpl;
    rewrite ?Z.compare_refl, ?Pos.compare_cont_refl; simpl;
    (split;
     [ try discriminate; intros _; eexists _, _, _; (split; [reflexivity|lia])
     | try reflexivity; intros (c & e' & m' & H & Hc); inversion H; subst;
       lia ]).
Qed.

(** A number between two finite numbers is finite. *)
Lemma between_finite a x b :
  is_finite a = true -> is_finite b = true ->
  le a x -> le x b -> is_finite x = true.
Proof.
  rewrite !is_finite_key. unfold le. rewrite !leb_true.
  intros (ca & ea & ma & Ka & Ha) (cb & eb & mb & Kb & Hb)
         (ka & kx & Ka' & Kx & L1) (kx' & kb & Kx' & Kb' & L2).
  rewrite Ka in Ka'. injection Ka' as <-.
  rewrite Kb in Kb'. injection Kb' as <-.
  rewrite Kx in Kx'. injection Kx' as <-.
  destruct kx as [[cx ex] mx]. exists cx, ex, mx. split; [assumption|].
  simpl in L1, L2.
  destruct L1 as [L1 | L1]; [|injection L1 as -> -> ->];
  destruct L2 as [L2 | L2]; try (injection L2 as -> -> ->); lia.
Qed.

(** A bound strictly below the minimum is strictly below both numbers. *)
Lemma Math_min_above c x y :
  lt c (Math_min x y) -> lt c x /\ lt c y.
Proof.
  unfold Math_min.
  destruct (is_nan x) eqn:Nx;
    [intros H; apply lt_not_nan_r in H; vm_compute in H; discriminate|].
  destruct (is_nan y) eqn:Ny;
    [intros H; apply lt_not_nan_r in H; vm_compute in H; discriminate|].
  simpl.
  destruct (x <? y) eqn:Exy.
  { intros H. split; [assumption|]. exact (lt_trans H Exy). }
  destruct (y <? x) eqn:Eyx.
  { intros H. split; [|assumption]. exact (lt_trans H Eyx). }
  pose proof (not_lt_le Nx Ny Exy) as Lyx.
  pose proof (not_lt_le Ny Nx Eyx) as Lxy.
  destruct (get_sign x); intros H; split; try assumption.
  - exact (lt_le_trans H Lxy).
  - exact (lt_le_trans H Lyx).
Qed.

(** A bound strictly above the maximum is strictly above both numbers. *)
Lemma Math_max_below c x y :
  lt (Math_max x y) c -> lt x c /\ lt y c.
Proof.
  unfold Math_max.
  destruct (is_nan x) eqn:Nx;
    [intros H; apply lt_not_nan_l in H; vm_compute in H; discriminate|].
  destruct (is_nan y) eqn:Ny;
    [intros H; apply lt_not_nan_l in H; vm_compute in H; discriminate|].
  simpl.
  destruct (x <? y) eqn:Exy.
  { intros H. split; [|assumption]. exact (lt_trans Exy H). }
  destruct (y <? x) eqn:Eyx.
  { intros H. split; [assumption|]. exact (lt_trans Eyx H). }
  pose proof (not_lt_le Nx Ny Exy) as Lyx.
  pose proof (not_lt_le Ny Nx Eyx) as Lxy.
  destruct (get_sign x); intros H; split; try assumption.
  - exact (le_lt_trans Lxy H).
  - exact (le_lt_trans Lyx H).
Qed.

End NumBounds.

(** ** The matcher against a declarative reading of the patterns *)

Module RegexFacts.

(** [Matches r b w a c c']: with [b] behind, [r] can consume [w] and leave
    [a], taking the captures from [c] to [c']. *)
Inductive Matches
  : regex -> jstring -> jstring -> jstring -> caps -> caps -> Prop :=
| MEps b a c : Matches Eps b [] a c c
| MCls (p : N -> bool) x b a c :
    p x = true -> Matches (Cls p) b [x] a c c
| MCat r1 r2 b w1 w2 a c c1 c2 :
    Matches r1 b w1 (w2 ++ a) c c1 ->
    Matches r2 (rev w1 ++ b) w2 a c1 c2 ->
    Matches (Cat r1 r2) b (w1 ++ w2) a c c2
| MAltL r1 r2 b w a c c' :
    Matches r1 b w a c c' -> Matches (Alt r1 r2) b w a c c'
| MAltR r1 r2 b w a c c' :
    Matches r2 b w a c c' -> Matches (Alt r1 r2) b w a c c'
| MStar0 r b a c : Matches (Star r) b [] a c c
| MStarS r b w1 w2 a c c1 c2 :
    w1 <> [] ->
    Matches r b w1 (w2 ++ a) c c1 ->
    Matches (Star r) (rev w1 ++ b) w2 a c1 c2 ->
    Matches (Star r) b (w1 ++ w2) a c c2
| MCap n r b w a c c' :
    Matches r b w a c c' -> Matches (Cap n r) b w a c ((n, w) :: c')
| MBnd b a c : isBoundary (mkPos b a) = true -> Matches Bnd b [] a c c
| MBol a c : Matches Bol [] [] a c c
| MEol b c : Matches Eol b [] [] c c.

#[local] Hint Constructors Matches : core.

Section Facts.

Variable R : Type.

Implicit Types (k : cont R) (z : pos) (c : caps).

(** The matcher only looks at what its continuation returns. *)
Lemma starLoop_ext (body : pos -> caps -> cont R -> option R) :
  (forall z c k1 k2,
      (forall z' c', k1 z' c' = k2 z' c') -> body z c k1 = body z c k2) ->
  forall fuel z c k1 k2,
    (forall z' c', k1 z' c' = k2 z' c') ->
    starLoop body fuel z c k1 = starLoop body fuel z c k2.
Proof.
  intros Hbody fuel. induction fuel as [|fuel IH]; intros z c k1 k2 Hk; simpl.
  - apply Hk.
  - rewrite Hk.
    erewrite Hbody; [reflexivity|].
    intros z' c'. simpl.
    destruct (Nat.ltb _ _); [apply IH; assumption | reflexivity].
Qed.

Lemma run_ext r :
  forall z c k1 k2,
    (forall z' c', k1 z' c' = k2 z' c') -> run r z c k1 = run r z c k2.
Proof.
  induction r as [ |p|r1 IH1 r2 IH2|r1 IH1 r2 IH2|r1 IH1|n r1 IH1| | | ];
    intros z c k1 k2 Hk; simpl.
  - apply Hk.
  - destruct (ahead z) as [|x t]; [reflexivity|].
    destruct (p x); [apply Hk | reflexivity].
  - apply IH1. intros z' c'. apply IH2. assumption.
  - rewrite (IH1 z c k1 k2 Hk), (IH2 z c k1 k2 Hk). reflexivity.
  - apply starLoop_ext; assumption.
  - apply IH1. intros z' c'. apply Hk.
  - rewrite Hk. reflexivity.
  - rewrite Hk. reflexivity.
  - rewrite Hk. reflexivity.
Qed.

(** Soundness: a result comes from a match followed by the continuation. *)
Definition sound_at (body : pos -> caps -> cont R -> option R) (r : regex)
  : Prop :=
  forall b s c k res,
    body (mkPos b s) c k = Some res ->
    exists w a c',
      s = w ++ a /\ Matches r b w a c c'
      /\ k (mkPos (rev w ++ b) a) c' = Some res.

Lemma starLoop_sound r :
  sound_at (run r) r ->
  forall fuel b s c k res,
    starLoop (run r) fuel (mkPos b s) c k = Some res ->
    exists w a c',
      s = w ++ a /\ Matches (Star r) b w a c c'
      /\ k (mkPos (rev w ++ b) a) c' = Some res.
Proof.
  intros Hr fuel. induction fuel as [|fuel IH]; intros b s c k res H;
    simpl in H.
  - exists [], s, c. auto.
  - destruct (run r (mkPos b s) c _) as [res'|] eqn:E.
    + injection H as <-.
      apply Hr in E. destruct E as (w1 & a1 & c1 & Hs & Hm & Hk).
      simpl in Hk.
      destruct (Nat.ltb (length a1) (length s)) eqn:Hlt; [|discriminate].
      apply IH in Hk. destruct Hk as (w2 & a & c2 & Ha1 & Hm2 & Hk).
      exists (w1 ++ w2), a, c2. subst a1. repeat split.
      * subst s. rewrite app_assoc. reflexivity.
      * eapply MStarS; eauto.
        intros ->. subst s. simpl in Hlt.
        rewrite Nat.ltb_irrefl in Hlt. discriminate.
      * rewrite rev_app_distr, <- app_assoc. assumption.
    + exists [], s, c. auto.
Qed.

Lemma run_sound r : sound_at (run r) r.
Proof.
  induction r as [ |p|r1 IH1 r2 IH2|r1 IH1 r2 IH2|r1 IH1|n r1 IH1| | | ];
    intros b s c k res H; simpl in H.
  - exists [], s, c. auto.
  - destruct s as [|x t]; [discriminate|].
    destruct (p x) eqn:Hp; [|discriminate].
    exists [x], t, c. auto.
  - apply IH1 in H. destruct H as (w1 & a1 & c1 & Hs & Hm1 & H).
    apply IH2 in H. destruct H as (w2 & a & c2 & Ha1 & Hm2 & H).
    exists (w1 ++ w2), a, c2. subst a1. repeat split.
    + subst s. rewrite app_assoc. reflexivity.
    + eauto.
    + rewrite rev_app_distr, <- app_assoc. assumption.
  - destruct (run r1 (mkPos b s) c k) as [res'|] eqn:E.
    + injection H as <-. apply IH1 in E.
      destruct E as (w & a & c' & Hs & Hm & Hk). eauto 8.
    + apply IH2 in H. destruct H as (w & a & c' & Hs & Hm & Hk). eauto 8.
  - eapply starLoop_sound; eauto.
  - apply IH1 in H. destruct H as (w & a & c' & Hs & Hm & Hk).
    simpl in Hk. subst s.
    rewrite length_app, Nat.add_sub, firstn_app, Nat.sub_diag in Hk.
    rewrite firstn_all in Hk. simpl in Hk. rewrite app_nil_r in Hk.
    exists w, a, ((n, w) :: c'). auto.
  - destruct (isBoundary (mkPos b s)) eqn:E; [|discriminate].
    exists [], s, c. auto.
  - simpl in H. destruct b; [|discriminate].
    exists [], s, c. auto.
  - simpl in H. destruct s; [|discriminate].
    exists [], [], c. auto.
Qed.

(** A continuation that always fails makes the matcher fail. *)
Lemma run_no_result r z c k :
  (forall z' c', k z' c' = None) -> run r z c k = None.
Proof.
  intros Hk. destruct (run r z c k) as [res|] eqn:E; [|reflexivity].
  destruct z as [b s]. apply run_sound in E.
  destruct E as (w & a & c' & _ & _ & E). rewrite Hk in E. discriminate.
Qed.

(** More fuel than code units ahead changes nothing. *)
Lemma starLoop_fuel r :
  forall f1 f2 z c k,
    length (ahead z) <= f1 -> length (ahead z) <= f2 ->
    starLoop (run r) f1 z c k = starLoop (run r) f2 z c k.
Proof.
  induction f1 as [|f1 IH]; intros f2 z c k H1 H2.
  - destruct f2 as [|f2]; [reflexivity|]. simpl.
    rewrite run_no_result; [reflexivity|].
    intros z' c'. replace (length (ahead z)) with 0 by lia. reflexivity.
  - destruct f2 as [|f2]; simpl.
    + rewrite run_no_result; [reflexivity|].
      intros z' c'. replace (length (ahead z)) with 0 by lia. reflexivity.
    + erewrite run_ext; [reflexivity|].
      intros z' c'. simpl.
      destruct (Nat.ltb (length (ahead z')) (length (ahead z))) eqn:E;
        [|reflexivity].
      apply Nat.ltb_lt in E. apply IH; lia.
Qed.

(** Completeness: when some match lets the continuation succeed, the
    matcher succeeds. *)
Lemma starLoop_base (body : pos -> caps -> cont R -> option R) fuel z c k :
  k z c <> None -> starLoop body fuel z c k <> None.
Proof.
  intros Hk. destruct fuel as [|fuel]; simpl; [assumption|].
  destruct (body z c _); [discriminate | assumption].
Qed.

Lemma run_complete r b w a c c' :
  Matches r b w a c c' ->
  forall k,
    k (mkPos (rev w ++ b) a) c' <> None ->
    run r (mkPos b (w ++ a)) c k <> None.
Proof.
  induction 1 as
    [b a c|p x b a c Hp|r1 r2 b w1 w2 a c c1 c2 _ IH1 _ IH2
    |r1 r2 b w a c c' _ IH|r1 r2 b w a c c' _ IH|r b a c
    |r b w1 w2 a c c1 c2 Hne _ IH1 _ IH2|n r b w a c c' _ IH
    |b a c Hb|a c|b c];
    intros k Hk; simpl in *.
  - assumption.
  - rewrite Hp. assumption.
  - rewrite <- app_assoc. apply IH1. apply IH2.
    rewrite rev_app_distr, <- app_assoc in Hk. assumption.
  - specialize (IH k Hk). destruct (run r1 _ c k); [discriminate|].
    contradiction.
  - destruct (run r1 _ c k); [discriminate|]. apply IH. assumption.
  - apply starLoop_base. assumption.
  - destruct w1 as [|x w1]; [contradiction|]. simpl.
    match goal with
    | |- match ?m with _ => _ end <> None =>
        assert (Hm : m <> None); [|destruct m; [discriminate | contradiction]]
    end.
    rewrite <- app_assoc. apply (IH1 _). simpl.
    replace (Nat.ltb (length (w2 ++ a)) (S (length (w1 ++ w2 ++ a))))
      with true
      by (symmetry; apply Nat.ltb_lt; rewrite !length_app; lia).
    rewrite (@starLoop_fuel r _ (length (w2 ++ a)));
      [ | simpl; rewrite !length_app; lia | simpl; lia ].
    apply (IH2 k). simpl.
    rewrite rev_app_distr, <- app_assoc in Hk. simpl in Hk.
    assumption.
  - apply IH. simpl.
    rewrite length_app, Nat.add_sub, firstn_app, Nat.sub_diag, firstn_all.
    simpl. rewrite app_nil_r. assumption.
  - rewrite Hb. assumption.
  - assumption.
  - assumption.
Qed.

End Facts.

(** What a successful search tells: a match at some position of the
    subject. *)
Lemma matchAt_sound r b s f :
  matchAt r (mkPos b s) = Some f ->
  exists w a c,
    s = w ++ a /\ Matches r b w a [] c
    /\ f = mkFound (mkPos b s) (mkPos (rev w ++ b) a) c.
Proof.
  unfold matchAt. intros H. apply run_sound in H.
  destruct H as (w & a & c & Hs & Hm & Hk). injection Hk as <-.
  exists w, a, c. auto.
Qed.

Lemma searchFrom_sound r : forall a b f,
  searchFrom r b a = Some f ->
  exists b' w a' c,
    Matches r b' w a' [] c /\ m_caps f = c.
Proof.
  induction a as [|x t IH]; intros b f H; simpl in H.
  - destruct (matchAt r (mkPos b [])) as [f'|] eqn:E; [|discriminate].
    injection H as <-. apply matchAt_sound in E.
    destruct E as (w & a & c & _ & Hm & ->). exists b, w, a, c. auto.
  - destruct (matchAt r (mkPos b (x :: t))) as [f'|] eqn:E.
    + injection H as <-. apply matchAt_sound in E.
      destruct E as (w & a & c & _ & Hm & ->). exists b, w, a, c. auto.
    + eapply IH; eauto.
Qed.

(** A whole-subject match from the first position makes [test] succeed. *)
Lemma test_complete r s c :
  Matches r [] s [] [] c -> test r s = true.
Proof.
  intros Hm. unfold test, search.
  assert (H : matchAt r (mkPos [] s) <> None).
  { unfold matchAt.
    pose proof (@run_complete found r [] s [] [] c Hm
                  (fun z' c0 => Some (mkFound (mkPos [] s) z' c0))) as H.
    rewrite !app_nil_r in H. apply H. discriminate. }
  destruct s as [|x t]; simpl;
    destruct (matchAt r _); try reflexivity; contradiction.
Qed.

End RegexFacts.

(** ** The label classifier *)

Module StrFacts.

Lemma eqb_eq (a b : jstring) : Str.eqb a b = true <-> a = b.
Proof.
  revert b. induction a as [|x a IH]; intros [|y b]; simpl;
    try (split; [discriminate | discriminate]); try tauto.
  rewrite andb_true_iff, N.eqb_eq, IH. split.
  - intros [-> ->]. reflexivity.
  - intros H. injection H as -> ->. auto.
Qed.

Lemma eqb_refl (a : jstring) : Str.eqb a a = true.
Proof. apply eqb_eq. reflexivity. Qed.

Lemma eqb_neq (a b : jstring) : Str.eqb a b = false <-> a <> b.
Proof.
  rewrite <- eqb_eq. destruct (Str.eqb a b); split; congruence.
Qed.

Lemma nonEmpty_false (s : jstring) : nonEmpty s = false <-> s = [].
Proof. destruct s; simpl; split; congruence. Qed.

Lemma nonEmpty_true (s : jstring) : nonEmpty s = true <-> s <> [].
Proof. destruct s; simpl; split; congruence. Qed.

(** [trim] leaves alone a string that neither starts nor ends with white
    space. *)
Lemma trimStart_id x s :
  isWhiteSpace x = false -> trimStart (x :: s) = x :: s.
Proof. intros H. simpl. rewrite H. reflexivity. Qed.

Lemma trim_id x s y :
  isWhiteSpace x = false -> isWhiteSpace y = false ->
  trim (x :: s ++ [y]) = x :: s ++ [y].
Proof.
  intros Hx Hy. unfold trim, trimEnd. rewrite trimStart_id by assumption.
  assert (E : rev (x :: s ++ [y]) = y :: rev s ++ [x]).
  { simpl. rewrite rev_app_distr. reflexivity. }
  rewrite E, trimStart_id by assumption.
  rewrite <- E. apply rev_involutive.
Qed.

Lemma trim_single x : isWhiteSpace x = false -> trim [x] = [x].
Proof.
  intros Hx. unfold trim, trimEnd. rewrite trimStart_id by assumption.
  simpl. rewrite Hx. reflexivity.
Qed.

End StrFacts.

Module ClassifierFacts.

Import RegexFacts StrFacts.

Local Open Scope N_scope.

(** One of [A], [a], [M], [m]. *)
Definition isRoadLetter (c : N) : bool :=
  N.eqb (upperAscii c) 65 || N.eqb (upperAscii c) 77.

(** One to three digits. *)
Definition digits13 (ds : jstring) : Prop :=
  forallb isDigit ds = true /\ (1 <= length ds <= 3)%nat.

(** [[AM]?\d{1,3}] *)
Definition roadTail (g : jstring) : Prop :=
  digits13 g
  \/ exists y ds, g = y :: ds /\ isRoadLetter y = true /\ digits13 ds.

(** [[AM]\d{1,3}] *)
Definition roadHead (g : jstring) : Prop :=
  exists x ds, g = x :: ds /\ isRoadLetter x = true /\ digits13 ds.

Ltac inv H := inversion H; subst; clear H.

Ltac invm :=
  repeat match goal with
    | H : Matches (Cat _ _) _ _ _ _ _ |- _ => inv H
    | H : Matches (Alt _ _) _ _ _ _ _ |- _ => inv H
    | H : Matches (Cls _) _ _ _ _ _ |- _ => inv H
    | H : Matches (Cap _ _) _ _ _ _ _ |- _ => inv H
    | H : Matches Eps _ _ _ _ _ |- _ => inv H
    | H : Matches Bnd _ _ _ _ _ |- _ => inv H
    | H : Matches Bol _ _ _ _ _ |- _ => inv H
    | H : Matches Eol _ _ _ _ _ |- _ => inv H
    end.

Lemma Rep13_digit_inv b w a c c' :
  Matches (Rep13 digit) b w a c c' -> digits13 w /\ c' = c.
Proof.
  unfold Rep13, Opt, digit. intros H. invm; unfold digits13; simpl;
    repeat match goal with H : isDigit _ = true |- _ => rewrite H; clear H end;
    split; auto; split; auto; lia.
Qed.

Lemma Rep13_digit_intro ds :
  digits13 ds -> forall b a c, Matches (Rep13 digit) b ds a c c.
Proof.
  intros [Hd Hl] b a c. unfold Rep13, Opt, digit.
  destruct ds as [|d1 [|d2 [|d3 [|d4 ds]]]]; simpl in Hl; try lia;
    simpl in Hd; repeat rewrite andb_true_iff in Hd.
  - change [d1] with ([d1] ++ []). apply MCat with (c1 := c).
    + apply MCls. tauto.
    + apply MAltR. apply MEps.
  - change [d1; d2] with ([d1] ++ ([d2] ++ [])). apply MCat with (c1 := c).
    + apply MCls. tauto.
    + apply MAltL. apply MCat with (c1 := c).
      * apply MCls. tauto.
      * apply MAltR. apply MEps.
  - change [d1; d2; d3] with ([d1] ++ ([d2] ++ [d3])).
    apply MCat with (c1 := c).
    + apply MCls. tauto.
    + apply MAltL. apply MCat with (c1 := c).
      * apply MCls. tauto.
      * apply MAltL. apply MCls. tauto.
Qed.

Lemma Star_space_inv b w a c c' :
  Matches (Star space) b w a c c' -> c' = c.
Proof.
  intros H. remember (Star space) as r eqn:Er. revert Er.
  induction H; intros Er; try discriminate; try reflexivity.
  injection Er as ->. unfold space in *. invm.
  apply IHMatches2. reflexivity.
Qed.

(** The captures of a match of the road-token pattern. *)
Lemma reRoadToken_caps b w a c :
  Matches reRoadToken b w a [] c ->
  exists g1,
    (c = [(1%nat, g1)]
     \/ exists g2, c = [(2%nat, g2); (1%nat, g1)] /\ roadTail g2)
    /\ roadHead g1.
Proof.
  unfold reRoadToken, Opt, roadLetterI, chr. cbn [Seq]. intros H.
  invm;
    repeat match goal with
      | H : Matches (Rep13 digit) _ _ _ _ _ |- _ =>
          apply Rep13_digit_inv in H; destruct H as [? ->]
      | H : Matches (Star space) _ _ _ _ _ |- _ =>
          apply Star_space_inv in H; subst
      end;
    (eexists; split;
     [ first
         [ left; reflexivity
         | right; eexists; split; [reflexivity|];
           first
             [ left; assumption
             | right; eexists _, _; split; [reflexivity|];
               split; assumption ] ]
     | eexists _, _; split; [reflexivity|]; split; assumption ]).
Qed.

Lemma digit_facts d :
  isDigit d = true ->
  isAscii d = true /\ upperAscii d = d /\ isWhiteSpace d = false
  /\ isRoadLetter d = false /\ (d =? 47) = false.
Proof.
  unfold isDigit. rewrite andb_true_iff, !N.leb_le. intros [H1 H2].
  assert (E : d = 48 \/ d = 49 \/ d = 50 \/ d = 51 \/ d = 52 \/ d = 53
              \/ d = 54 \/ d = 55 \/ d = 56 \/ d = 57) by lia.
  repeat destruct E as [E | E]; subst d; repeat split; reflexivity.
Qed.

Lemma roadLetter_facts x :
  isRoadLetter x = true ->
  isAscii x = true /\ (upperAscii x = 65 \/ upperAscii x = 77).
Proof.
  unfold isRoadLetter, isAscii, upperAscii, isLower.
  rewrite orb_true_iff, !N.eqb_eq.
  destruct (97 <=? x) eqn:E1; destruct (x <=? 122) eqn:E2; simpl;
    try apply N.leb_le in E1; try apply N.leb_le in E2;
    try apply N.leb_gt in E1; try apply N.leb_gt in E2;
    intros H; split; auto; apply N.ltb_lt; lia.
Qed.

Lemma digits_ascii ds :
  forallb isDigit ds = true -> forallb isAscii ds = true.
Proof.
  induction ds as [|d ds IH]; simpl; [reflexivity|].
  rewrite !andb_true_iff. intros [Hd Hds]. split; auto.
  apply digit_facts. assumption.
Qed.

Lemma digits_upper ds :
  forallb isDigit ds = true -> map upperAscii ds = ds.
Proof.
  induction ds as [|d ds IH]; simpl; [reflexivity|].
  rewrite andb_true_iff. intros [Hd Hds].
  rewrite IH by assumption. f_equal. apply digit_facts. assumption.
Qed.

(** The upper case of the two captures. *)
Definition upperRoadLetter (X : N) : Prop := X = 65 \/ X = 77.

Section WithEnv.

Context {env : Env}.

Lemma upper_roadHead g :
  roadHead g ->
  exists X ds, toUpperCase g = X :: ds /\ upperRoadLetter X /\ digits13 ds.
Proof.
  intros (x & ds & -> & Hx & Hd).
  apply roadLetter_facts in Hx. destruct Hx as [Ha HX].
  rewrite toUpperCase_ascii.
  - simpl. rewrite digits_upper by apply Hd. exists (upperAscii x), ds. auto.
  - simpl. rewrite Ha. apply digits_ascii. apply Hd.
Qed.

Lemma upper_roadTail g :
  roadTail g ->
  digits13 (toUpperCase g)
  \/ exists Y ds, toUpperCase g = Y :: ds /\ upperRoadLetter Y /\ digits13 ds.
Proof.
  intros [Hd | Hh].
  - left. rewrite toUpperCase_ascii by (apply digits_ascii; apply Hd).
    rewrite digits_upper by apply Hd. assumption.
  - right. apply upper_roadHead. assumption.
Qed.

End WithEnv.

(** The road-only pattern accepts what the road-token pattern captures. *)
Lemma MCat_eq r1 r2 b w w1 w2 a c c1 c2 :
  w = w1 ++ w2 ->
  Matches r1 b w1 (w2 ++ a) c c1 ->
  Matches r2 (rev w1 ++ b) w2 a c1 c2 ->
  Matches (Cat r1 r2) b w a c c2.
Proof. intros ->. apply MCat. Qed.

Lemma roadLetterI_intro X b a c :
  upperRoadLetter X -> Matches roadLetterI b [X] a c c.
Proof.
  intros [-> | ->]; apply MCls; reflexivity.
Qed.

Lemma reRoadOnly_head X ds :
  upperRoadLetter X -> digits13 ds ->
  Matches reRoadOnly [] (X :: ds) [] [] [].
Proof.
  intros HX Hd. unfold reRoadOnly. cbn [Seq].
  apply MCat_eq with (w1 := []) (w2 := X :: ds) (c1 := []); [reflexivity| |].
  { apply MBol. }
  apply MCat_eq with (w1 := [X]) (w2 := ds) (c1 := []); [reflexivity| |].
  { apply roadLetterI_intro. assumption. }
  apply MCat_eq with (w1 := ds) (w2 := []) (c1 := []);
    [symmetry; apply app_nil_r| |].
  { apply Rep13_digit_intro. assumption. }
  apply MCat_eq with (w1 := []) (w2 := []) (c1 := []); [reflexivity| |].
  { apply MAltR. apply MEps. }
  apply MEol.
Qed.

Lemma reRoadOnly_pair X ds g :
  upperRoadLetter X -> digits13 ds ->
  (digits13 g
   \/ exists Y ds2, g = Y :: ds2 /\ upperRoadLetter Y /\ digits13 ds2) ->
  Matches reRoadOnly [] (X :: ds ++ 47 :: g) [] [] [].
Proof.
  intros HX Hd Hg. unfold reRoadOnly. cbn [Seq].
  apply MCat_eq with (w1 := []) (w2 := X :: ds ++ 47 :: g) (c1 := []);
    [reflexivity| |].
  { apply MBol. }
  apply MCat_eq with (w1 := [X]) (w2 := ds ++ 47 :: g) (c1 := []);
    [reflexivity| |].
  { apply roadLetterI_intro. assumption. }
  apply MCat_eq with (w1 := ds) (w2 := 47 :: g) (c1 := []); [reflexivity| |].
  { apply Rep13_digit_intro. assumption. }
  apply MCat_eq with (w1 := 47 :: g) (w2 := []) (c1 := []);
    [symmetry; apply app_nil_r| |apply MEol].
  apply MAltL.
  apply MCat_eq with (w1 := []) (w2 := 47 :: g) (c1 := []); [reflexivity| |].
  { apply MStar0. }
  apply MCat_eq with (w1 := [47]) (w2 := g) (c1 := []); [reflexivity| |].
  { apply MCls. reflexivity. }
  apply MCat_eq with (w1 := []) (w2 := g) (c1 := []); [reflexivity| |].
  { apply MStar0. }
  destruct Hg as [Hg | (Y & ds2 & -> & HY & Hd2)].
  - apply MCat_eq with (w1 := []) (w2 := g) (c1 := []); [reflexivity| |].
    { apply MAltR. apply MEps. }
    apply Rep13_digit_intro. assumption.
  - apply MCat_eq with (w1 := [Y]) (w2 := ds2) (c1 := []); [reflexivity| |].
    { apply MAltL. apply roadLetterI_intro. assumption. }
    apply Rep13_digit_intro. assumption.
Qed.

(** A string that starts with a road letter and ends with a digit is its
    own [trim]. *)
Lemma last_digit ds :
  digits13 ds -> exists ds' d, ds = ds' ++ [d] /\ isDigit d = true.
Proof.
  intros [Hd Hl].
  destruct (exists_last (l := ds)) as (ds' & d & ->).
  { intros ->. simpl in Hl. lia. }
  exists ds', d. split; [reflexivity|].
  rewrite forallb_app in Hd. simpl in Hd.
  rewrite !andb_true_iff in Hd. tauto.
Qed.

Lemma upperRoadLetter_not_space X :
  upperRoadLetter X -> isWhiteSpace X = false.
Proof. intros [-> | ->]; reflexivity. Qed.

Lemma trim_token X body ds :
  upperRoadLetter X -> digits13 ds ->
  trim (X :: body ++ ds) = X :: body ++ ds.
Proof.
  intros HX Hd. destruct (last_digit Hd) as (ds' & d & -> & Hdig).
  rewrite app_assoc. apply trim_id.
  - apply upperRoadLetter_not_space. assumption.
  - apply digit_facts. assumption.
Qed.

End ClassifierFacts.

(** ** Stored objects *)

Module PropsFacts.

Import StrFacts.

Lemma eqb_sym (a b : jstring) : Str.eqb a b = Str.eqb b a.
Proof.
  destruct (Str.eqb a b) eqn:E1, (Str.eqb b a) eqn:E2; try reflexivity.
  - apply eqb_eq in E1. subst. rewrite eqb_refl in E2. discriminate.
  - apply eqb_eq in E2. subst. rewrite eqb_refl in E1. discriminate.
Qed.

Lemma getProp_setProp_same k v o : getProp k (setProp k v o) = Some v.
Proof.
  induction o as [|[k' v'] o IH]; simpl.
  - rewrite eqb_refl. reflexivity.
  - destruct (Str.eqb k' k) eqn:E; simpl.
    + rewrite eqb_refl. reflexivity.
    + rewrite E. assumption.
Qed.

Lemma getProp_setProp_other k k' v o :
  k' <> k -> getProp k' (setProp k v o) = getProp k' o.
Proof.
  intros Hne. induction o as [|[k0 v0] o IH]; simpl.
  - replace (Str.eqb k k') with false; [reflexivity|].
    symmetry. apply eqb_neq. congruence.
  - destruct (Str.eqb k0 k) eqn:E; simpl.
    + apply eqb_eq in E. subst k0.
      replace (Str.eqb k k') with false; [reflexivity|].
      symmetry. apply eqb_neq. congruence.
    + rewrite IH. reflexivity.
Qed.

Lemma getProp_delProp_same k o : getProp k (delProp k o) = None.
Proof.
  unfold delProp. induction o as [|[k' v'] o IH]; simpl; [reflexivity|].
  destruct (Str.eqb k' k) eqn:E; simpl; [assumption|].
  rewrite E. assumption.
Qed.

Lemma getProp_delProp_other k k' o :
  k' <> k -> getProp k' (delProp k o) = getProp k' o.
Proof.
  intros Hne. unfold delProp.
  induction o as [|[k0 v0] o IH]; simpl; [reflexivity|].
  destruct (Str.eqb k0 k) eqn:E; simpl.
  - apply eqb_eq in E. subst k0.
    replace (Str.eqb k k') with false; [assumption|].
    symmetry. apply eqb_neq. congruence.
  - rewrite IH. reflexivity.
Qed.

End PropsFacts.

(** ** The geocode cache *)

Module GeocodeFacts.

Import StrFacts PropsFacts NumFacts.

Local Open Scope float_scope.

Section WithEnv.

Context {env : Env}.

(** The candidates that survive the bounds filter. *)
Definition survivors (answer : option (list Feature)) : list Feature :=
  match answer with
  | Some feats => filter (fun f => inUkBounds (f_lat f) (f_lng f)) feats
  | None => []
  end.

(** The candidate [tryFetch] returns among the survivors. *)
Definition choose (hint : option Point) (candidates : list Feature)
  : option Feature :=
  match candidates with
  | [] => None
  | first :: _ =>
      match hintUsable hint with
      | Some h =>
          if MAX_HINT_DISTANCE_M <? snd (closest h first candidates)
          then None
          else Some (fst (closest h first candidates))
      | None => Some first
      end
  end.

Lemma tryFetch_eq hint q st :
  tryFetch hint q st =
  (Ok (choose hint (survivors (placeSearch (requests st) (normalizeQ q)))),
   addRequest (PlaceSearch (normalizeQ q)) st).
Proof.
  unfold tryFetch, bind, fetchPlaces, survivors, choose.
  destruct (placeSearch (requests st) (normalizeQ q)) as [[|f feats]|];
    try reflexivity.
  destruct (filter _ (f :: feats)) as [|first rest]; [reflexivity|].
  destruct (hintUsable hint) as [h|]; [|reflexivity].
  destruct (closest h first (first :: rest)) as [best bestD]. simpl.
  destruct (MAX_HINT_DISTANCE_M <? bestD); reflexivity.
Qed.

Lemma survivors_inUk answer f :
  In f (survivors answer) -> inUkBounds (f_lat f) (f_lng f) = true.
Proof.
  unfold survivors. destruct answer as [feats|]; [|contradiction].
  intros H. apply filter_In in H. tauto.
Qed.

(** The distance of a candidate from the hint, as the loop computes it. *)
Definition distanceTo (h : Point) (f : Feature) : float :=
  haversineMetersSimple h (featurePoint f).

(** The loop invariant: the best so far is the first candidate at
    distance infinity, or one of the candidates seen with its own distance;
    and no candidate seen is strictly closer. *)
Definition closestInv (h : Point) (first : Feature) (seen : list Feature)
  (acc : Feature * float) : Prop :=
  ((acc = (first, infinity))
   \/ (In (fst acc) seen /\ snd acc = distanceTo h (fst acc)))
  /\ forall c, In c seen -> (distanceTo h c <? snd acc) = false.

Lemma closer_inv h first seen acc f :
  closestInv h first seen acc ->
  closestInv h first (seen ++ [f]) (closer h acc f).
Proof.
  intros [Hacc Hmin]. unfold closer. fold (distanceTo h f).
  destruct (distanceTo h f <? snd acc) eqn:E; split; simpl.
  - right. split; [apply in_or_app; right; left; reflexivity | reflexivity].
  - intros c Hc. apply in_app_or in Hc. destruct Hc as [Hc | [<- | []]].
    + destruct (distanceTo h c <? distanceTo h f) eqn:E2; [|reflexivity].
      rewrite <- (Hmin c Hc). symmetry.
      exact (lt_trans E2 E).
    + destruct (distanceTo h f <? distanceTo h f) eqn:E2; [|reflexivity].
      exfalso. exact (lt_irrefl E2).
  - destruct Hacc as [-> | [Hin Hd]]; [left; reflexivity|].
    right. split; [apply in_or_app; left; assumption | assumption].
  - intros c Hc. apply in_app_or in Hc. destruct Hc as [Hc | [<- | []]].
    + apply Hmin. assumption.
    + assumption.
Qed.

Lemma closest_fold h first : forall cands seen acc,
  closestInv h first seen acc ->
  closestInv h first (seen ++ cands) (fold_left (closer h) cands acc).
Proof.
  induction cands as [|f cands IH]; intros seen acc Hinv; simpl.
  - rewrite app_nil_r. assumption.
  - replace (seen ++ f :: cands) with ((seen ++ [f]) ++ cands)
      by (rewrite <- app_assoc; reflexivity).
    apply IH. apply closer_inv. assumption.
Qed.

Lemma closest_inv h first cands :
  closestInv h first cands (closest h first cands).
Proof.
  unfold closest.
  apply (@closest_fold h first cands [] (first, infinity)).
  split; [left; reflexivity|]. intros c [].
Qed.

(** What [choose] returns is a candidate; with a usable hint it is within
    the hint distance and no candidate is strictly closer. *)
Lemma choose_In hint cands f : choose hint cands = Some f -> In f cands.
Proof.
  unfold choose. destruct cands as [|first rest]; [discriminate|].
  destruct (hintUsable hint) as [h|].
  - destruct (MAX_HINT_DISTANCE_M <? _) eqn:E; [discriminate|].
    intros H. injection H as <-.
    destruct (closest_inv h first (first :: rest)) as [[-> | [Hin _]] _].
    + left. reflexivity.
    + assumption.
  - intros H. injection H as <-. left. reflexivity.
Qed.

Lemma choose_nearest h cands f :
  choose (Some h) cands = Some f ->
  hintUsable (Some h) = Some h ->
  (MAX_HINT_DISTANCE_M <? distanceTo h f) = false
  /\ forall c, In c cands -> (distanceTo h c <? distanceTo h f) = false.
Proof.
  unfold choose. destruct cands as [|first rest]; [discriminate|].
  intros H Hh. rewrite Hh in H.
  destruct (MAX_HINT_DISTANCE_M <? _) eqn:E; [discriminate|].
  injection H as <-.
  destruct (closest_inv h first (first :: rest)) as [[Hinf | [Hin Hd]] Hmin].
  - rewrite Hinf in E. simpl in E. vm_compute in E. discriminate.
  - rewrite Hd in E, Hmin. split; assumption.
Qed.

(** No candidate within the hint distance: nothing is chosen. *)
Lemma choose_all_far h cands :
  hintUsable (Some h) = Some h ->
  (forall c, In c cands -> Num.lt MAX_HINT_DISTANCE_M (distanceTo h c)) ->
  choose (Some h) cands = None.
Proof.
  intros Hh Hfar. unfold choose.
  destruct cands as [|first rest]; [reflexivity|]. rewrite Hh.
  destruct (closest_inv h first (first :: rest)) as [[Hinf | [Hin Hd]] _].
  - rewrite Hinf. simpl. reflexivity.
  - rewrite Hd. rewrite (Hfar _ Hin). reflexivity.
Qed.

(** A candidate within the hint distance: one is chosen. *)
Lemma choose_some_near h cands c :
  hintUsable (Some h) = Some h ->
  In c cands -> Num.le (distanceTo h c) MAX_HINT_DISTANCE_M ->
  exists f, choose (Some h) cands = Some f.
Proof.
  intros Hh Hin Hnear. unfold choose.
  destruct cands as [|first rest]; [contradiction|]. rewrite Hh.
  destruct (MAX_HINT_DISTANCE_M <? _) eqn:E; [|eauto].
  exfalso.
  destruct (closest_inv h first (first :: rest)) as [_ Hmin].
  specialize (Hmin c Hin).
  assert (L : Num.lt (distanceTo h c) (snd (closest h first (first :: rest))))
    by exact (le_lt_trans Hnear E).
  unfold Num.lt in L. congruence.
Qed.

End WithEnv.

End GeocodeFacts.

(** ** [geocodePlace], step by step *)

Module LookupFacts.

Import StrFacts PropsFacts NumFacts GeocodeFacts.

Local Open Scope float_scope.

(** The part of the state that belongs to the drawing of a route. *)
Definition sameDrawing (st st' : St) : Prop :=
  routeLayer st' = routeLayer st /\ bounds st' = bounds st
  /\ prev st' = prev st /\ failedSegments st' = failedSegments st.

Lemma sameDrawing_refl st : sameDrawing st st.
Proof. repeat split. Qed.

Lemma sameDrawing_trans st1 st2 st3 :
  sameDrawing st1 st2 -> sameDrawing st2 st3 -> sameDrawing st1 st3.
Proof.
  unfold sameDrawing. intros (A & B & C & D) (A' & B' & C' & D').
  repeat split; congruence.
Qed.

Section WithEnv.

Context {env : Env}.

(** The two queries of a lookup, and the candidates each one brings. *)
Definition query1 (label : jstring) : jstring :=
  normalizeQ (label ++ js ", UK").
Definition query2 (label : jstring) : jstring := normalizeQ label.

Definition candidates1 (label : jstring) (st : St) : list Feature :=
  survivors (placeSearch (requests st) (query1 label)).

Definition candidates2 (label : jstring) (st : St) : list Feature :=
  survivors (placeSearch (requests st ++ [PlaceSearch (query1 label)])
                         (query2 label)).

(** The object built from the chosen candidate. *)
Definition placeOf (label : jstring) (f : Feature) : Point :=
  mkPoint (f_lat f) (f_lng f)
          (Some (orElse (f_name f) (orElse (f_label f) label))).

(** The state after a successful network lookup that took [n] queries. *)
Definition stored (k : jstring) (p : Point) (freshCache : props) (st : St)
  : St :=
  setGeocodeStore (Some (setProp k (jsonOfPoint p) freshCache)) st.

Definition asked1 (label : jstring) (st : St) : St :=
  addRequest (PlaceSearch (query1 label)) st.

Definition asked2 (label : jstring) (st : St) : St :=
  addRequest (PlaceSearch (query2 label)) (asked1 label st).

Lemma geocodeLookup_eq label hint k fc st :
  geocodeLookup label hint k fc st =
  match choose hint (candidates1 label st) with
  | Some f =>
      (Ok (placeOf label f), stored k (placeOf label f) fc (asked1 label st))
  | None =>
      match choose hint (candidates2 label st) with
      | Some f =>
          (Ok (placeOf label f),
           stored k (placeOf label f) fc (asked2 label st))
      | None => (Err (NoMatchFor label), asked2 label st)
      end
  end.
Proof.
  unfold geocodeLookup, bind. rewrite tryFetch_eq.
  fold (query1 label). fold (candidates1 label st). fold (asked1 label st).
  destruct (choose hint (candidates1 label st)) as [f|] eqn:E1.
  - unfold ret at 1. cbv beta iota.
    apply choose_In in E1. apply survivors_inUk in E1.
    cbn [lat lng]. rewrite E1. reflexivity.
  - rewrite tryFetch_eq.
    fold (query2 label). fold (asked2 label st).
    change (requests (asked1 label st))
      with (requests st ++ [PlaceSearch (query1 label)]).
    fold (candidates2 label st).
    destruct (choose hint (candidates2 label st)) as [f|] eqn:E2.
    + apply choose_In in E2. apply survivors_inUk in E2.
      cbn [lat lng]. rewrite E2. reflexivity.
    + reflexivity.
Qed.

(** The cache object the lookup works on, and the state after the version
    check. *)
Definition freshCacheOf (st : St) : props :=
  if versionOk (readJSON (geocodeStore st))
  then readJSON (geocodeStore st)
  else [(js "__v", JNum GEOCODE_CACHE_VERSION)].

Definition versionChecked (st : St) : St :=
  if versionOk (readJSON (geocodeStore st)) then st
  else setGeocodeStore None st.

(** The entry that serves a lookup from the cache, if there is one. *)
Definition cachedEntry (k : jstring) (freshCache : props) : option Json :=
  match getProp k freshCache with
  | Some c =>
      if truthy c && inUkBoundsV (field c "lat") (field c "lng")
      then Some c
      else None
  | None => None
  end.

(** The cache object and the state with which a lookup that missed goes to
    the network: a bad entry is purged first. *)
Definition missCache (k : jstring) (st : St) : props :=
  match getProp k (freshCacheOf st) with
  | Some c => if truthy c then delProp k (freshCacheOf st) else freshCacheOf st
  | None => freshCacheOf st
  end.

Definition missState (k : jstring) (st : St) : St :=
  match getProp k (freshCacheOf st) with
  | Some c =>
      if truthy c
      then setGeocodeStore (Some (delProp k (freshCacheOf st)))
                           (versionChecked st)
      else versionChecked st
  | None => versionChecked st
  end.

Definition keyOf (label : jstring) : jstring := toLowerCase (trim label).

Lemma geocodePlace_eq label hint st :
  geocodePlace label hint st =
  if negb (nonEmpty (keyOf label))
  then (Err MissingGeocodeLabel, versionChecked st)
  else
    match cachedEntry (keyOf label) (freshCacheOf st) with
    | Some c => (Ok (pointOfJson c), versionChecked st)
    | None =>
        geocodeLookup label hint (keyOf label)
                      (missCache (keyOf label) st)
                      (missState (keyOf label) st)
    end.
Proof.
  unfold geocodePlace, bind, readGeocodeCache, gets.
  fold (keyOf label).
  unfold cachedEntry, missCache, missState, freshCacheOf, versionChecked.
  destruct (versionOk (readJSON (geocodeStore st))) eqn:Ev;
    unfold ret at 1; unfold removeGeocodeCache, modify; cbv beta iota;
    (destruct (negb (nonEmpty (keyOf label))); [reflexivity|]);
    (destruct (getProp (keyOf label) _) as [c|]; [|reflexivity]);
    (destruct (truthy c); [|reflexivity]);
    (destruct (inUkBoundsV _ _); reflexivity).
Qed.

Lemma sameDrawing_versionChecked st : sameDrawing st (versionChecked st).
Proof.
  unfold versionChecked. destruct (versionOk _); repeat split.
Qed.

Lemma sameDrawing_missState k st : sameDrawing st (missState k st).
Proof.
  unfold missState, versionChecked.
  destruct (getProp k _) as [c|]; [destruct (truthy c)|];
    destruct (versionOk _); repeat split.
Qed.

Lemma requests_versionChecked st : requests (versionChecked st) = requests st.
Proof. unfold versionChecked. destruct (versionOk _); reflexivity. Qed.

Lemma requests_missState k st : requests (missState k st) = requests st.
Proof.
  unfold missState, versionChecked.
  destruct (getProp k _) as [c|]; [destruct (truthy c)|];
    destruct (versionOk _); reflexivity.
Qed.

(** A lookup leaves the drawing alone, and issues at most two requests. *)
Lemma geocodeLookup_frame label hint k fc st res st' :
  geocodeLookup label hint k fc st = (res, st') ->
  sameDrawing st st'
  /\ osrmStore st' = osrmStore st
  /\ (requests st' = requests st ++ [PlaceSearch (query1 label)]
      \/ requests st' = requests st ++ [PlaceSearch (query1 label);
                                        PlaceSearch (query2 label)]).
Proof.
  rewrite geocodeLookup_eq.
  destruct (choose hint (candidates1 label st));
    [|destruct (choose hint (candidates2 label st))];
    intros H; injection H as <- <-; unfold stored, asked2, asked1; simpl;
    (split; [repeat split|]); (split; [reflexivity|]);
    rewrite <- ?app_assoc; auto.
Qed.

Lemma geocodePlace_frame label hint st res st' :
  geocodePlace label hint st = (res, st') ->
  sameDrawing st st'
  /\ osrmStore st' = osrmStore st
  /\ exists asked,
      requests st' = requests st ++ asked /\ length asked <= 2.
Proof.
  rewrite geocodePlace_eq.
  destruct (negb (nonEmpty (keyOf label))).
  { intros H. injection H as <- <-. split; [apply sameDrawing_versionChecked|].
    split; [unfold versionChecked; destruct (versionOk _); reflexivity|].
    exists []. rewrite app_nil_r, requests_versionChecked. auto. }
  destruct (cachedEntry _ _).
  { intros H. injection H as <- <-. split; [apply sameDrawing_versionChecked|].
    split; [unfold versionChecked; destruct (versionOk _); reflexivity|].
    exists []. rewrite app_nil_r, requests_versionChecked. auto. }
  intros H. apply geocodeLookup_frame in H. destruct H as (Hd & Ho & Hr).
  split;
    [eapply sameDrawing_trans; [apply sameDrawing_missState | eassumption]|].
  split.
  { rewrite Ho. unfold missState, versionChecked.
    destruct (getProp _ _) as [c|]; [destruct (truthy c)|];
      destruct (versionOk _); reflexivity. }
  rewrite requests_missState in Hr.
  destruct Hr as [Hr | Hr]; rewrite Hr; eexists; split;
    try reflexivity; simpl; lia.
Qed.

(** What a lookup returns is inside the bounds. *)
Lemma pointOfJson_inUk c :
  inUkBoundsV (field c "lat") (field c "lng") = true ->
  inUkBounds (lat (pointOfJson c)) (lng (pointOfJson c)) = true.
Proof.
  unfold inUkBoundsV, pointOfJson. simpl.
  destruct (field c "lat") as [[ | |x| | | ]|]; try discriminate.
  destruct (field c "lng") as [[ | |y| | | ]|]; try discriminate.
  auto.
Qed.

Lemma cachedEntry_inUk k fc c :
  cachedEntry k fc = Some c ->
  inUkBoundsV (field c "lat") (field c "lng") = true.
Proof.
  unfold cachedEntry. destruct (getProp k fc) as [c'|]; [|discriminate].
  destruct (truthy c'); simpl; [|discriminate].
  destruct (inUkBoundsV _ _) eqn:E; [|discriminate].
  intros H. injection H as <-. assumption.
Qed.

Lemma geocodeLookup_inUk label hint k fc st p st' :
  geocodeLookup label hint k fc st = (Ok p, st') ->
  inUkBounds (lat p) (lng p) = true.
Proof.
  rewrite geocodeLookup_eq.
  destruct (choose hint (candidates1 label st)) as [f|] eqn:E1.
  - intros H. injection H as <- _.
    apply choose_In in E1. apply survivors_inUk in E1. assumption.
  - destruct (choose hint (candidates2 label st)) as [f|] eqn:E2;
      [|discriminate].
    intros H. injection H as <- _.
    apply choose_In in E2. apply survivors_inUk in E2. assumption.
Qed.

Lemma geocodePlace_inUk label hint st p st' :
  geocodePlace label hint st = (Ok p, st') ->
  inUkBounds (lat p) (lng p) = true.
Proof.
  rewrite geocodePlace_eq.
  destruct (negb (nonEmpty (keyOf label))); [discriminate|].
  destruct (cachedEntry _ _) as [c|] eqn:E.
  - intros H. injection H as <- _. apply pointOfJson_inUk.
    eapply cachedEntry_inUk. eassumption.
  - apply geocodeLookup_inUk.
Qed.

End WithEnv.

End LookupFacts.

(** ** The cache object of a lookup *)

Module CacheFacts.

Import StrFacts PropsFacts NumFacts GeocodeFacts LookupFacts.

Local Open Scope float_scope.

Section WithEnv.

Context {env : Env}.

(** [{ __v: GEOCODE_CACHE_VERSION }] *)
Definition emptyCache : props := [(js "__v", JNum GEOCODE_CACHE_VERSION)].

Lemma cachedEntry_emptyCache k : cachedEntry k emptyCache = None.
Proof.
  unfold cachedEntry, emptyCache, getProp.
  destruct (Str.eqb (js "__v") k); [|reflexivity].
  cbn [field inUkBoundsV]. rewrite andb_false_r. reflexivity.
Qed.

Lemma freshCacheOf_versionChecked st :
  freshCacheOf (versionChecked st) = freshCacheOf st.
Proof.
  unfold versionChecked.
  destruct (versionOk (readJSON (geocodeStore st))) eqn:E; [reflexivity|].
  unfold freshCacheOf. rewrite E. reflexivity.
Qed.

Lemma freshCacheOf_current st :
  versionOk (readJSON (geocodeStore st)) = true ->
  freshCacheOf st = readJSON (geocodeStore st).
Proof. intros H. unfold freshCacheOf. rewrite H. reflexivity. Qed.

Lemma freshCacheOf_stale st :
  versionOk (readJSON (geocodeStore st)) = false ->
  freshCacheOf st = emptyCache.
Proof. intros H. unfold freshCacheOf. rewrite H. reflexivity. Qed.

(** A lookup that misses leaves no usable entry under its key on its way
    to the network. *)
Lemma cachedEntry_missState k st :
  cachedEntry k (freshCacheOf st) = None ->
  cachedEntry k (freshCacheOf (missState k st)) = None.
Proof.
  intros H. unfold missState.
  destruct (getProp k (freshCacheOf st)) as [c|] eqn:G;
    [destruct (truthy c)|];
    rewrite ?freshCacheOf_versionChecked; try assumption.
  unfold freshCacheOf at 1. cbn [geocodeStore setGeocodeStore readJSON].
  destruct (versionOk (delProp k (freshCacheOf st)));
    [|apply cachedEntry_emptyCache].
  unfold cachedEntry. rewrite getProp_delProp_same. reflexivity.
Qed.

(** A lookup is served from the cache only when the stored version is the
    current one. *)
Lemma cachedEntry_current k st c :
  cachedEntry k (freshCacheOf st) = Some c ->
  versionOk (readJSON (geocodeStore st)) = true.
Proof.
  destruct (versionOk (readJSON (geocodeStore st))) eqn:E; [reflexivity|].
  rewrite (freshCacheOf_stale _ E), cachedEntry_emptyCache. discriminate.
Qed.

Lemma candidates1_missState label k st :
  candidates1 label (missState k st) = candidates1 label st.
Proof. unfold candidates1. rewrite requests_missState. reflexivity. Qed.

Lemma candidates2_missState label k st :
  candidates2 label (missState k st) = candidates2 label st.
Proof. unfold candidates2. rewrite requests_missState. reflexivity. Qed.

(** A lookup that is not served from the cache, in full. *)
Lemma geocodePlace_miss label hint st :
  nonEmpty (keyOf label) = true ->
  cachedEntry (keyOf label) (freshCacheOf st) = None ->
  geocodePlace label hint st =
  let k := keyOf label in
  match choose hint (candidates1 label st) with
  | Some f =>
      (Ok (placeOf label f),
       stored k (placeOf label f) (missCache k st)
              (asked1 label (missState k st)))
  | None =>
      match choose hint (candidates2 label st) with
      | Some f =>
          (Ok (placeOf label f),
           stored k (placeOf label f) (missCache k st)
                  (asked2 label (missState k st)))
      | None => (Err (NoMatchFor label), asked2 label (missState k st))
      end
  end.
Proof.
  intros Hk Hc. rewrite geocodePlace_eq, Hk, Hc. cbn [negb].
  rewrite geocodeLookup_eq, candidates1_missState, candidates2_missState.
  reflexivity.
Qed.

Lemma requests_asked1 label k st :
  requests (asked1 label (missState k st))
  = requests st ++ [PlaceSearch (normalizeQ (label ++ js ", UK"))].
Proof. unfold asked1. simpl. rewrite requests_missState. reflexivity. Qed.

Lemma requests_asked2 label k st :
  requests (asked2 label (missState k st))
  = requests st ++ [PlaceSearch (normalizeQ (label ++ js ", UK"));
                    PlaceSearch (normalizeQ label)].
Proof.
  unfold asked2, asked1. simpl. rewrite requests_missState.
  rewrite <- app_assoc. reflexivity.
Qed.

End WithEnv.

End CacheFacts.

(** ** The route cache *)

Module RouteFacts.

Import StrFacts PropsFacts NumFacts NumBounds LookupFacts.

Local Open Scope float_scope.

(** A position strictly inside the sanity bounds. *)
Definition inside (c : LngLat) : Prop :=
  Num.lt 45 (snd c) /\ Num.lt (snd c) 62
  /\ Num.lt (-12) (fst c) /\ Num.lt (fst c) 5.

(** One turn of the loop that computes the extent. *)
Definition widen (b : Bounds) (c : LngLat) : Bounds :=
  mkBounds (Num.Math_min (minLat b) (snd c)) (Num.Math_max (maxLat b) (snd c))
           (Num.Math_min (minLng b) (fst c)) (Num.Math_max (maxLng b) (fst c)).

Lemma within_widen b c :
  within (widen b c) = true -> within b = true /\ inside c.
Proof.
  unfold within, widen, inside. cbn [minLat maxLat minLng maxLng].
  rewrite !andb_true_iff. intros [[[H1 H2] H3] H4].
  apply Math_min_above in H1. apply Math_max_below in H2.
  apply Math_min_above in H3. apply Math_max_below in H4.
  unfold Num.lt in *. tauto.
Qed.

Lemma within_fold cs : forall b,
  within (fold_left widen cs b) = true ->
  within b = true /\ forall c, In c cs -> inside c.
Proof.
  induction cs as [|c cs IH]; intros b H; simpl in *.
  - split; [assumption|]. intros c [].
  - apply IH in H. destruct H as [Hw Hcs].
    apply within_widen in Hw. destruct Hw as [Hb Hc].
    split; [assumption|]. intros c' [<- | Hc']; auto.
Qed.

(** An extent within the sanity bounds: every position is strictly
    inside. *)
Lemma within_extent cs :
  within (extent cs) = true -> forall c, In c cs -> inside c.
Proof.
  intros H. apply (within_fold cs (mkBounds 90 (-90) 180 (-180))).
  exact H.
Qed.

Section WithEnv.

Context {env : Env}.

(** The stored polyline that serves a lookup, if there is one. *)
Definition cachedRoute (k : jstring) (cache : props) : option Json :=
  match getProp k cache with
  | Some coords =>
      if truthy coords && looksSane coords
         && within (extent (lngLatsOf coords))
      then Some coords
      else None
  | None => None
  end.

(** The cache object and the state with which a lookup that missed goes to
    the network: a bad entry is dropped first. *)
Definition droppedCache (k : jstring) (st : St) : props :=
  match getProp k (readJSON (osrmStore st)) with
  | Some coords =>
      if truthy coords then delProp k (readJSON (osrmStore st))
      else readJSON (osrmStore st)
  | None => readJSON (osrmStore st)
  end.

Definition droppedState (k : jstring) (st : St) : St :=
  match getProp k (readJSON (osrmStore st)) with
  | Some coords =>
      if truthy coords
      then setOsrmStore (Some (delProp k (readJSON (osrmStore st)))) st
      else st
  | None => st
  end.

Lemma osrmRoute_eq a b st :
  osrmRoute a b st =
  match cachedRoute (routeKey a b) (readJSON (osrmStore st)) with
  | Some coords => (Ok (Some (lngLatsOf coords)), st)
  | None =>
      osrmFetch a b (routeKey a b) (droppedCache (routeKey a b) st)
                (droppedState (routeKey a b) st)
  end.
Proof.
  unfold osrmRoute, bind, readOsrmCache, gets, cachedRoute, droppedCache,
    droppedState.
  destruct (getProp (routeKey a b) (readJSON (osrmStore st))) as [c|];
    [|reflexivity].
  destruct (truthy c); [|reflexivity]. simpl.
  destruct (looksSane c && within (extent (lngLatsOf c))); reflexivity.
Qed.

(** What the routing service answers, as [osrmRoute] passes it on. *)
Definition routed (a b : Point) (st : St) : option (list LngLat) :=
  match routing (requests st) (lng a) (lat a) (lng b) (lat b) with
  | Some cs => if Nat.ltb (length cs) 2 then None else Some cs
  | None => None
  end.

Definition askedRoute (a b : Point) (st : St) : St :=
  addRequest (RouteRequest (lng a) (lat a) (lng b) (lat b)) st.

Lemma osrmFetch_eq a b k cache st :
  osrmFetch a b k cache st =
  (Ok (routed a b st),
   match routed a b st with
   | Some cs =>
       setOsrmStore (Some (evict (setProp k (jsonOfLngLats cs) cache)))
                    (askedRoute a b st)
   | None => askedRoute a b st
   end).
Proof.
  unfold osrmFetch, bind, fetchRoute, routed, askedRoute.
  destruct (routing _ _ _ _ _) as [cs|]; [|reflexivity].
  destruct (Nat.ltb (length cs) 2); reflexivity.
Qed.

Lemma sameDrawing_droppedState k st : sameDrawing st (droppedState k st).
Proof.
  unfold droppedState.
  destruct (getProp k _) as [c|]; [destruct (truthy c)|]; repeat split.
Qed.

Lemma requests_droppedState k st : requests (droppedState k st) = requests st.
Proof.
  unfold droppedState.
  destruct (getProp k _) as [c|]; [destruct (truthy c)|]; reflexivity.
Qed.

(** [osrmRoute] never fails, leaves the drawing and the geocode cache
    alone, and issues at most one request. *)
Lemma osrmRoute_frame a b st res st' :
  osrmRoute a b st = (res, st') ->
  (exists coords, res = Ok coords)
  /\ sameDrawing st st'
  /\ geocodeStore st' = geocodeStore st.
Proof.
  rewrite osrmRoute_eq.
  destruct (cachedRoute _ _) as [c|].
  { intros H. injection H as <- <-. split; [eauto|].
    split; [apply sameDrawing_refl | reflexivity]. }
  rewrite osrmFetch_eq. intros H. injection H as <- <-.
  split; [eauto|].
  assert (Hd : forall st0, sameDrawing st0 (askedRoute a b st0)
                           /\ geocodeStore (askedRoute a b st0)
                              = geocodeStore st0)
    by (intros st0; repeat split).
  split.
  - eapply sameDrawing_trans; [apply sameDrawing_droppedState|].
    destruct (routed a b _); [|apply Hd]. repeat split.
  - unfold droppedState.
    destruct (routed a b _);
      destruct (getProp _ _) as [c|]; try destruct (truthy c); reflexivity.
Qed.

End WithEnv.

End RouteFacts.

(** ** The path builder *)

Module DrawFacts.

Import StrFacts LookupFacts RouteFacts.

Section WithEnv.

Context {env : Env}.

Lemma pinned_inUk coords p :
  pinned coords = Some p -> inUkBounds (lat p) (lng p) = true.
Proof.
  unfold pinned. destruct coords as [c|]; [|discriminate].
  destruct (inUkBounds (lat c) (lng c)) eqn:E; [|discriminate].
  intros H. injection H as <-. assumption.
Qed.

(** Resolving an endpoint leaves the drawing alone, whatever comes of it. *)
Lemma resolveFrom_frame seg fromLabel st res st' :
  resolveFrom seg fromLabel st = (res, st') -> sameDrawing st st'.
Proof.
  unfold resolveFrom, bind, gets.
  destruct (prev st) as [a|].
  { intros H. injection H as _ <-. apply sameDrawing_refl. }
  destruct (pinned (fromCoords seg)) as [a|].
  { intros H. injection H as _ <-. apply sameDrawing_refl. }
  destruct (nonEmpty fromLabel && negb (looksLikeRoadOnly fromLabel)).
  - destruct (geocodePlace fromLabel None st) as [[x|e] st1] eqn:E;
      intros H; injection H as _ <-;
      apply geocodePlace_frame in E; apply E.
  - intros H. injection H as _ <-. apply sameDrawing_refl.
Qed.

Lemma resolveTo_frame seg toLabel a st res st' :
  resolveTo seg toLabel a st = (res, st') -> sameDrawing st st'.
Proof.
  unfold resolveTo, bind.
  destruct (pinned (toCoords seg)) as [b|].
  { intros H. injection H as _ <-. apply sameDrawing_refl. }
  destruct (nonEmpty toLabel).
  - destruct (geocodePlace toLabel (Some a) st) as [[x|e] st1] eqn:E;
      intros H; injection H as _ <-;
      apply geocodePlace_frame in E; apply E.
  - intros H. injection H as _ <-. apply sameDrawing_refl.
Qed.

(** The end of the [try] block does not fail: the chain advances to [b]
    and one line is added. *)
Lemma drawBetween_ok seg a b st :
  exists st' line,
    drawBetween seg a b st = (Ok tt, st')
    /\ prev st' = Some b
    /\ failedSegments st' = failedSegments st
    /\ routeLayer st' = routeLayer st ++ [line].
Proof.
  unfold drawBetween, bind, modify, pushBounds, addPolyline.
  destruct (osrmRoute a b (setPrev (Some b) st)) as [res st1] eqn:E.
  apply osrmRoute_frame in E.
  destruct E as ([coords ->] & (Hl & Hb & Hp & Hf) & _).
  eexists _, _. split; [reflexivity|]. simpl.
  rewrite Hp, Hf, Hl. auto.
Qed.

Lemma drawStored_ok seg coords st :
  exists st' line,
    drawStored seg coords st = (Ok tt, st')
    /\ failedSegments st' = failedSegments st
    /\ routeLayer st' = routeLayer st ++ [line].
Proof.
  unfold drawStored, bind, modify, ret, pushBounds, addPolyline.
  destruct (inUkBounds _ _); eexists _, _; (split; [reflexivity|]);
    simpl; auto.
Qed.

(** The outcomes of the branch without stored geometry: a failure leaves
    the drawing as it was, the anchor included; a success adds one line. *)
Lemma drawResolved_cases r segs i seg st res st' :
  drawResolved r segs i seg st = (res, st') ->
  (exists e, res = Err e /\ sameDrawing st st')
  \/ (res = Ok tt
      /\ failedSegments st' = failedSegments st
      /\ exists line, routeLayer st' = routeLayer st ++ [line]).
Proof.
  unfold drawResolved, bind.
  destruct (resolveFrom seg _ st) as [[[a|]|e] st1] eqn:Ea;
    pose proof (resolveFrom_frame _ _ _ Ea) as Fa.
  2:{ intros H. injection H as <- <-. left. eauto. }
  2:{ intros H. injection H as <- <-. left. eauto. }
  destruct (resolveTo seg _ a st1) as [[[b|]|e] st2] eqn:Eb;
    pose proof (resolveTo_frame _ _ _ _ Eb) as Fb;
    pose proof (sameDrawing_trans Fa Fb) as Fab.
  2:{ intros H. injection H as <- <-. left. eauto. }
  2:{ intros H. injection H as <- <-. left. eauto. }
  destruct (negb (inUkBounds (lat b) (lng b))).
  { intros H. injection H as <- <-. left. eauto. }
  destruct (180 <? haversineKm a b)%float.
  { intros H. injection H as <- <-. left. eauto. }
  destruct (drawBetween_ok seg a b st2) as (st3 & line & -> & _ & Hf & Hl).
  intros H. injection H as <- <-. right.
  destruct Fab as (Hl' & _ & _ & Hf').
  split; [reflexivity|]. split; [congruence|].
  exists line. congruence.
Qed.

Lemma drawSegment_cases r segs i seg st res st' :
  drawSegment r segs i seg st = (res, st') ->
  (exists e, res = Err e /\ sameDrawing st st')
  \/ (res = Ok tt
      /\ failedSegments st' = failedSegments st
      /\ exists line, routeLayer st' = routeLayer st ++ [line]).
Proof.
  unfold drawSegment.
  destruct (geometry seg) as [[|c1 [|c2 cs]]|];
    try apply drawResolved_cases.
  destruct (drawStored_ok seg (c1 :: c2 :: cs) st)
    as (st1 & line & -> & Hf & Hl).
  intros H. injection H as <- <-. right. eauto.
Qed.

(** One turn of the loop: a line more, or a failure more. *)
Lemma segmentStep_cases r segs i seg st :
  (failedSegments (segmentStep r segs i seg st) = failedSegments st + 1
   /\ routeLayer (segmentStep r segs i seg st) = routeLayer st
   /\ prev (segmentStep r segs i seg st) = prev st)
  \/ (failedSegments (segmentStep r segs i seg st) = failedSegments st
      /\ exists line,
          routeLayer (segmentStep r segs i seg st) = routeLayer st ++ [line]).
Proof.
  unfold segmentStep.
  destruct (drawSegment r segs i seg st) as [res st'] eqn:E.
  apply drawSegment_cases in E.
  destruct E as [(e & -> & Hl & _ & Hp & Hf) | (-> & Hf & line & Hl)].
  - left. simpl. rewrite Hf. auto.
  - right. eauto.
Qed.

(** The loop: the lines drawn and the failures counted add up to the
    segments seen, and the lines already there stay. *)
Lemma segmentLoop_count r segs : forall rest i st,
  exists added,
    routeLayer (segmentLoop r segs i rest st) = routeLayer st ++ added
    /\ length added + failedSegments (segmentLoop r segs i rest st)
       = failedSegments st + length rest.
Proof.
  induction rest as [|seg rest IH]; intros i st; simpl.
  - exists []. rewrite app_nil_r. split; [reflexivity | simpl; lia].
  - destruct (IH (S i) (segmentStep r segs i seg st)) as (added & Hl & Hn).
    destruct (segmentStep_cases r segs i seg st)
      as [(Hf & Hl' & _) | (Hf & line & Hl')].
    + exists added. rewrite Hl, Hl'. split; [reflexivity | lia].
    + exists (line :: added). rewrite Hl, Hl', <- app_assoc.
      split; [reflexivity | simpl; lia].
Qed.

(** The initial anchor: [initPrev] does not fail and only sets [prev]. *)
Lemma initPrev_blank r st :
  nonEmpty (trim (orElse (startPostcode r) (startLabel r))) = false ->
  initPrev r st = (Ok tt, setPrev None st).
Proof.
  intros H. unfold initPrev, bind, modify. rewrite H. reflexivity.
Qed.

Lemma initPrev_pinned r st p :
  nonEmpty (trim (orElse (startPostcode r) (startLabel r))) = true ->
  pinned (startCoords r) = Some p ->
  initPrev r st = (Ok tt, setPrev (Some p) st).
Proof.
  intros H Hp. unfold initPrev, bind, modify, tryCatch.
  rewrite H, Hp. reflexivity.
Qed.

Lemma initPrev_geocoded r st :
  nonEmpty (trim (orElse (startPostcode r) (startLabel r))) = true ->
  pinned (startCoords r) = None ->
  initPrev r st =
  match geocodePlace (trim (orElse (startPostcode r) (startLabel r))) None
                     (setPrev None st) with
  | (Ok p, st') => (Ok tt, setPrev (Some p) st')
  | (Err _, st') => (Ok tt, setPrev None st')
  end.
Proof.
  intros H Hp. unfold initPrev, bind, modify, tryCatch.
  rewrite H, Hp. cbv beta iota.
  destruct (geocodePlace _ None _) as [[p|e] st']; reflexivity.
Qed.

Lemma initPrev_layer r st :
  routeLayer (snd (initPrev r st)) = routeLayer st.
Proof.
  destruct (nonEmpty (trim (orElse (startPostcode r) (startLabel r)))) eqn:H.
  - destruct (pinned (startCoords r)) as [p|] eqn:Hp.
    + rewrite (initPrev_pinned _ _ H Hp). reflexivity.
    + rewrite (initPrev_geocoded _ _ H Hp).
      destruct (geocodePlace _ None _) as [[p|e] st'] eqn:E;
        apply geocodePlace_frame in E; destruct E as ((Hl & _) & _);
        simpl; rewrite Hl; reflexivity.
  - rewrite (initPrev_blank _ _ H). reflexivity.
Qed.

(** The anchors of the fallback are inside the bounds, and resolving them
    leaves the drawing alone. *)
Lemma fallbackAnchors_ok r st s f st1 :
  fallbackAnchors r st = (Ok (s, f), st1) ->
  inUkBounds (lat s) (lng s) = true /\ inUkBounds (lat f) (lng f) = true
  /\ sameDrawing st st1.
Proof.
  unfold fallbackAnchors, bind.
  assert (Hstart : forall st0 p st',
             match pinned (startCoords r) with
             | Some p0 => ret p0
             | None =>
                 geocodePlace
                   (trim (orElse (startPostcode r) (startLabel r))) None
             end st0 = (Ok p, st') ->
             inUkBounds (lat p) (lng p) = true /\ sameDrawing st0 st').
  { intros st0 p st'. destruct (pinned (startCoords r)) as [p0|] eqn:Hp.
    - intros H. injection H as <- <-.
      split; [eapply pinned_inUk; eassumption | apply sameDrawing_refl].
    - intros H. split; [eapply geocodePlace_inUk; eassumption|].
      apply geocodePlace_frame in H. apply H. }
  assert (Hend : forall h st0 p st',
             match pinned (endCoords r) with
             | Some p0 => ret p0
             | None =>
                 geocodePlace
                   (trim (orElse (endPostcode r) (endLabel r))) (Some h)
             end st0 = (Ok p, st') ->
             inUkBounds (lat p) (lng p) = true /\ sameDrawing st0 st').
  { intros h st0 p st'. destruct (pinned (endCoords r)) as [p0|] eqn:Hp.
    - intros H. injection H as <- <-.
      split; [eapply pinned_inUk; eassumption | apply sameDrawing_refl].
    - intros H. split; [eapply geocodePlace_inUk; eassumption|].
      apply geocodePlace_frame in H. apply H. }
  destruct (match pinned (startCoords r) with
            | Some p0 => ret p0
            | None => _
            end st) as [[s0|e] st0] eqn:Es; [|discriminate].
  apply Hstart in Es. destruct Es as [Hs Fs].
  destruct (match pinned (endCoords r) with
            | Some p0 => ret p0
            | None => _
            end st0) as [[f0|e] st2] eqn:Ef; [|discriminate].
  apply Hend in Ef. destruct Ef as [Hf Ff].
  intros H. injection H as <- <- <-.
  split; [assumption|]. split; [assumption|].
  eapply sameDrawing_trans; eassumption.
Qed.

(** The line of the fallback, given its two anchors. *)
Definition fallbackPoints (s f : Point) (coords : option (list LngLat))
  : list LatLng :=
  match coords with
  | Some cs => map swap cs
  | None => [(lat s, lng s); (lat f, lng f)]
  end.

Lemma fallbackLine_ok s f st :
  inUkBounds (lat s) (lng s) = true -> inUkBounds (lat f) (lng f) = true ->
  exists st' coords dash,
    fallbackLine s f st = (Ok tt, st')
    /\ fst (osrmRoute s f st) = Ok coords
    /\ routeLayer st'
       = routeLayer st
         ++ [mkPolyline (fallbackPoints s f coords) (js "#9aa0a6") 5 0.6 dash].
Proof.
  intros Hs Hf. unfold fallbackLine, bind, pushBounds, addPolyline, modify.
  rewrite Hs, Hf. simpl.
  destruct (osrmRoute s f st) as [res st1] eqn:E.
  apply osrmRoute_frame in E.
  destruct E as ([coords ->] & (Hl & _) & _).
  eexists _, coords, _. split; [reflexivity|]. split; [reflexivity|].
  simpl. rewrite Hl. unfold fallbackPoints. reflexivity.
Qed.

End WithEnv.

End DrawFacts.

(** * Part IV: the properties of the specification *)

(** ** The label classifier on the labels of the seed routes *)

Module ClassifierExamples.

Import Scenario.

Example postcode_is_an_anchor :
  isInstructionLikeLabel (js "take exit for Newmarket CB8 7NR") = false.
Proof. vm_compute. reflexivity. Qed.

Example instruction_start :
  isInstructionLikeLabel (js "At roundabout take 3rd exit onto A17") = true.
Proof. vm_compute. reflexivity. Qed.

Example ordinal_and_action :
  isInstructionLikeLabel (js "M6 (4th exit)") = true.
Proof. vm_compute. reflexivity. Qed.

Example roundabout_alone_is_a_place :
  isInstructionLikeLabel (js "Dockham Way roundabout") = false.
Proof. vm_compute. reflexivity. Qed.

Example road_only_labels :
  isRoadOnlyLabel (js "M6") = true
  /\ isRoadOnlyLabel (js " a17 / 47 ") = true
  /\ isRoadOnlyLabel (js "A142, Newmarket") = false
  /\ isRoadOnlyLabel (js "A4428") = false.
Proof. repeat split; vm_compute; reflexivity. Qed.

Example road_tokens :
  @extractRoadToken offline (js "A10/A17, King's Lynn") = js "A10/A17"
  /\ @extractRoadToken offline (js "M1 Junction 14 (A4428)") = js "M1"
  /\ @extractRoadToken offline (js "slip road onto a14") = js "A14"
  /\ @extractRoadToken offline (js "A4428") = []
  /\ @extractRoadToken offline (js "RA14") = [].
Proof. repeat split; vm_compute; reflexivity. Qed.

(** In the second seed route: [M6 (4th exit)] stands for [M6]; the
    road-only [to] label [M6] of the third segment is no anchor, and the
    next anchor is found two labels further. *)
Example effective_labels_via_M6 :
  @effectiveLabelForEndpoint offline viaM6 (segments viaM6) 4 KTo = js "M6"
  /\ @effectiveLabelForEndpoint offline viaM6 (segments viaM6) 2 KTo = []
  /\ nextAnchorLabel viaM6 (segments viaM6) 2 = js "M6 Junction 1 (A426)"
  /\ @effectiveLabelForEndpoint offline viaM6 (segments viaM6) 0 KFrom
     = js "Landwade Rd, Newmarket".
Proof. repeat split; vm_compute; reflexivity. Qed.

Example query_normalisation :
  normalizeQ (js " A17/A52, near Grantham  Jn 3 Rdbt ")
  = js "A17 A52, Grantham Junction 3 Roundabout".
Proof. vm_compute. reflexivity. Qed.

End ClassifierExamples.

(** ** The road token *)

Section RoadTokens.

Context {env : Env}.

Import RegexFacts StrFacts ClassifierFacts.

(** The shape of what [extractRoadToken] returns: nothing, [A17], or
    [A17/A47] (the second part with or without its letter). *)
Lemma extractRoadToken_shape v :
  extractRoadToken v = []
  \/ exists X ds,
      upperRoadLetter X /\ digits13 ds
      /\ (extractRoadToken v = X :: ds
          \/ exists g,
              (digits13 g
               \/ exists Y ds2,
                   g = Y :: ds2 /\ upperRoadLetter Y /\ digits13 ds2)
              /\ extractRoadToken v = X :: ds ++ 47%N :: g).
Proof.
  unfold extractRoadToken, search.
  destruct (searchFrom reRoadToken [] v) as [m|] eqn:E; [|left; reflexivity].
  right. apply searchFrom_sound in E.
  destruct E as (b & w & a & c & Hm & Hc).
  apply reRoadToken_caps in Hm. destruct Hm as (g1 & Hcaps & Hg1).
  destruct (upper_roadHead Hg1) as (X & ds & EX & HX & Hds).
  exists X, ds. split; [assumption|]. split; [assumption|].
  unfold groupText. rewrite Hc.
  destruct Hcaps as [-> | (g2 & -> & Hg2)]; simpl.
  - left. assumption.
  - right. pose proof (upper_roadTail Hg2) as Hup.
    assert (Hne : nonEmpty g2 = true).
    { destruct Hg2 as [[_ Hl] | (y & ds2 & -> & _)]; [|reflexivity].
      destruct g2; [simpl in Hl; lia | reflexivity]. }
    rewrite Hne. exists (toUpperCase g2). split; [assumption|].
    rewrite EX. reflexivity.
Qed.

Lemma isRoadOnlyLabel_head X ds :
  upperRoadLetter X -> digits13 ds -> isRoadOnlyLabel (X :: ds) = true.
Proof.
  intros HX Hd. unfold isRoadOnlyLabel.
  replace (trim (X :: ds)) with (X :: ds)
    by (symmetry; apply (@trim_token X [] ds); assumption).
  simpl. eapply test_complete. apply reRoadOnly_head; assumption.
Qed.

Lemma isRoadOnlyLabel_pair X ds g :
  upperRoadLetter X -> digits13 ds ->
  (digits13 g
   \/ exists Y ds2, g = Y :: ds2 /\ upperRoadLetter Y /\ digits13 ds2) ->
  isRoadOnlyLabel (X :: ds ++ 47%N :: g) = true.
Proof.
  intros HX Hd Hg. unfold isRoadOnlyLabel.
  assert (Et : trim (X :: ds ++ 47%N :: g) = X :: ds ++ 47%N :: g).
  { destruct Hg as [Hg | (Y & ds2 & -> & HY & Hd2)].
    - replace (X :: ds ++ 47%N :: g) with (X :: (ds ++ [47%N]) ++ g)
        by (rewrite <- app_assoc; reflexivity).
      apply trim_token; assumption.
    - replace (X :: ds ++ 47%N :: Y :: ds2)
        with (X :: (ds ++ [47%N; Y]) ++ ds2)
        by (rewrite <- app_assoc; reflexivity).
      apply trim_token; assumption. }
  rewrite Et. simpl. eapply test_complete.
  apply reRoadOnly_pair; assumption.
Qed.

(** C10. Whatever the input string, a non-empty token returned by
    [extractRoadToken] is a road-only label; so when
    [effectiveLabelForEndpoint] puts the extracted road token in the place
    of an instruction-like label, what it returns is a road-only label. *)
Theorem C10_extracted_token_is_road_only :
  (forall v t,
      extractRoadToken v = t -> t <> [] -> isRoadOnlyLabel t = true)
  /\ (forall route segs i key raw,
         raw = trim (segLabel (nth_error segs i) key) ->
         isRoadOnlyLabel raw = false ->
         isInstructionLikeLabel raw = true ->
         extractRoadToken raw <> [] ->
         effectiveLabelForEndpoint route segs i key = extractRoadToken raw
         /\ isRoadOnlyLabel (effectiveLabelForEndpoint route segs i key)
            = true).
Proof.
  assert (main : forall v t,
             extractRoadToken v = t -> t <> [] -> isRoadOnlyLabel t = true).
  { intros v t <- Hne.
    destruct (extractRoadToken_shape v)
      as [E | (X & ds & HX & Hd & [E | (g & Hg & E)])].
    - contradiction.
    - rewrite E. apply isRoadOnlyLabel_head; assumption.
    - rewrite E. apply isRoadOnlyLabel_pair; assumption. }
  split; [exact main|].
  intros route segs i key raw Hraw Hro Hinstr Htok.
  assert (E : effectiveLabelForEndpoint route segs i key
              = extractRoadToken raw).
  { unfold effectiveLabelForEndpoint. rewrite <- Hraw, Hro, Hinstr. simpl.
    apply nonEmpty_true in Htok. rewrite Htok. reflexivity. }
  split; [exact E|]. rewrite E. eapply main; eauto.
Qed.

End RoadTokens.

(** The instruction [At roundabout take 3rd exit onto A17], as the [to]
    label of the only segment of a route, becomes the road-only label
    [A17]. *)
Lemma C10_extracted_token_witness :
  @isRoadOnlyLabel
    (@extractRoadToken Scenario.offline
       (js "At roundabout take 3rd exit onto a17 / 47")) = true
  /\ @isRoadOnlyLabel
       (@effectiveLabelForEndpoint Scenario.offline
          (mkRoute [] [] [] [] [] None [] [] None [])
          [mkSegment (js "A17") (js "King's Lynn")
             (js "At roundabout take 3rd exit onto A17") RiskL None None None
             []]
          0 KTo) = true.
Proof.
  split.
  - apply (proj1 (@C10_extracted_token_is_road_only Scenario.offline)
             (js "At roundabout take 3rd exit onto a17 / 47") _ eq_refl).
    vm_compute. discriminate.
  - apply (proj2 (@C10_extracted_token_is_road_only Scenario.offline)
             (mkRoute [] [] [] [] [] None [] [] None []) _ 0 KTo _ eq_refl).
    + vm_compute. reflexivity.
    + vm_compute. reflexivity.
    + vm_compute. discriminate.
Defined.

(** ** The envelope and the endpoint resolver *)

(** The geographic envelope, in the words of the specification:
    [49.8 <= lat <= 60.95] and [-8.65 <= lng <= 1.8]. *)
Definition inEnvelope (p : Point) : Prop :=
  Num.le 49.8 (lat p) /\ Num.le (lat p) 60.95
  /\ Num.le (-8.65) (lng p) /\ Num.le (lng p) 1.8.

(** The bounds check of the code and the envelope of the specification
    agree: a number between two finite bounds is finite. *)
Lemma inUkBounds_inEnvelope p :
  inUkBounds (lat p) (lng p) = true <-> inEnvelope p.
Proof.
  unfold inUkBounds, inEnvelope, Num.le.
  cbn [minLat maxLat minLng maxLng UK_BOUNDS].
  rewrite !andb_true_iff. split.
  - tauto.
  - intros (H1 & H2 & H3 & H4). repeat split; try assumption.
    + apply (NumBounds.between_finite (a := 49.8) (b := 60.95));
        try assumption; reflexivity.
    + apply (NumBounds.between_finite (a := (-8.65)) (b := 1.8));
        try assumption; reflexivity.
Qed.

Section Resolver.

Context {env : Env} {A : Type} {endpoints : Endpoints A}.

Import LookupFacts.

(** An override inside the bounds is returned at once, in the same
    state. *)
Lemma resolveEndpoint_override (seg : A) key c hint labelOverride st :
  coordsAt seg key = Some c ->
  inUkBounds (lat c) (lng c) = true ->
  resolveEndpoint seg key hint labelOverride st =
  (Ok (mkPoint (lat c) (lng c) (Some (js "Override"))), st).
Proof.
  intros Hc Hin. unfold resolveEndpoint, resolveOverride.
  rewrite Hc, Hin. reflexivity.
Qed.

(** What [resolveEndpoint] returns is inside the bounds, or is the hint
    itself, returned in the same state. *)
Lemma resolveEndpoint_cases (seg : A) key hint labelOverride st p st' :
  resolveEndpoint seg key hint labelOverride st = (Ok p, st') ->
  inUkBounds (lat p) (lng p) = true \/ (hint = Some p /\ st' = st).
Proof.
  unfold resolveEndpoint, resolveOverride.
  destruct (coordsAt seg key) as [c|].
  - destruct (inUkBounds (lat c) (lng c)) eqn:E.
    + intros H. injection H as <- _. left. assumption.
    + destruct (negb _).
      * unfold hintUsable. destruct hint as [h|]; [|discriminate].
        destruct (_ && _); [|discriminate].
        intros H. injection H as <- <-. right. auto.
      * intros H. left. eapply geocodePlace_inUk. eassumption.
  - destruct (negb _).
    + unfold hintUsable. destruct hint as [h|]; [|discriminate].
      destruct (_ && _); [|discriminate].
      intros H. injection H as <- <-. right. auto.
    + intros H. left. eapply geocodePlace_inUk. eassumption.
Qed.

End Resolver.

Section ResolverClaims.

Context {env : Env}.

Import LookupFacts.

(** C1 (as amended). Every coordinate [geocodePlace] returns satisfies the
    envelope.  Every coordinate [resolveEndpoint] returns satisfies the
    envelope or is the caller's hint itself, handed back unchanged for an
    empty label (the hint is checked for finiteness only); so it satisfies
    the envelope whenever the hint does. *)
Theorem C1_returned_coordinates_in_envelope :
  (forall label hint st p st',
      geocodePlace label hint st = (Ok p, st') -> inEnvelope p)
  /\ (forall (A : Type) (endpoints : Endpoints A) (seg : A) key hint
             labelOverride st p st',
         resolveEndpoint seg key hint labelOverride st = (Ok p, st') ->
         (inEnvelope p \/ hint = Some p)
         /\ ((forall h, hint = Some h -> inEnvelope h) -> inEnvelope p)).
Proof.
  split.
  - intros label hint st p st' H. apply inUkBounds_inEnvelope.
    eapply geocodePlace_inUk. eassumption.
  - intros A endpoints seg key hint labelOverride st p st' H.
    apply resolveEndpoint_cases in H. destruct H as [H | [H _]].
    + apply inUkBounds_inEnvelope in H. auto.
    + split; [right; assumption|]. intros Hh. apply Hh. assumption.
Qed.

(** C4 (as amended). When the override of an endpoint is present and
    satisfies the envelope, [resolveEndpoint] uses it whatever the label,
    the label override and the hint are, and makes no request: the label is
    not geocoded.  When it is present and does not satisfy the envelope, it
    is set aside: [resolveEndpoint] does what it does for an endpoint with
    the same label and no override, and geocodes the label when there is
    one. *)
Theorem C4_valid_override_takes_precedence
  (A : Type) (endpoints : Endpoints A) (seg : A) (key : Key) (c : Point) :
  coordsAt seg key = Some c ->
  (inEnvelope c ->
   forall hint labelOverride st,
   exists p,
     resolveEndpoint seg key hint labelOverride st = (Ok p, st)
     /\ lat p = lat c /\ lng p = lng c
     /\ requests (snd (resolveEndpoint seg key hint labelOverride st))
        = requests st)
  /\ (~ inEnvelope c ->
      forall hint labelOverride st,
        (forall (B : Type) (endpointsB : Endpoints B) (bare : B),
            coordsAt bare key = None ->
            labelAt bare key = labelAt seg key ->
            resolveEndpoint seg key hint labelOverride st
            = resolveEndpoint bare key hint labelOverride st)
        /\ (forall l,
               labelOverride = Some l
               \/ (labelOverride = None /\ labelAt seg key = Some l) ->
               nonEmpty (trim l) = true ->
               resolveEndpoint seg key hint labelOverride st
               = geocodePlace (trim l) hint st)).
Proof.
  intros Hc. split.
  - intros Hin hint labelOverride st.
    apply inUkBounds_inEnvelope in Hin.
    rewrite (resolveEndpoint_override seg key hint labelOverride st Hc Hin).
    eexists. repeat split.
  - intros Hout hint labelOverride st.
    assert (Hb : inUkBounds (lat c) (lng c) = false).
    { destruct (inUkBounds (lat c) (lng c)) eqn:E; [|reflexivity].
      exfalso. apply Hout. apply inUkBounds_inEnvelope. assumption. }
    split.
    + intros B endpointsB bare Hn Hl.
      unfold resolveEndpoint, resolveOverride.
      rewrite Hc, Hb, Hn, Hl. reflexivity.
    + intros l Hl Hne. unfold resolveEndpoint, resolveOverride.
      rewrite Hc, Hb.
      destruct Hl as [-> | [-> ->]]; rewrite Hne; reflexivity.
Qed.

(** C5. When the override [seg[key + "Coords"]] satisfies the envelope,
    [resolveEndpoint] returns its coordinates as they are, and the state is
    the one it started from (no request, no write), whatever the text of
    the label.  The segment loop of the path builder does the same for
    [toCoords]: the [to] endpoint is the pinned coordinate, whatever the
    label it computed. *)
Theorem C5_override_in_envelope_returned_verbatim
  (A : Type) (endpoints : Endpoints A) (seg : A) (key : Key) (c : Point) :
  coordsAt seg key = Some c ->
  inEnvelope c ->
  (forall hint labelOverride st,
      resolveEndpoint seg key hint labelOverride st
      = (Ok (mkPoint (lat c) (lng c) (Some (js "Override"))), st))
  /\ (forall (s : Segment) toLabel a st,
         toCoords s = Some c ->
         resolveTo s toLabel a st
         = (Ok (Some (mkPoint (lat c) (lng c) None)), st)).
Proof.
  intros Hc Hin. apply inUkBounds_inEnvelope in Hin. split.
  - intros hint labelOverride st.
    apply resolveEndpoint_override; assumption.
  - intros s toLabel a st Hs. unfold resolveTo, pinned.
    rewrite Hs, Hin. reflexivity.
Qed.

End ResolverClaims.

Module ResolverExamples.

Import Scenario.

Local Open Scope float_scope.

(** A segment whose [to] is an instruction, pinned at [52.5, -0.9]. *)
Definition pinnedSegment : Segment :=
  mkSegment (js "A6") (js "Market Harborough")
            (js "At roundabout take 3rd exit") RiskL None
            (Some (mkPoint 52.5 (-0.9) None)) None [].

(** A segment whose [to] override lies outside the envelope. *)
Definition badPinSegment : Segment :=
  mkSegment (js "A6") (js "Market Harborough") (js "Leicester") RiskL None
            (Some (mkPoint 10 10 None)) None [].

(** A segment without a [to] label. *)
Definition blankSegment : Segment :=
  mkSegment (js "A6") (js "Market Harborough") [] RiskL None None None [].

Definition leicester : Point :=
  mkPoint 52.6369 (-1.1332) (Some (js "Leicester")).

End ResolverExamples.

(** With an empty label, a finite hint outside the envelope is what
    [resolveEndpoint] returns. *)
Lemma C1_hint_outside_envelope_is_returned :
  @resolveEndpoint Scenario.offline _ _ ResolverExamples.blankSegment KTo
    (Some (mkPoint 10 10 None)) None Scenario.emptySt
  = (Ok (mkPoint 10 10 None), Scenario.emptySt)
  /\ ~ inEnvelope (mkPoint 10 10 None).
Proof.
  split.
  - vm_compute. reflexivity.
  - intros [H _]. vm_compute in H. discriminate.
Qed.

Lemma C1_returned_coordinates_witness :
  inEnvelope ResolverExamples.leicester
  /\ inEnvelope Scenario.newmarket.
Proof.
  split.
  - apply (proj1 (@C1_returned_coordinates_in_envelope Scenario.online)
             (js "Leicester") None Scenario.emptySt
             ResolverExamples.leicester
             (snd (@geocodePlace Scenario.online (js "Leicester") None
                     Scenario.emptySt))).
    vm_compute. reflexivity.
  - apply (proj2 (@C1_returned_coordinates_in_envelope Scenario.online)
             _ _ ResolverExamples.blankSegment KTo (Some Scenario.newmarket)
             None Scenario.emptySt Scenario.newmarket Scenario.emptySt).
    + vm_compute. reflexivity.
    + intros h Hh. injection Hh as <-.
      apply inUkBounds_inEnvelope. vm_compute. reflexivity.
Defined.

(** An override that is present but outside the envelope is set aside: the
    label is geocoded, with two requests. *)
Lemma C4_override_outside_envelope_is_geocoded :
  coordsAt ResolverExamples.badPinSegment KTo = Some (mkPoint 10 10 None)
  /\ fst (@resolveEndpoint Scenario.online _ _ ResolverExamples.badPinSegment
            KTo None None Scenario.emptySt)
     = Ok ResolverExamples.leicester
  /\ requests (snd (@resolveEndpoint Scenario.online _ _
                      ResolverExamples.badPinSegment KTo None None
                      Scenario.emptySt))
     = [PlaceSearch (js "Leicester, UK"); PlaceSearch (js "Leicester")].
Proof.
  repeat split; vm_compute; reflexivity.
Qed.

Lemma C4_valid_override_witness :
  (exists p,
      @resolveEndpoint Scenario.online _ _ ResolverExamples.pinnedSegment KTo
        None None Scenario.emptySt = (Ok p, Scenario.emptySt)
      /\ lat p = 52.5%float /\ lng p = (-0.9)%float
      /\ requests (snd (@resolveEndpoint Scenario.online _ _
                          ResolverExamples.pinnedSegment KTo None None
                          Scenario.emptySt))
         = [])
  /\ @resolveEndpoint Scenario.online _ _ ResolverExamples.badPinSegment KTo
       None None Scenario.emptySt
     = @geocodePlace Scenario.online (js "Leicester") None Scenario.emptySt.
Proof.
  split.
  - apply (proj1 (@C4_valid_override_takes_precedence Scenario.online
                    Segment SegmentEndpoints
                    ResolverExamples.pinnedSegment KTo
                    (mkPoint 52.5 (-0.9) None)
                    ltac:(reflexivity))).
    apply inUkBounds_inEnvelope. vm_compute. reflexivity.
  - apply (proj2 (proj2 (@C4_valid_override_takes_precedence Scenario.online
                           Segment SegmentEndpoints
                           ResolverExamples.badPinSegment KTo
                           (mkPoint 10 10 None) ltac:(reflexivity))
                    ltac:(intros [H _]; vm_compute in H; discriminate)
                    None None Scenario.emptySt)
             (js "Leicester")).
    + right. split; reflexivity.
    + vm_compute. reflexivity.
Defined.

(** The segment with [toCoords:{lat:52.5,lng:-0.9}] and an instruction as
    its [to] text. *)
Lemma C5_override_witness :
  @resolveEndpoint Scenario.online _ _ ResolverExamples.pinnedSegment KTo
    (Some Scenario.newmarket) None Scenario.emptySt
  = (Ok (mkPoint 52.5 (-0.9) (Some (js "Override"))), Scenario.emptySt)
  /\ @resolveTo Scenario.online ResolverExamples.pinnedSegment
       (js "At roundabout take 3rd exit") Scenario.newmarket Scenario.emptySt
     = (Ok (Some (mkPoint 52.5 (-0.9) None)), Scenario.emptySt).
Proof.
  pose proof (@C5_override_in_envelope_returned_verbatim Scenario.online _ _
                ResolverExamples.pinnedSegment KTo (mkPoint 52.5 (-0.9) None)
                eq_refl) as H.
  destruct H as [H1 H2].
  - apply inUkBounds_inEnvelope. vm_compute. reflexivity.
  - split; [apply H1 | apply H2; reflexivity].
Defined.

(** ** The geocode cache and the hint *)

Section GeocodeClaims.

Context {env : Env}.

Import StrFacts PropsFacts NumFacts GeocodeFacts LookupFacts CacheFacts.

Local Open Scope float_scope.

Lemma pointOfJson_jsonOfPoint p d :
  displayName p = Some d -> pointOfJson (jsonOfPoint p) = p.
Proof.
  destruct p as [la lo dn]. simpl. intros ->. reflexivity.
Qed.

Lemma inUkBoundsV_jsonOfPoint p :
  inUkBoundsV (field (jsonOfPoint p) "lat") (field (jsonOfPoint p) "lng")
  = inUkBounds (lat p) (lng p).
Proof. destruct p as [la lo [d|]]; reflexivity. Qed.

(** The cache object of a lookup carries the current version. *)
Lemma versionOk_freshCacheOf st : versionOk (freshCacheOf st) = true.
Proof.
  unfold freshCacheOf.
  destruct (versionOk (readJSON (geocodeStore st))) eqn:E; [assumption|].
  reflexivity.
Qed.

Lemma versionOk_setProp k v o :
  k <> js "__v" -> versionOk (setProp k v o) = versionOk o.
Proof.
  intros Hk. unfold versionOk.
  rewrite getProp_setProp_other by congruence. reflexivity.
Qed.

Lemma versionOk_delProp k o :
  k <> js "__v" -> versionOk (delProp k o) = versionOk o.
Proof.
  intros Hk. unfold versionOk.
  rewrite getProp_delProp_other by congruence. reflexivity.
Qed.

Lemma versionOk_missCache k st :
  k <> js "__v" -> versionOk (missCache k st) = true.
Proof.
  intros Hk. unfold missCache.
  destruct (getProp k (freshCacheOf st)) as [c|];
    [destruct (truthy c)|];
    rewrite ?versionOk_delProp by assumption; apply versionOk_freshCacheOf.
Qed.

(** A hit leaves the state as it is when the stored version is current. *)
Lemma cachedEntry_version k st c :
  k <> js "__v" ->
  cachedEntry k (freshCacheOf st) = Some c ->
  versionOk (readJSON (geocodeStore st)) = true.
Proof.
  intros Hk. unfold freshCacheOf.
  destruct (versionOk (readJSON (geocodeStore st))) eqn:E; [reflexivity|].
  unfold cachedEntry, getProp.
  replace (Str.eqb (js "__v") k) with false; [discriminate|].
  symmetry. apply eqb_neq. congruence.
Qed.

(** A lookup served from the cache: the same place again, in the same
    state. *)
Lemma geocodePlace_hit label hint st c :
  nonEmpty (keyOf label) = true ->
  versionOk (readJSON (geocodeStore st)) = true ->
  cachedEntry (keyOf label) (readJSON (geocodeStore st)) = Some c ->
  geocodePlace label hint st = (Ok (pointOfJson c), st).
Proof.
  intros Hk Hv Hc. rewrite geocodePlace_eq. rewrite Hk. simpl.
  unfold freshCacheOf, versionChecked. rewrite Hv, Hc. reflexivity.
Qed.

Lemma geocodePlace_again label hint st p st1 :
  geocodePlace label hint st = (Ok p, st1) ->
  keyOf label <> js "__v" ->
  nonEmpty (keyOf label) = true
  /\ versionOk (readJSON (geocodeStore st1)) = true
  /\ exists c,
      cachedEntry (keyOf label) (readJSON (geocodeStore st1)) = Some c
      /\ pointOfJson c = p.
Proof.
  rewrite geocodePlace_eq. intros H Hk.
  destruct (nonEmpty (keyOf label)) eqn:Hne; [|discriminate]. simpl in H.
  split; [reflexivity|].
  destruct (cachedEntry (keyOf label) (freshCacheOf st)) as [c|] eqn:Hc.
  - injection H as <- <-.
    pose proof (@cachedEntry_version (keyOf label) st c Hk Hc) as Hv.
    unfold versionChecked. rewrite Hv. split; [assumption|].
    exists c. split; [|reflexivity].
    unfold freshCacheOf in Hc. rewrite Hv in Hc. assumption.
  - rewrite geocodeLookup_eq in H.
    assert (Hstored : forall f st2,
               inUkBounds (f_lat f) (f_lng f) = true ->
               let st3 := stored (keyOf label) (placeOf label f)
                                 (missCache (keyOf label) st) st2 in
               versionOk (readJSON (geocodeStore st3)) = true
               /\ exists c,
                   cachedEntry (keyOf label) (readJSON (geocodeStore st3))
                   = Some c
                   /\ pointOfJson c = placeOf label f).
    { intros f st2 Hin. simpl.
      rewrite versionOk_setProp by assumption.
      split; [apply versionOk_missCache; assumption|].
      exists (jsonOfPoint (placeOf label f)).
      unfold cachedEntry. rewrite getProp_setProp_same.
      rewrite inUkBoundsV_jsonOfPoint. cbn [lat lng placeOf].
      rewrite Hin. simpl. split; [reflexivity|].
      eapply pointOfJson_jsonOfPoint. reflexivity. }
    destruct (choose hint (candidates1 label _)) as [f|] eqn:E1.
    + injection H as <- <-. apply Hstored.
      apply choose_In in E1. apply survivors_inUk in E1. assumption.
    + destruct (choose hint (candidates2 label _)) as [f|] eqn:E2;
        [|discriminate].
      injection H as <- <-. apply Hstored.
      apply choose_In in E2. apply survivors_inUk in E2. assumption.
Qed.

(** C8 (as amended). For a label whose key is no property name of
    [Object.prototype] and is not the version tag [__v], and whose queries
    can be sent: when a call of [geocodePlace] succeeds, a second call with
    a label of the same key (the trimmed, lower-cased label) returns the
    same place from the cache and leaves the state as it is: no request,
    no write.  The first call issues no request on a cache hit, one when
    the UK-biased query matches, and two when it takes the raw query.  A
    call that fails on a label with a key stores nothing under the key, so
    the next call asks the network again. *)
Theorem C8_second_lookup_served_from_cache label hint st :
  keyOf label <> js "__v" ->
  plainKey (keyOf label) = true ->
  sendable label = true ->
  let k := keyOf label in
  let q1 := PlaceSearch (normalizeQ (label ++ js ", UK")) in
  let q2 := PlaceSearch (normalizeQ label) in
  (forall p st1,
      geocodePlace label hint st = (Ok p, st1) ->
      (forall label2 hint2,
          keyOf label2 = k ->
          geocodePlace label2 hint2 st1 = (Ok p, st1))
      /\ ((exists c,
              cachedEntry k (freshCacheOf st) = Some c
              /\ requests st1 = requests st)
          \/ (exists f,
                 cachedEntry k (freshCacheOf st) = None
                 /\ choose hint (candidates1 label st) = Some f
                 /\ requests st1 = requests st ++ [q1])
          \/ (exists f,
                 cachedEntry k (freshCacheOf st) = None
                 /\ choose hint (candidates1 label st) = None
                 /\ choose hint (candidates2 label st) = Some f
                 /\ requests st1 = requests st ++ [q1; q2])))
  /\ (forall e st1,
         geocodePlace label hint st = (Err e, st1) ->
         nonEmpty k = true ->
         requests st1 = requests st ++ [q1; q2]
         /\ cachedEntry k (freshCacheOf st1) = None
         /\ forall hint2,
             exists rest,
               requests (snd (geocodePlace label hint2 st1))
               = requests st1 ++ q1 :: rest).
Proof.
  intros Hk _ _ k q1 q2. subst k q1 q2. split.
  - intros p st1 H. split.
    + intros label2 hint2 Hk2.
      destruct (@geocodePlace_again label hint st p st1 H Hk)
        as (Hne & Hv & c & Hc & <-).
      apply geocodePlace_hit; rewrite ?Hk2; assumption.
    + destruct (nonEmpty (keyOf label)) eqn:Hne;
        [|rewrite geocodePlace_eq, Hne in H; discriminate].
      destruct (cachedEntry (keyOf label) (freshCacheOf st)) as [c|] eqn:Hc.
      * left. exists c. split; [reflexivity|].
        rewrite geocodePlace_eq, Hne, Hc in H.
        injection H as _ <-. apply requests_versionChecked.
      * right. rewrite (geocodePlace_miss label hint st Hne Hc) in H.
        cbv zeta in H.
        destruct (choose hint (candidates1 label st)) as [f|].
        -- left. exists f. injection H as _ <-.
           split; [reflexivity|]. split; [reflexivity|].
           apply requests_asked1.
        -- right.
           destruct (choose hint (candidates2 label st)) as [f|];
             [|discriminate].
           exists f. injection H as _ <-. repeat split.
           apply requests_asked2.
  - intros e st1 H Hne.
    destruct (cachedEntry (keyOf label) (freshCacheOf st)) as [c|] eqn:Hc.
    { rewrite geocodePlace_eq, Hne, Hc in H.
      discriminate. }
    rewrite (geocodePlace_miss label hint st Hne Hc) in H. cbv zeta in H.
    destruct (choose hint (candidates1 label st)); [discriminate|].
    destruct (choose hint (candidates2 label st)); [discriminate|].
    injection H as _ <-.
    assert (Hc' : cachedEntry (keyOf label)
                    (freshCacheOf (asked2 label (missState (keyOf label) st)))
                  = None).
    { apply cachedEntry_missState in Hc. exact Hc. }
    split; [apply requests_asked2|]. split; [exact Hc'|].
    intros hint2.
    rewrite (geocodePlace_miss label hint2 _ Hne Hc'). cbv zeta.
    destruct (choose hint2 (candidates1 label _)).
    + exists []. cbn [snd]. unfold stored. simpl.
      rewrite requests_missState. reflexivity.
    + destruct (choose hint2 (candidates2 label _)); cbn [snd];
        exists [PlaceSearch (normalizeQ label)];
        unfold stored, asked2, asked1; simpl;
        rewrite requests_missState, <- app_assoc; reflexivity.
Qed.

(** C3 (as amended). With a finite hint and a label whose queries can be
    sent, when the lookup is not served from the cache: if every surviving
    candidate of the two queries lies farther than 120 km from the hint,
    [geocodePlace] fails, after both queries; if the UK-biased query has a
    candidate within 120 km, [geocodePlace] returns the candidate of that
    query nearest to the hint, and the raw query is not sent; if it has
    none but the raw query has one, [geocodePlace] returns the candidate
    nearest to the hint among all of them.  A label already in the cache
    is returned from it whatever the hint, in the same state. *)
Theorem C3_hint_distance_guard label st :
  nonEmpty (keyOf label) = true ->
  (forall h,
      is_finite (lat h) = true -> is_finite (lng h) = true ->
      sendable label = true ->
      cachedEntry (keyOf label) (freshCacheOf st) = None ->
      let far c := Num.lt 120000 (distanceTo h c) in
      let near c := Num.le (distanceTo h c) 120000 in
      let closerThan f c := Num.lt (distanceTo h c) (distanceTo h f) in
      let q1 := PlaceSearch (normalizeQ (label ++ js ", UK")) in
      let q2 := PlaceSearch (normalizeQ label) in
      let res := geocodePlace label (Some h) st in
      ((forall c,
           In c (candidates1 label st ++ candidates2 label st) -> far c) ->
       fst res = Err (NoMatchFor label)
       /\ requests (snd res) = requests st ++ [q1; q2])
      /\ ((exists c, In c (candidates1 label st) /\ near c) ->
          exists f,
            In f (candidates1 label st)
            /\ fst res = Ok (placeOf label f)
            /\ ~ far f
            /\ (forall c, In c (candidates1 label st) -> ~ closerThan f c)
            /\ requests (snd res) = requests st ++ [q1])
      /\ ((forall c, In c (candidates1 label st) -> far c) ->
          (exists c, In c (candidates2 label st) /\ near c) ->
          exists f,
            In f (candidates2 label st)
            /\ fst res = Ok (placeOf label f)
            /\ ~ far f
            /\ (forall c,
                   In c (candidates1 label st ++ candidates2 label st) ->
                   ~ closerThan f c)
            /\ requests (snd res) = requests st ++ [q1; q2]))
  /\ (forall hint c,
         cachedEntry (keyOf label) (freshCacheOf st) = Some c ->
         geocodePlace label hint st = (Ok (pointOfJson c), st)).
Proof.
  intros Hk. split.
  - intros h Hlat Hlng _ Hmiss far near closerThan q1 q2 res.
    assert (Hh : hintUsable (Some h) = Some h).
    { unfold hintUsable. rewrite Hlat, Hlng. reflexivity. }
    assert (Hsel : forall cands f,
               choose (Some h) cands = Some f ->
               ~ far f /\ forall c, In c cands -> ~ closerThan f c).
    { intros cands f Hf.
      destruct (@choose_nearest _ h cands f Hf Hh) as [Hd Hmin]. split.
      - unfold far, Num.lt. fold MAX_HINT_DISTANCE_M. congruence.
      - intros c Hc. unfold closerThan, Num.lt. rewrite (Hmin c Hc).
        discriminate. }
    unfold res.
    rewrite (geocodePlace_miss label (Some h) st Hk Hmiss). cbv zeta.
    split; [|split].
    + intros Hfar.
      rewrite (@choose_all_far _ h (candidates1 label st) Hh)
        by (intros c Hc; apply Hfar; apply in_or_app; auto).
      rewrite (@choose_all_far _ h (candidates2 label st) Hh)
        by (intros c Hc; apply Hfar; apply in_or_app; auto).
      split; [reflexivity|]. apply requests_asked2.
    + intros (c & Hc & Hnear).
      destruct (@choose_some_near _ h _ c Hh Hc Hnear) as [f Hf].
      rewrite Hf. exists f. split; [eapply choose_In; eassumption|].
      split; [reflexivity|].
      destruct (Hsel _ _ Hf) as [Hnf Hmin].
      split; [assumption|]. split; [assumption|].
      apply requests_asked1.
    + intros Hfar (c & Hc & Hnear).
      rewrite (@choose_all_far _ h (candidates1 label st) Hh) by assumption.
      destruct (@choose_some_near _ h _ c Hh Hc Hnear) as [f Hf].
      rewrite Hf. exists f. split; [eapply choose_In; eassumption|].
      split; [reflexivity|].
      destruct (Hsel _ _ Hf) as [Hnf Hmin]. split; [assumption|].
      split; [|apply requests_asked2].
      intros c' Hc'. apply in_app_or in Hc'. destruct Hc' as [Hc' | Hc'].
      * intros Hcl. apply Hnf. unfold far.
        exact (lt_trans (Hfar c' Hc') Hcl).
      * apply Hmin. assumption.
  - intros hint c Hc.
    apply geocodePlace_hit; [assumption| |].
    + eapply cachedEntry_current. eassumption.
    + rewrite <- (freshCacheOf_current _ (cachedEntry_current _ _ Hc)).
      assumption.
Qed.

End GeocodeClaims.

Module GeocodeExamples.

Import Scenario GeocodeFacts LookupFacts.

Local Open Scope float_scope.

Definition burwellNear : Feature :=
  place "Burwell (Cambridgeshire)" 52.2750 0.3270.

Definition springfield : Point :=
  mkPoint 56.2936 (-3.0708) (Some (js "Springfield (Fife)")).

(** The state after two calls of [geocodePlace] in a row. *)
Definition twice (env : Env) (label : jstring) (st : St) : Res Point * St :=
  @geocodePlace env label None (snd (@geocodePlace env label None st)).

(** A place search that has Ely for every query. *)
Definition elyEverywhere : Env :=
  host (fun _ _ => Some [place "Ely" 52.3995 0.2622])
       (fun _ _ _ _ _ => None).

(** The label [__v] shares its key with the version tag of the cache: the
    place stored under it is taken for a stale version by the next call,
    which asks again. *)
Remark version_tag_is_asked_again :
  fst (twice elyEverywhere (js "__v") emptySt)
  = Ok (mkPoint 52.3995 0.2622 (Some (js "Ely")))
  /\ requests (snd (twice elyEverywhere (js "__v") emptySt))
     = [PlaceSearch (js "__v, UK"); PlaceSearch (js "__v, UK")].
Proof. split; vm_compute; reflexivity. Qed.

End GeocodeExamples.

(** Two lookups in a row and more than one request: the first call takes
    two queries when the UK-biased one has no match, and a call that fails
    stores nothing, so the next one asks again. *)
Lemma C8_two_lookups_several_requests :
  (fst (GeocodeExamples.twice Scenario.online (js "Leicester")
          Scenario.emptySt)
   = Ok ResolverExamples.leicester
   /\ requests (snd (GeocodeExamples.twice Scenario.online (js "Leicester")
                       Scenario.emptySt))
      = [PlaceSearch (js "Leicester, UK"); PlaceSearch (js "Leicester")])
  /\ requests (snd (GeocodeExamples.twice Scenario.online (js "Paris")
                      Scenario.emptySt))
     = [PlaceSearch (js "Paris, UK"); PlaceSearch (js "Paris");
        PlaceSearch (js "Paris, UK"); PlaceSearch (js "Paris")].
Proof.
  repeat split; vm_compute; reflexivity.
Qed.

Lemma C8_second_lookup_witness :
  @geocodePlace Scenario.online (js "  LEICESTER ") (Some Scenario.newmarket)
    (snd (@geocodePlace Scenario.online (js "Leicester") None
            Scenario.emptySt))
  = (Ok ResolverExamples.leicester,
     snd (@geocodePlace Scenario.online (js "Leicester") None
            Scenario.emptySt))
  /\ exists rest,
      requests (snd (GeocodeExamples.twice Scenario.online (js "Paris")
                       Scenario.emptySt))
      = requests (snd (@geocodePlace Scenario.online (js "Paris") None
                         Scenario.emptySt))
        ++ PlaceSearch (js "Paris, UK") :: rest.
Proof.
  split.
  - apply (proj1 (proj1 (@C8_second_lookup_served_from_cache Scenario.online
                           (js "Leicester") None Scenario.emptySt
                           ltac:(vm_compute; discriminate)
                           ltac:(vm_compute; reflexivity)
                           ltac:(vm_compute; reflexivity))
                    ResolverExamples.leicester _
                    ltac:(vm_compute; reflexivity))).
    vm_compute. reflexivity.
  - apply (proj2 (proj2 (proj2 (@C8_second_lookup_served_from_cache
                                  Scenario.online (js "Paris") None
                                  Scenario.emptySt
                                  ltac:(vm_compute; discriminate)
                                  ltac:(vm_compute; reflexivity)
                                  ltac:(vm_compute; reflexivity))
                           (NoMatchFor (js "Paris")) _
                           ltac:(vm_compute; reflexivity)
                           ltac:(vm_compute; reflexivity)))
             None).
Defined.

(** A place stored by an earlier lookup is returned whatever the hint:
    Springfield (Fife) is some 500 km from Newmarket, no request is made,
    and the candidates the place search has for the label are all farther
    than 120 km from the hint. *)
Lemma C3_cached_place_ignores_hint :
  (forall c,
      In c (@LookupFacts.candidates1 Scenario.online (js "Springfield")
              Scenario.springfieldCached
            ++ @LookupFacts.candidates2 Scenario.online (js "Springfield")
                 Scenario.springfieldCached) ->
      Num.lt 120000
        (@GeocodeFacts.distanceTo Scenario.online Scenario.newmarket c))
  /\ @geocodePlace Scenario.online (js "Springfield")
       (Some Scenario.newmarket) Scenario.springfieldCached
     = (Ok GeocodeExamples.springfield, Scenario.springfieldCached)
  /\ Num.lt 120000
       (@haversineMetersSimple Scenario.online Scenario.newmarket
          GeocodeExamples.springfield).
Proof.
  split; [|split].
  - intros c Hc. vm_compute in Hc.
    destruct Hc as [<- | [<- | []]]; vm_compute; reflexivity.
  - vm_compute. reflexivity.
  - vm_compute. reflexivity.
Qed.

(** From Newmarket: Springfield, whose only candidate is in Fife, fails
    after both queries; Burwell resolves to the one in Cambridgeshire, not
    to the first candidate, after one query; and Springfield once stored is
    returned as it is. *)
Lemma C3_hint_distance_witness :
  (fst (@geocodePlace Scenario.online (js "Springfield")
          (Some Scenario.newmarket) Scenario.emptySt)
   = Err (NoMatchFor (js "Springfield"))
   /\ requests (snd (@geocodePlace Scenario.online (js "Springfield")
                       (Some Scenario.newmarket) Scenario.emptySt))
      = [PlaceSearch (js "Springfield, UK"); PlaceSearch (js "Springfield")])
  /\ (exists f,
         In f (@LookupFacts.candidates1 Scenario.online (js "Burwell")
                 Scenario.emptySt)
         /\ fst (@geocodePlace Scenario.online (js "Burwell")
                   (Some Scenario.newmarket) Scenario.emptySt)
            = Ok (LookupFacts.placeOf (js "Burwell") f)
         /\ ~ Num.lt 120000
              (@GeocodeFacts.distanceTo Scenario.online Scenario.newmarket f)
         /\ (forall c,
                In c (@LookupFacts.candidates1 Scenario.online (js "Burwell")
                        Scenario.emptySt) ->
                ~ Num.lt
                    (@GeocodeFacts.distanceTo Scenario.online
                       Scenario.newmarket c)
                    (@GeocodeFacts.distanceTo Scenario.online
                       Scenario.newmarket f))
         /\ requests (snd (@geocodePlace Scenario.online (js "Burwell")
                             (Some Scenario.newmarket) Scenario.emptySt))
            = [PlaceSearch (js "Burwell, UK")])
  /\ @geocodePlace Scenario.online (js "Springfield")
       (Some Scenario.newmarket) Scenario.springfieldCached
     = (Ok GeocodeExamples.springfield, Scenario.springfieldCached).
Proof.
  split; [|split].
  - apply (proj1 (proj1 (@C3_hint_distance_guard Scenario.online
                           (js "Springfield") Scenario.emptySt
                           ltac:(vm_compute; reflexivity))
                    Scenario.newmarket eq_refl eq_refl
                    ltac:(vm_compute; reflexivity)
                    ltac:(vm_compute; reflexivity))).
    intros c Hc. vm_compute in Hc.
    destruct Hc as [<- | [<- | []]]; vm_compute; reflexivity.
  - apply (proj1 (proj2 (proj1 (@C3_hint_distance_guard Scenario.online
                                  (js "Burwell") Scenario.emptySt
                                  ltac:(vm_compute; reflexivity))
                           Scenario.newmarket eq_refl eq_refl
                           ltac:(vm_compute; reflexivity)
                           ltac:(vm_compute; reflexivity)))).
    exists GeocodeExamples.burwellNear. split.
    + vm_compute. auto.
    + vm_compute. reflexivity.
  - exact (proj2 (@C3_hint_distance_guard Scenario.online
                    (js "Springfield") Scenario.springfieldCached
                    ltac:(vm_compute; reflexivity))
             (Some Scenario.newmarket)
             (JObj [(js "lat", JNum 56.2936); (js "lng", JNum (-3.0708));
                    (js "displayName", JStr (js "Springfield (Fife)"))])
             ltac:(vm_compute; reflexivity)).
Defined.

(** ** The route cache: a bad entry is dropped and fetched again *)

(** The bounding box of the positions lies entirely outside
    [lat in [45,62]], [lng in [-12,5]]: it is beside it along one axis. *)
Definition entirelyOutside (cs : list LngLat) : Prop :=
  (forall c, In c cs -> Num.lt (snd c) 45)
  \/ (forall c, In c cs -> Num.lt 62 (snd c))
  \/ (forall c, In c cs -> Num.lt (fst c) (-12))
  \/ (forall c, In c cs -> Num.lt 5 (fst c)).

Section RouteClaims.

Context {env : Env}.

Import StrFacts PropsFacts NumFacts LookupFacts RouteFacts.

Local Open Scope float_scope.

(** A well-formed polyline has a first position. *)
Lemma looksSane_first coords :
  looksSane coords = true -> exists c, In c (lngLatsOf coords).
Proof.
  destruct coords as [ | | | |[|c cs]| ]; try discriminate.
  intros _. exists (lngLatOf c). left. reflexivity.
Qed.

Lemma entirelyOutside_not_within coords :
  looksSane coords = true ->
  entirelyOutside (lngLatsOf coords) ->
  within (extent (lngLatsOf coords)) = false.
Proof.
  intros Hs Hout.
  destruct (within (extent (lngLatsOf coords))) eqn:E; [|reflexivity].
  exfalso. destruct (looksSane_first _ Hs) as [c Hc].
  destruct (within_extent _ E c Hc) as (H1 & H2 & H3 & H4).
  destruct Hout as [O | [O | [O | O]]]; specialize (O c Hc).
  - exact (lt_irrefl (lt_trans H1 O)).
  - exact (lt_irrefl (lt_trans H2 O)).
  - exact (lt_irrefl (lt_trans H3 O)).
  - exact (lt_irrefl (lt_trans H4 O)).
Qed.

(** C9. When the polyline stored for a pair of coordinates is malformed, or
    well formed with a bounding box entirely outside [lat in [45,62]],
    [lng in [-12,5]], [osrmRoute] deletes the entry and writes the cache
    back, goes on exactly as a lookup on the cache without the entry (a
    miss), sends the request to the routing service, and returns what the
    service answers, not the stored value. *)
Theorem C9_bad_cached_route_is_refetched a b st coords :
  getProp (routeKey a b) (readJSON (osrmStore st)) = Some coords ->
  truthy coords = true ->
  looksSane coords = false \/ entirelyOutside (lngLatsOf coords) ->
  let k := routeKey a b in
  let dropped :=
    setOsrmStore (Some (delProp k (readJSON (osrmStore st)))) st in
  getProp k (readJSON (osrmStore dropped)) = None
  /\ osrmRoute a b st
     = osrmFetch a b k (delProp k (readJSON (osrmStore st))) dropped
  /\ osrmRoute a b st = osrmRoute a b dropped
  /\ requests (snd (osrmRoute a b st))
     = requests st ++ [RouteRequest (lng a) (lat a) (lng b) (lat b)]
  /\ fst (osrmRoute a b st) = Ok (routed a b st).
Proof.
  intros Hget Ht Hbad k dropped.
  assert (Hmiss : cachedRoute k (readJSON (osrmStore st)) = None).
  { unfold cachedRoute. fold k in Hget. rewrite Hget, Ht. simpl.
    destruct Hbad as [Hs | Hout].
    - rewrite Hs. reflexivity.
    - destruct (looksSane coords) eqn:Hs; [|reflexivity].
      rewrite (entirelyOutside_not_within _ Hs Hout). reflexivity. }
  assert (Hgone : getProp k (readJSON (osrmStore dropped)) = None).
  { simpl. apply getProp_delProp_same. }
  assert (Hrun : osrmRoute a b st
                 = osrmFetch a b k (delProp k (readJSON (osrmStore st)))
                             dropped).
  { rewrite osrmRoute_eq. fold k. rewrite Hmiss.
    unfold droppedCache, droppedState. fold k in Hget. rewrite Hget, Ht.
    reflexivity. }
  split; [exact Hgone|]. split; [exact Hrun|]. split; [|split].
  - rewrite Hrun. rewrite (osrmRoute_eq a b dropped). fold k.
    unfold cachedRoute, droppedCache, droppedState. rewrite Hgone.
    reflexivity.
  - rewrite Hrun, osrmFetch_eq.
    destruct (routed a b dropped); reflexivity.
  - rewrite Hrun, osrmFetch_eq. reflexivity.
Qed.

End RouteClaims.

Module RouteExamples.

Import Scenario.

Local Open Scope float_scope.

Definition ely : Point := mkPoint 52.3995 0.2622 None.

Definition newmarketToEly : list LngLat :=
  [(0.4081, 52.2439); (0.3400, 52.3300); (0.2622, 52.3995)].

(** A routing service that knows the road from Newmarket to Ely. *)
Definition routedHost : Env :=
  host (fun _ q => Some (answer gazetteer q))
       (fun _ _ _ _ _ => Some newmarketToEly).

(** A store whose polyline for Newmarket to Ely lies in the Pacific, and
    one whose entry is not a list of positions. *)
Definition strayStore : St :=
  mkSt None
       (Some [(js "0.408100,52.243900|0.262200,52.399500",
               JArr [JArr [JNum (-150); JNum 10];
                     JArr [JNum (-151); JNum 11]])])
       [] [] [] None 0.

Definition brokenStore : St :=
  mkSt None
       (Some [(js "0.408100,52.243900|0.262200,52.399500",
               JArr [JNum 1; JNum 2])])
       [] [] [] None 0.

End RouteExamples.

Lemma C9_bad_cached_route_witness :
  (@osrmRoute RouteExamples.routedHost Scenario.newmarket RouteExamples.ely
     RouteExamples.strayStore
   = @osrmRoute RouteExamples.routedHost Scenario.newmarket RouteExamples.ely
       (setOsrmStore (Some []) RouteExamples.strayStore)
   /\ fst (@osrmRoute RouteExamples.routedHost Scenario.newmarket
             RouteExamples.ely RouteExamples.strayStore)
      = Ok (Some RouteExamples.newmarketToEly))
  /\ requests (snd (@osrmRoute RouteExamples.routedHost Scenario.newmarket
                      RouteExamples.ely RouteExamples.brokenStore))
     = [RouteRequest 0.4081 52.2439 0.2622 52.3995].
Proof.
  split.
  - pose proof (@C9_bad_cached_route_is_refetched RouteExamples.routedHost
                  Scenario.newmarket RouteExamples.ely
                  RouteExamples.strayStore
                  (JArr [JArr [JNum (-150); JNum 10];
                         JArr [JNum (-151); JNum 11]])
                  eq_refl eq_refl) as H.
    destruct H as (_ & _ & H3 & _ & H5).
    + right. left. intros c Hc. vm_compute in Hc.
      destruct Hc as [<- | [<- | []]]; vm_compute; reflexivity.
    + split; [exact H3 | exact H5].
  - pose proof (@C9_bad_cached_route_is_refetched RouteExamples.routedHost
                  Scenario.newmarket RouteExamples.ely
                  RouteExamples.brokenStore (JArr [JNum 1; JNum 2])
                  eq_refl eq_refl (or_introl eq_refl)) as H.
    destruct H as (_ & _ & _ & H4 & _). exact H4.
Defined.

(** ** The path builder: failures, the fallback and the first anchor *)

Section DrawClaims.

Context {env : Env}.

Import LookupFacts RouteFacts DrawFacts.

(** C6. When the [try] block of the segment loop fails for a segment
    (a missing label, no match, a bad endpoint, an unrealistic jump), the
    anchor [prev] is what it was before the segment, [failedSegments] is
    one more, no line is added, and the loop goes on with the next
    segment from that state. *)
Theorem C6_failed_segment_keeps_anchor r segs i seg st e st' :
  drawSegment r segs i seg st = (Err e, st') ->
  prev st' = prev st
  /\ prev (segmentStep r segs i seg st) = prev st
  /\ failedSegments (segmentStep r segs i seg st) = failedSegments st + 1
  /\ routeLayer (segmentStep r segs i seg st) = routeLayer st
  /\ forall rest,
      segmentLoop r segs i (seg :: rest) st
      = segmentLoop r segs (S i) rest (segmentStep r segs i seg st).
Proof.
  intros H. pose proof (drawSegment_cases _ _ _ _ _ H) as Hc.
  destruct Hc as [(e' & _ & Hl & _ & Hp & Hf) | (Hok & _)];
    [|discriminate].
  assert (E : segmentStep r segs i seg st
              = setFailedSegments (failedSegments st' + 1) st').
  { unfold segmentStep. rewrite H. reflexivity. }
  split; [exact Hp|].
  split; [rewrite E; exact Hp|].
  split; [rewrite E; simpl; rewrite Hf; reflexivity|].
  split; [rewrite E; exact Hl|].
  intros rest. reflexivity.
Qed.

(** C7. When the segment loop of a route ends, the lines it added and the
    failures it counted add up to the segments of the route.  If no
    segment failed, nothing more is drawn.  If some segment failed and the
    two anchors of the route resolve, exactly one line is added after the
    lines of the segments, in the muted colour, along the routed path
    between the anchors or straight from one to the other. *)
Theorem C7_one_fallback_line_after_failures r st0 :
  let st := afterSegments r st0 in
  (exists added,
      routeLayer st = routeLayer st0 ++ added
      /\ length added + failedSegments st = length (segments r))
  /\ (failedSegments st = 0 ->
      routeLayer (drawRoute r st0) = routeLayer st)
  /\ (0 < failedSegments st ->
      forall s f st1,
        fallbackAnchors r st = (Ok (s, f), st1) ->
        exists coords dash,
          fst (osrmRoute s f st1) = Ok coords
          /\ routeLayer (drawRoute r st0)
             = routeLayer st
               ++ [mkPolyline (fallbackPoints s f coords) (js "#9aa0a6") 5
                              0.6 dash]).
Proof.
  intros st. split; [|split].
  - unfold st, afterSegments.
    destruct (segmentLoop_count r (segments r) (segments r) 0
                (setFailedSegments 0 (snd (initPrev r st0))))
      as (added & Hl & Hn).
    exists added. rewrite Hl. simpl. rewrite initPrev_layer.
    split; [reflexivity|]. simpl in Hn. exact Hn.
  - intros H0. unfold drawRoute. fold st.
    unfold routeFallback, bind, gets. rewrite H0. reflexivity.
  - intros Hpos s f st1 Ha. unfold drawRoute. fold st.
    unfold routeFallback, bind, gets, tryCatch.
    replace (Nat.ltb 0 (failedSegments st)) with true
      by (symmetry; apply Nat.ltb_lt; assumption).
    rewrite Ha. cbn [fst snd].
    destruct (fallbackAnchors_ok _ _ Ha) as (Hs & Hf & Hl & _).
    destruct (fallbackLine_ok s f st1 Hs Hf)
      as (st2 & coords & dash & -> & Hc & Hl2).
    exists coords, dash. split; [assumption|].
    simpl. rewrite Hl2, Hl. reflexivity.
Qed.

End DrawClaims.

Module DrawExamples.

Import Scenario.

Local Open Scope float_scope.

Definition seg (road from to : string) : Segment :=
  mkSegment (js road) (js from) (js to) RiskL None None None [].

(** Three segments from Newmarket: to Burwell, on to Springfield (which the
    place search only knows in Fife), and from Burwell to Ely. *)
Definition viaBurwell : Route :=
  mkRoute (js "newmarket-ely") (js "Newmarket to Ely") []
          (js "Newmarket CB8 7NR") [] None (js "Ely") [] None
          [seg "B1102" "Newmarket CB8 7NR" "Burwell";
           seg "B1102" "Burwell" "Springfield";
           seg "A142" "Burwell" "Ely"].

Definition burwell : Point :=
  mkPoint 52.2750 0.3270 (Some (js "Burwell (Cambridgeshire)")).

(** The state in which the second segment is drawn. *)
Definition beforeSecond : St :=
  segmentStep (env := online) viaBurwell (segments viaBurwell) 0
    (seg "B1102" "Newmarket CB8 7NR" "Burwell")
    (setFailedSegments 0 (snd (@initPrev online viaBurwell emptySt))).

(** A route whose start is pinned on the map and has no start label. *)
Definition pinnedStart : Route :=
  mkRoute (js "pinned") (js "Pinned start") [] [] []
          (Some (mkPoint 52.2439 0.4081 None)) (js "Ely") [] None
          [seg "A142" "Newmarket CB8 7NR" "Ely"].

End DrawExamples.

(** The second segment of the example fails in the place search; the anchor
    stays at Burwell and the count goes to one. *)
Lemma C6_failed_segment_witness :
  prev DrawExamples.beforeSecond = Some DrawExamples.burwell
  /\ prev (segmentStep (env := Scenario.online) DrawExamples.viaBurwell
             (segments DrawExamples.viaBurwell) 1
             (DrawExamples.seg "B1102" "Burwell" "Springfield")
             DrawExamples.beforeSecond)
     = prev DrawExamples.beforeSecond
  /\ failedSegments (segmentStep (env := Scenario.online)
                       DrawExamples.viaBurwell
                       (segments DrawExamples.viaBurwell) 1
                       (DrawExamples.seg "B1102" "Burwell" "Springfield")
                       DrawExamples.beforeSecond)
     = failedSegments DrawExamples.beforeSecond + 1.
Proof.
  split; [vm_compute; reflexivity|].
  pose proof (@C6_failed_segment_keeps_anchor Scenario.online
                DrawExamples.viaBurwell (segments DrawExamples.viaBurwell) 1
                (DrawExamples.seg "B1102" "Burwell" "Springfield")
                DrawExamples.beforeSecond
                (NoMatchFor (js "Springfield"))
                (snd (@drawSegment Scenario.online DrawExamples.viaBurwell
                        (segments DrawExamples.viaBurwell) 1
                        (DrawExamples.seg "B1102" "Burwell" "Springfield")
                        DrawExamples.beforeSecond))) as H.
  destruct H as (_ & H2 & H3 & _).
  - vm_compute. reflexivity.
  - split; [exact H2 | exact H3].
Defined.

(** The example route: the first and third segments are drawn, the second
    fails, and one fallback line from Newmarket to Ely follows. *)
Lemma C7_fallback_witness :
  failedSegments (@afterSegments Scenario.online DrawExamples.viaBurwell
                    Scenario.emptySt) = 1
  /\ length (routeLayer (@afterSegments Scenario.online
                           DrawExamples.viaBurwell Scenario.emptySt)) = 2
  /\ exists coords dash,
      fst (@osrmRoute Scenario.online
             (mkPoint 52.2439 0.4081 (Some (js "Newmarket")))
             (mkPoint 52.3995 0.2622 (Some (js "Ely")))
             (snd (@fallbackAnchors Scenario.online DrawExamples.viaBurwell
                     (@afterSegments Scenario.online DrawExamples.viaBurwell
                        Scenario.emptySt))))
      = Ok coords
      /\ routeLayer (@drawRoute Scenario.online DrawExamples.viaBurwell
                       Scenario.emptySt)
         = routeLayer (@afterSegments Scenario.online DrawExamples.viaBurwell
                         Scenario.emptySt)
           ++ [mkPolyline
                 (DrawFacts.fallbackPoints
                    (mkPoint 52.2439 0.4081 (Some (js "Newmarket")))
                    (mkPoint 52.3995 0.2622 (Some (js "Ely"))) coords)
                 (js "#9aa0a6") 5 0.6 dash].
Proof.
  split; [vm_compute; reflexivity|].
  split; [vm_compute; reflexivity|].
  apply (proj2 (proj2 (@C7_one_fallback_line_after_failures Scenario.online
                         DrawExamples.viaBurwell Scenario.emptySt))).
  - vm_compute. lia.
  - vm_compute. reflexivity.
Defined.

(** C2 (the code against the claim). A route whose start is pinned inside
    the envelope but has neither start postcode nor start label: the chain
    starts without an anchor, although the fallback of the same route does
    take the pinned start. *)
Theorem C2_pinned_start_without_label_is_ignored :
  pinned (startCoords DrawExamples.pinnedStart)
  = Some (mkPoint 52.2439 0.4081 None)
  /\ prev (snd (@initPrev Scenario.online DrawExamples.pinnedStart
                  Scenario.emptySt)) = None
  /\ (forall finish st1,
         @fallbackAnchors Scenario.online DrawExamples.pinnedStart
           Scenario.emptySt = (Ok finish, st1) ->
         fst finish = mkPoint 52.2439 0.4081 None).
Proof.
  split; [vm_compute; reflexivity|].
  split; [vm_compute; reflexivity|].
  intros finish st1 H. vm_compute in H. injection H as <- _. reflexivity.
Qed.

(** * Part V: further properties of the code *)

(** ** White space *)

Module TrimFacts.

Import StrFacts.

(** Only white space. *)
Definition blank (s : jstring) : Prop := forallb isWhiteSpace s = true.

Lemma blank_rev s : blank s -> blank (rev s).
Proof.
  unfold blank. rewrite !forallb_forall. intros H x Hx.
  apply H. apply in_rev. assumption.
Qed.

Lemma trimStart_split s :
  exists pre, s = pre ++ trimStart s /\ blank pre.
Proof.
  induction s as [|x s IH]; simpl.
  - exists []. split; reflexivity.
  - destruct (isWhiteSpace x) eqn:E.
    + destruct IH as (pre & E1 & E2). exists (x :: pre). split.
      * simpl. f_equal. exact E1.
      * unfold blank. simpl. rewrite E. exact E2.
    + exists []. split; reflexivity.
Qed.

Lemma trimStart_head s :
  trimStart s = []
  \/ exists x t, trimStart s = x :: t /\ isWhiteSpace x = false.
Proof.
  induction s as [|x s IH]; simpl.
  - left. reflexivity.
  - destruct (isWhiteSpace x) eqn:E; [exact IH|].
    right. exists x, s. auto.
Qed.

Lemma trimStart_blank s : blank s -> trimStart s = [].
Proof.
  unfold blank. induction s as [|x s IH]; simpl; [reflexivity|].
  rewrite andb_true_iff. intros [-> H]. auto.
Qed.

Lemma trimEnd_split s :
  exists post, s = trimEnd s ++ post /\ blank post.
Proof.
  unfold trimEnd. destruct (trimStart_split (rev s)) as (pre & E & Hb).
  exists (rev pre). split; [|apply blank_rev; assumption].
  rewrite <- rev_app_distr, <- E. symmetry. apply rev_involutive.
Qed.

(** What [trim] removes is white space. *)
Lemma trim_split s :
  exists pre post, s = pre ++ trim s ++ post /\ blank pre /\ blank post.
Proof.
  destruct (trimStart_split s) as (pre & E1 & H1).
  destruct (trimEnd_split (trimStart s)) as (post & E2 & H2).
  exists pre, post. unfold trim. rewrite <- E2. auto.
Qed.

(** What [trim] leaves neither starts nor ends with white space. *)
Lemma trim_cases s :
  trim s = []
  \/ (exists x, trim s = [x] /\ isWhiteSpace x = false)
  \/ (exists x m y,
         trim s = x :: m ++ [y]
         /\ isWhiteSpace x = false /\ isWhiteSpace y = false).
Proof.
  unfold trim.
  destruct (trimStart_head s) as [-> | (x & t & -> & Hx)];
    [left; reflexivity|].
  right. unfold trimEnd.
  destruct (trimStart_split (rev (x :: t))) as (pre & E & Hb).
  destruct (trimStart_head (rev (x :: t))) as [E0 | (y & r & E0 & Hy)].
  - exfalso. rewrite E0, app_nil_r in E.
    unfold blank in Hb. rewrite forallb_forall in Hb.
    assert (Hin : In x pre).
    { rewrite <- E. apply in_rev. rewrite rev_involutive. left. reflexivity. }
    rewrite (Hb x Hin) in Hx. discriminate.
  - rewrite E0. rewrite E0 in E.
    assert (E' : x :: t = rev (y :: r) ++ rev pre).
    { rewrite <- rev_app_distr, <- E. symmetry. apply rev_involutive. }
    simpl in E'. simpl.
    destruct (rev r) as [|z m] eqn:Er.
    + simpl in E'. injection E' as -> _. left. exists y. auto.
    + simpl in E'. injection E' as -> _. right. exists z, m, y. auto.
Qed.

Lemma trim_idem s : trim (trim s) = trim s.
Proof.
  destruct (trim_cases s)
    as [-> | [(x & -> & Hx) | (x & m & y & -> & Hx & Hy)]].
  - reflexivity.
  - apply trim_single. assumption.
  - apply trim_id; assumption.
Qed.

Lemma trim_blank s : blank s -> trim s = [].
Proof. intros H. unfold trim. rewrite trimStart_blank; auto. Qed.

End TrimFacts.

(** ** Searching and replacing *)

Module SearchFacts.

Import RegexFacts StrFacts.

(** A successful search, in full: what is skipped, what is matched and
    what is left. *)
Lemma searchFrom_found r : forall a b f,
  searchFrom r b a = Some f ->
  exists pre w a' c,
    a = pre ++ w ++ a'
    /\ Matches r (rev pre ++ b) w a' [] c
    /\ f = mkFound (mkPos (rev pre ++ b) (w ++ a'))
                   (mkPos (rev w ++ rev pre ++ b) a') c.
Proof.
  induction a as [|x t IH]; intros b f; simpl.
  - destruct (matchAt r (mkPos b [])) as [f'|] eqn:E; [|discriminate].
    intros H. injection H as <-. apply matchAt_sound in E.
    destruct E as (w & a & c & E1 & Hm & ->).
    exists [], w, a, c. simpl. rewrite E1. auto.
  - destruct (matchAt r (mkPos b (x :: t))) as [f'|] eqn:E.
    + intros H. injection H as <-. apply matchAt_sound in E.
      destruct E as (w & a & c & E1 & Hm & ->).
      exists [], w, a, c. simpl. rewrite E1. auto.
    + intros H. apply IH in H.
      destruct H as (pre & w & a' & c & E1 & Hm & ->).
      exists (x :: pre), w, a', c. simpl. rewrite <- !app_assoc. simpl.
      rewrite E1. auto.
Qed.

(** A match somewhere in the subject makes the search succeed. *)
Lemma searchFrom_complete r w a' c : forall pre b,
  Matches r (rev pre ++ b) w a' [] c ->
  searchFrom r b (pre ++ w ++ a') <> None.
Proof.
  assert (base : forall b s,
             matchAt r (mkPos b s) <> None -> searchFrom r b s <> None).
  { intros b s H. destruct s; simpl;
      destruct (matchAt r _); congruence. }
  induction pre as [|x pre IH]; intros b Hm.
  - simpl in *. apply base. unfold matchAt.
    apply run_complete with (c' := c); [assumption | discriminate].
  - simpl. destruct (matchAt r _); [discriminate|].
    apply IH. simpl in Hm. rewrite <- app_assoc in Hm. exact Hm.
Qed.

(** One step of a global replacement. *)
Lemma replaceFrom_step fuel r b a by_ f :
  searchFrom r b a = Some f ->
  exists pre w a' c,
    a = pre ++ w ++ a'
    /\ Matches r (rev pre ++ b) w a' [] c
    /\ replaceFrom (S fuel) r b a by_
       = pre ++ by_ ++
         match w, a' with
         | [], x :: t =>
             x :: replaceFrom fuel r (x :: rev pre ++ b) t by_
         | [], [] => []
         | _ :: _, rest => replaceFrom fuel r (rev w ++ rev pre ++ b) rest by_
         end.
Proof.
  intros H. destruct (searchFrom_found _ _ _ H)
    as (pre & w & a' & c & E & Hm & ->).
  exists pre, w, a', c. split; [assumption|]. split; [assumption|].
  simpl. rewrite H. unfold matched. cbn [m_start m_end ahead behind].
  replace (length a - length (w ++ a')) with (length pre)
    by (rewrite E, !length_app; lia).
  replace (length (w ++ a') - length a') with (length w)
    by (rewrite length_app; lia).
  rewrite E, firstn_app, firstn_all, Nat.sub_diag, app_nil_r.
  rewrite firstn_app, firstn_all, Nat.sub_diag, app_nil_r.
  destruct w; reflexivity.
Qed.

(** A global replacement keeps every property of single code units that
    the subject and the replacement share. *)
Lemma replaceFrom_forall (P : N -> bool) r by_ :
  forallb P by_ = true ->
  forall fuel b a,
    forallb P a = true -> forallb P (replaceFrom fuel r b a by_) = true.
Proof.
  intros Hby. induction fuel as [|fuel IH]; intros b a Ha; [exact Ha|].
  destruct (searchFrom r b a) as [f|] eqn:E.
  - destruct (@replaceFrom_step fuel r b a by_ f E)
      as (pre & w & a' & c & Ea & _ & ->).
    rewrite Ea, !forallb_app in Ha.
    apply andb_true_iff in Ha. destruct Ha as [Hp Ha].
    apply andb_true_iff in Ha. destruct Ha as [Hw Ha'].
    rewrite !forallb_app, Hp, Hby. simpl.
    destruct w as [|y w'].
    + destruct a' as [|x t]; [reflexivity|].
      simpl in Ha'. apply andb_true_iff in Ha'. destruct Ha' as [Hx Ht].
      simpl. rewrite Hx. apply IH. assumption.
    + apply IH. assumption.
  - simpl. rewrite E. exact Ha.
Qed.

Lemma replaceAll_forall (P : N -> bool) r s by_ :
  forallb P s = true -> forallb P by_ = true ->
  forallb P (replaceAll r s by_) = true.
Proof. intros Hs Hby. apply replaceFrom_forall; assumption. Qed.

(** A search that finds nothing leaves the subject as it is. *)
Lemma replaceAll_none r s by_ :
  search r s = None -> replaceAll r s by_ = s.
Proof.
  unfold replaceAll, search. intros H. simpl. rewrite H. reflexivity.
Qed.

(** The search for one code unit of a class. *)
Lemma searchFrom_Cls_none (p : N -> bool) : forall a b,
  searchFrom (Cls p) b a = None -> forallb (fun x => negb (p x)) a = true.
Proof.
  induction a as [|x t IH]; intros b; simpl; [reflexivity|].
  unfold matchAt. simpl. destruct (p x); [discriminate|].
  intros H. simpl. eapply IH. eassumption.
Qed.

Lemma searchFrom_Cls_some (p : N -> bool) : forall a b f,
  searchFrom (Cls p) b a = Some f ->
  exists pre x a',
    a = pre ++ x :: a'
    /\ forallb (fun x => negb (p x)) pre = true
    /\ p x = true
    /\ f = mkFound (mkPos (rev pre ++ b) (x :: a'))
                   (mkPos (x :: rev pre ++ b) a') [].
Proof.
  induction a as [|x t IH]; intros b f; simpl.
  - unfold matchAt. simpl. discriminate.
  - unfold matchAt. simpl. destruct (p x) eqn:E.
    + intros H. injection H as <-. exists [], x, t. auto.
    + intros H. apply IH in H.
      destruct H as (pre & y & a' & -> & Hpre & Hy & ->).
      exists (x :: pre), y, a'. simpl. rewrite E, <- !app_assoc. auto.
Qed.

(** Replacing every code unit of a class leaves none of them, when the
    replacement has none. *)
Lemma replaceFrom_Cls (p : N -> bool) by_ :
  forallb (fun x => negb (p x)) by_ = true ->
  forall fuel b a,
    length a < fuel ->
    forallb (fun x => negb (p x)) (replaceFrom fuel (Cls p) b a by_) = true.
Proof.
  intros Hby. induction fuel as [|fuel IH]; intros b a Hl; [lia|].
  simpl. destruct (searchFrom (Cls p) b a) as [f|] eqn:E.
  - apply searchFrom_Cls_some in E.
    destruct E as (pre & x & a' & -> & Hpre & Hx & ->).
    unfold matched. cbn [m_start m_end ahead behind].
    replace (length (pre ++ x :: a') - length (x :: a')) with (length pre)
      by (rewrite length_app; lia).
    replace (length (x :: a') - length a') with 1
      by (change (length (x :: a')) with (S (length a')); lia).
    rewrite firstn_app, firstn_all, Nat.sub_diag, app_nil_r.
    cbn [firstn]. rewrite !forallb_app, Hpre, Hby. simpl.
    apply IH. rewrite length_app in Hl. simpl in Hl. lia.
  - eapply searchFrom_Cls_none. eassumption.
Qed.

End SearchFacts.

(** ** The query sent to the place search *)

Module QueryFacts.

Import RegexFacts StrFacts ClassifierFacts SearchFacts.

(** No code unit of the string is a slash. *)
Definition slashFree (s : jstring) : Prop :=
  forallb (fun c => negb (N.eqb (code "/") c)) s = true.

(** [normalizeQ] without its sixth replacement, the one of [R/A]. *)
Definition normalizeQ_without_RA (q : jstring) : jstring :=
  let s := trim q in
  if negb (nonEmpty s) then s
  else
    let s1 := replaceAll (chr "/") s (js " ") in
    let s2 := replaceAll (Seq [Bnd; wordI "near"; Bnd]) s1 (js " ") in
    let s3 := replaceAll (Seq [Bnd; wordI "Jn"; Bnd]) s2 (js "Junction") in
    let s4 := replaceAll (Seq [Bnd; wordI "Jnc"; Bnd]) s3 (js "Junction") in
    let s5 := replaceAll (Seq [Bnd; wordI "Rdbt"; Bnd]) s4 (js "Roundabout") in
    replaceAll (Seq [space; space; Star space]) s5 (js " ").

Lemma slashFree_first s : slashFree (replaceAll (chr "/") s (js " ")).
Proof.
  unfold slashFree, replaceAll, chr.
  apply (@replaceFrom_Cls (N.eqb (code "/")) (js " ")); [reflexivity | lia].
Qed.

Lemma slashFree_replaceAll r s by_ :
  slashFree s -> slashFree by_ -> slashFree (replaceAll r s by_).
Proof. unfold slashFree. apply replaceAll_forall. Qed.

(** The pattern of [R/A] finds nothing in a string without a slash. *)
Lemma search_RA_none s :
  slashFree s ->
  search (Seq [Bnd; chrI "R"; chr "/"; chrI "A"; Bnd]) s = None.
Proof.
  intros Hs. unfold search.
  destruct (searchFrom _ [] s) as [f|] eqn:E; [|reflexivity].
  exfalso. apply searchFrom_found in E.
  destruct E as (pre & w & a' & c & -> & Hm & _).
  cbn [Seq] in Hm. unfold chr, chrI in Hm. invm.
  match goal with
  | H : N.eqb _ ?x = true |- _ =>
      match type of H with
      | context [upperAscii] => fail 1
      | _ => apply N.eqb_eq in H; subst x
      end
  end.
  unfold slashFree in Hs. rewrite forallb_forall in Hs.
  match type of Hs with
  | forall c, In c ?l -> _ =>
      assert (Hin : In (code "/") l)
        by (apply in_or_app; right; apply in_or_app; left; simpl; auto)
  end.
  apply Hs in Hin. vm_compute in Hin. discriminate.
Qed.

End QueryFacts.

(** X1. The query [normalizeQ] builds never contains a slash: every slash
    of the label has become a space before the other replacements run.  So
    the replacement of [R/A] by [Roundabout] never applies, and
    [normalizeQ] is the same function without it. *)
Theorem X1_query_has_no_slash :
  (forall q, QueryFacts.slashFree (normalizeQ q))
  /\ (forall q, normalizeQ q = QueryFacts.normalizeQ_without_RA q)
  /\ normalizeQ (js "A17 R/A, near Sleaford") = js "A17 R A, Sleaford".
Proof.
  assert (five : forall s,
             QueryFacts.slashFree
               (replaceAll (Seq [Bnd; wordI "Rdbt"; Bnd])
                  (replaceAll (Seq [Bnd; wordI "Jnc"; Bnd])
                     (replaceAll (Seq [Bnd; wordI "Jn"; Bnd])
                        (replaceAll (Seq [Bnd; wordI "near"; Bnd])
                           (replaceAll (chr "/") s (js " ")) (js " "))
                        (js "Junction"))
                     (js "Junction"))
                  (js "Roundabout"))).
  { intros s.
    do 4 (apply QueryFacts.slashFree_replaceAll; [|reflexivity]).
    apply QueryFacts.slashFree_first. }
  assert (same : forall q, normalizeQ q = QueryFacts.normalizeQ_without_RA q).
  { intros q. unfold normalizeQ, QueryFacts.normalizeQ_without_RA.
    destruct (negb (nonEmpty (trim q))); [reflexivity|]. cbv zeta.
    rewrite (@SearchFacts.replaceAll_none _ _ (js "Roundabout")
               (QueryFacts.search_RA_none (five (trim q)))).
    reflexivity. }
  split; [|split; [exact same|vm_compute; reflexivity]].
  intros q. rewrite same. unfold QueryFacts.normalizeQ_without_RA.
  destruct (negb (nonEmpty (trim q))) eqn:E.
  - apply negb_true_iff, StrFacts.nonEmpty_false in E. rewrite E. reflexivity.
  - cbv zeta. apply QueryFacts.slashFree_replaceAll; [apply five|reflexivity].
Qed.

(** ** Road tokens *)

Module TokenFacts.

Import RegexFacts StrFacts ClassifierFacts SearchFacts TrimFacts.

Local Open Scope N_scope.

Lemma reRoadToken_word b w a c :
  Matches reRoadToken b w a [] c ->
  exists x ds rest,
    w = x :: ds ++ rest
    /\ isRoadLetter x = true /\ digits13 ds
    /\ isBoundary (mkPos b (w ++ a)) = true
    /\ (c = [(1%nat, x :: ds)]
        \/ exists g2, c = [(2%nat, g2); (1%nat, x :: ds)] /\ roadTail g2).
Proof.
  unfold reRoadToken, Opt, roadLetterI, chr. cbn [Seq]. intros H.
  invm;
    repeat match goal with
      | H : Matches (Rep13 digit) _ _ _ _ _ |- _ =>
          apply Rep13_digit_inv in H; destruct H as [? ->]
      | H : Matches (Star space) _ _ _ _ _ |- _ =>
          apply Star_space_inv in H; subst
      end;
    simpl in *;
    (eexists _, _, _; split; [reflexivity|];
     split; [unfold isRoadLetter; assumption|];
     split; [assumption|];
     split; [assumption|];
     first
       [ left; reflexivity
       | right; eexists; split; [reflexivity|];
         first
           [ left; assumption
           | right; eexists _, _; split; [reflexivity|];
             split; [unfold isRoadLetter|]; assumption ] ]).
Qed.


Lemma Star_space_blank b w a c c' :
  Matches (Star space) b w a c c' -> blank w.
Proof.
  intros H. remember (Star space) as r eqn:Er. revert Er.
  induction H; intros Er; try discriminate; try reflexivity.
  injection Er as ->. unfold space in *. invm.
  unfold blank in *. simpl.
  match goal with H : isWhiteSpace _ = true |- _ => rewrite H end.
  apply IHMatches2. reflexivity.
Qed.

Lemma Star_space_intro w : blank w ->
  forall b a c, Matches (Star space) b w a c c.
Proof.
  unfold blank. induction w as [|x w IH]; intros Hw b a c.
  - apply MStar0.
  - simpl in Hw. apply andb_true_iff in Hw. destruct Hw as [Hx Hw].
    change (x :: w) with ([x] ++ w). apply MStarS with (c1 := c).
    + discriminate.
    + apply MCls. assumption.
    + apply IH. assumption.
Qed.

(** The text the road-only pattern accepts. *)
Lemma reRoadOnly_word b w a c :
  Matches reRoadOnly b w a [] c ->
  b = [] /\ a = []
  /\ exists x ds,
      isRoadLetter x = true /\ digits13 ds
      /\ (w = x :: ds
          \/ exists sp1 sp2 g,
              w = x :: ds ++ sp1 ++ 47 :: sp2 ++ g
              /\ blank sp1 /\ blank sp2 /\ roadTail g).
Proof.
  unfold reRoadOnly, Opt, roadLetterI, chr. cbn [Seq]. intros H.
  invm;
    repeat match goal with
      | H : Matches (Rep13 digit) _ _ _ _ _ |- _ =>
          apply Rep13_digit_inv in H; destruct H as [? ->]
      | H : Matches (Star space) _ _ _ _ _ |- _ =>
          apply Star_space_blank in H
      | H : (47 =? _) = true |- _ => apply N.eqb_eq in H; subst
      end.
  all: simpl in *; rewrite ?app_nil_r; repeat rewrite <- app_assoc; simpl.
  all: split; [reflexivity|]; split; [reflexivity|].
  all: match goal with
       | |- exists x0 ds, _ /\ _ /\ (?y :: ?w ++ _ = _ \/ _) => exists y, w
       | |- exists x0 ds, _ /\ _ /\ (?y :: ?w = _ \/ _) => exists y, w
       end.
  all: split; [unfold isRoadLetter; assumption|]; split; [assumption|].
  all: first
         [ left; reflexivity
         | right; eexists _, _, _; split; [reflexivity|];
           split; [assumption|]; split; [assumption|];
           first
             [ left; assumption
             | right; eexists _, _; split; [reflexivity|];
               split; [unfold isRoadLetter|]; assumption ] ].
Qed.


Lemma ws_not_word c : isWhiteSpace c = true -> isWord c = false.
Proof.
  unfold isWhiteSpace, isWord, isUpper, isLower, isDigit. intros H.
  repeat rewrite orb_true_iff in H. repeat rewrite andb_true_iff in H.
  repeat rewrite N.leb_le in H. repeat rewrite N.eqb_eq in H.
  repeat rewrite orb_false_iff. repeat rewrite andb_false_iff.
  repeat rewrite N.leb_gt. rewrite N.eqb_neq. lia.
Qed.

Lemma digit_word d : isDigit d = true -> isWord d = true.
Proof.
  unfold isWord. intros ->. rewrite orb_true_r. reflexivity.
Qed.

Lemma roadLetter_word x : isRoadLetter x = true -> isWord x = true.
Proof.
  unfold isRoadLetter, isWord, upperAscii, isLower, isUpper, isDigit.
  intros H. destruct ((97 <=? x) && (x <=? 122)) eqn:E.
  - rewrite orb_true_r. reflexivity.
  - rewrite orb_true_iff, !N.eqb_eq in H.
    assert (Hx : x = 65 \/ x = 77) by tauto.
    destruct Hx as [-> | ->]; reflexivity.
Qed.

(** The head of what lies behind or ahead of a stretch of white space is
    no word character. *)
Lemma blank_head s :
  blank s -> match s with x :: _ => isWord x | [] => false end = false.
Proof.
  unfold blank. destruct s as [|x s]; [reflexivity|]. simpl.
  rewrite andb_true_iff. intros [H _]. apply ws_not_word. assumption.
Qed.

Lemma roadTail_last g :
  roadTail g -> exists g' d, g = g' ++ [d] /\ isDigit d = true.
Proof.
  intros [H | (y & ds & -> & _ & H)].
  - apply last_digit. assumption.
  - destruct (last_digit H) as (ds' & d & -> & Hd).
    exists (y :: ds'), d. auto.
Qed.

(** A road letter, one to three digits and an optional second part, with a
    word boundary on each side, is a match of the road-token pattern. *)
Lemma reRoadToken_intro b a x ds tail :
  isRoadLetter x = true -> digits13 ds ->
  (tail = []
   \/ exists sp1 sp2 g,
       tail = sp1 ++ 47 :: sp2 ++ g
       /\ blank sp1 /\ blank sp2 /\ roadTail g) ->
  isBoundary (mkPos b ((x :: ds ++ tail) ++ a)) = true ->
  isBoundary (mkPos (rev (x :: ds ++ tail) ++ b) a) = true ->
  exists c, Matches reRoadToken b (x :: ds ++ tail) a [] c.
Proof.
  intros Hx Hd Ht Hb1 Hb2. unfold reRoadToken. cbn [Seq].
  assert (Hopt : exists c,
             Matches
               (Opt (Cat (Star space)
                      (Cat (chr "/")
                         (Cat (Star space)
                            (Cap 2 (Cat (Opt roadLetterI) (Rep13 digit)))))))
               (rev (x :: ds) ++ b) tail a [(1%nat, x :: ds)] c).
  { destruct Ht as [-> | (sp1 & sp2 & g & -> & H1 & H2 & Hg)].
    - eexists. apply MAltR. apply MEps.
    - eexists. apply MAltL.
      apply MCat_eq with (w1 := sp1) (w2 := 47 :: sp2 ++ g)
                         (c1 := [(1%nat, x :: ds)]); [reflexivity| |].
      { apply Star_space_intro. assumption. }
      apply MCat_eq with (w1 := [47]) (w2 := sp2 ++ g)
                         (c1 := [(1%nat, x :: ds)]); [reflexivity| |].
      { apply MCls. reflexivity. }
      apply MCat_eq with (w1 := sp2) (w2 := g)
                         (c1 := [(1%nat, x :: ds)]); [reflexivity| |].
      { apply Star_space_intro. assumption. }
      apply MCap.
      destruct Hg as [Hg | (y & ds2 & -> & Hy & Hg)].
      + apply MCat_eq with (w1 := []) (w2 := g)
                           (c1 := [(1%nat, x :: ds)]); [reflexivity| |].
        { apply MAltR. apply MEps. }
        apply Rep13_digit_intro. assumption.
      + apply MCat_eq with (w1 := [y]) (w2 := ds2)
                           (c1 := [(1%nat, x :: ds)]); [reflexivity| |].
        { apply MAltL. apply MCls. exact Hy. }
        apply Rep13_digit_intro. assumption. }
  destruct Hopt as (c & Hopt). exists c.
  apply MCat_eq with (w1 := []) (w2 := x :: ds ++ tail) (c1 := []);
    [reflexivity| |].
  { apply MBnd. exact Hb1. }
  apply MCat_eq with (w1 := x :: ds) (w2 := tail) (c1 := [(1%nat, x :: ds)]);
    [reflexivity| |].
  { apply MCap.
    apply MCat_eq with (w1 := [x]) (w2 := ds) (c1 := []); [reflexivity| |].
    - apply MCls. exact Hx.
    - apply Rep13_digit_intro. assumption. }
  apply MCat_eq with (w1 := tail) (w2 := []) (c1 := c);
    [symmetry; apply app_nil_r| |].
  { rewrite app_nil_l. simpl. simpl in Hopt. exact Hopt. }
  apply MBnd.
  match goal with
  | |- isBoundary (mkPos ?bb _) = true =>
      replace bb with (rev (x :: ds ++ tail) ++ b); [exact Hb2|]
  end.
  simpl. rewrite !rev_app_distr. simpl. rewrite <- !app_assoc. reflexivity.
Qed.


Section WithEnv.

Context {env : Env}.

Lemma upper_head x ds :
  isRoadLetter x = true -> digits13 ds ->
  toUpperCase (x :: ds) = upperAscii x :: ds.
Proof.
  intros Hx [Hd Hl]. rewrite toUpperCase_ascii.
  - simpl. rewrite digits_upper by assumption. reflexivity.
  - simpl. rewrite (proj1 (roadLetter_facts _ Hx)).
    apply digits_ascii. assumption.
Qed.

(** What [extractRoadToken] returns when its pattern is found: the first
    part of the token stands in the label, at a word boundary. *)
Lemma extractRoadToken_found v m :
  search reRoadToken v = Some m ->
  exists pre x ds rest,
    v = pre ++ x :: ds ++ rest
    /\ isRoadLetter x = true /\ digits13 ds
    /\ isBoundary (mkPos (rev pre) (x :: ds ++ rest)) = true
    /\ (extractRoadToken v = upperAscii x :: ds
        \/ exists g,
            g <> [] /\ extractRoadToken v = upperAscii x :: ds ++ 47 :: g).
Proof.
  intros H. unfold extractRoadToken. rewrite H. unfold search in H.
  apply searchFrom_found in H.
  destruct H as (pre & w & a' & c & -> & Hm & ->).
  apply reRoadToken_word in Hm.
  destruct Hm as (x & ds & rest & -> & Hx & Hd & Hb & Hc).
  exists pre, x, ds, (rest ++ a'). split.
  { simpl. rewrite <- app_assoc. reflexivity. }
  split; [assumption|]. split; [assumption|]. split.
  { rewrite app_nil_r in Hb. simpl in Hb. rewrite <- app_assoc in Hb.
    exact Hb. }
  unfold groupText. cbn [m_caps].
  destruct Hc as [-> | (g2 & -> & Hg)]; simpl.
  - left. apply upper_head; assumption.
  - assert (Hne : nonEmpty g2 = true).
    { destruct (roadTail_last Hg) as (g' & d & -> & _).
      destruct g'; reflexivity. }
    rewrite Hne. right. exists (toUpperCase g2). split.
    + destruct (upper_roadTail Hg) as [[_ Hl] | (Y & ds2 & -> & _)];
        [|discriminate].
      intros E. rewrite E in Hl. simpl in Hl. lia.
    + rewrite upper_head by assumption. reflexivity.
Qed.

End WithEnv.

End TokenFacts.

Section TokenProperties.

Context {env : Env}.

Import RegexFacts StrFacts ClassifierFacts SearchFacts TrimFacts TokenFacts.

(** X4. A road token comes from the label: when [extractRoadToken]
    returns a token, the label holds, at a word boundary, a letter [A] or
    [M] of either case followed by one to three digits, and the token is
    that text in upper case, alone or followed by a slash and a second
    part.  A label without a digit has no road token. *)
Theorem X4_road_token_occurs_in_label :
  (forall v,
      extractRoadToken v <> [] ->
      exists pre x ds rest,
        v = pre ++ x :: ds ++ rest
        /\ isRoadLetter x = true /\ digits13 ds
        /\ isBoundary (mkPos (rev pre) (x :: ds ++ rest)) = true
        /\ (extractRoadToken v = upperAscii x :: ds
            \/ exists g,
                g <> []
                /\ extractRoadToken v = upperAscii x :: ds ++ code "/" :: g))
  /\ (forall v,
         forallb (fun c => negb (isDigit c)) v = true ->
         extractRoadToken v = []).
Proof.
  assert (main : forall v,
             extractRoadToken v <> [] ->
             exists pre x ds rest,
               v = pre ++ x :: ds ++ rest
               /\ isRoadLetter x = true /\ digits13 ds
               /\ isBoundary (mkPos (rev pre) (x :: ds ++ rest)) = true
               /\ (extractRoadToken v = upperAscii x :: ds
                   \/ exists g,
                       g <> []
                       /\ extractRoadToken v
                          = upperAscii x :: ds ++ code "/" :: g)).
  { intros v Hne. destruct (search reRoadToken v) as [m|] eqn:E.
    - exact (extractRoadToken_found _ E).
    - exfalso. apply Hne. unfold extractRoadToken. rewrite E. reflexivity. }
  split; [exact main|].
  intros v Hv.
  destruct (extractRoadToken v) as [|t ts] eqn:E; [reflexivity|].
  exfalso.
  destruct (main v) as (pre & x & ds & rest & Ev & _ & Hd & _);
    [rewrite E; discriminate|].
  destruct (last_digit Hd) as (ds' & d & -> & Hdig).
  rewrite forallb_forall in Hv.
  assert (Hin : In d v).
  { rewrite Ev. apply in_or_app. right. right.
    apply in_or_app. left. apply in_or_app. right. left. reflexivity. }
  apply Hv in Hin. rewrite Hdig in Hin. discriminate.
Qed.

(** X5. A road-only label always carries a road token: whenever
    [isRoadOnlyLabel] accepts a label, [extractRoadToken] finds a token in
    it, white space around the label included. *)
Theorem X5_road_only_label_has_token v :
  isRoadOnlyLabel v = true -> extractRoadToken v <> [].
Proof.
  unfold isRoadOnlyLabel. intros H.
  destruct (nonEmpty (trim v)) eqn:Hne; [|discriminate]. simpl in H.
  unfold test in H.
  destruct (search reRoadOnly (trim v)) as [f|] eqn:E; [|discriminate].
  unfold search in E. apply searchFrom_found in E.
  destruct E as (pre & w & a' & c & Et & Hm & _).
  apply reRoadOnly_word in Hm.
  destruct Hm as (Hb & -> & x & ds & Hx & Hd & Hw).
  rewrite app_nil_r in Hb. assert (pre = []) as ->.
  { destruct pre as [|p pre]; [reflexivity|]. simpl in Hb.
    destruct (rev pre); discriminate. }
  simpl in Et. rewrite app_nil_r in Et.
  destruct (trim_split v) as (p0 & q0 & Ev & Hp0 & Hq0).
  assert (Htail : exists tail,
             w = x :: ds ++ tail
             /\ (tail = []
                 \/ exists sp1 sp2 g,
                     tail = sp1 ++ 47%N :: sp2 ++ g
                     /\ blank sp1 /\ blank sp2 /\ roadTail g)).
  { destruct Hw as [-> | (sp1 & sp2 & g & -> & H1 & H2 & Hg)].
    - exists []. rewrite app_nil_r. auto.
    - exists (sp1 ++ 47%N :: sp2 ++ g). split; [reflexivity|].
      right. exists sp1, sp2, g. auto. }
  destruct Htail as (tail & -> & Htail).
  assert (Hlast : exists body d,
             x :: ds ++ tail = body ++ [d] /\ isDigit d = true).
  { destruct Htail as [-> | (sp1 & sp2 & g & -> & _ & _ & Hg)].
    - destruct (last_digit Hd) as (ds' & d & -> & Hdig).
      exists (x :: ds'), d. rewrite app_nil_r. auto.
    - destruct (roadTail_last Hg) as (g' & d & -> & Hdig).
      exists (x :: ds ++ sp1 ++ 47%N :: sp2 ++ g'), d. split; [|assumption].
      simpl. rewrite <- !app_assoc. simpl. rewrite <- !app_assoc.
      reflexivity. }
  destruct (@reRoadToken_intro (rev p0 ++ []) q0 x ds tail Hx Hd Htail)
    as (c' & Hc').
  - unfold isBoundary. cbn [behind ahead]. rewrite app_nil_r.
    rewrite (blank_head (blank_rev Hp0)). simpl.
    rewrite (roadLetter_word _ Hx). reflexivity.
  - destruct Hlast as (body & d & -> & Hdig).
    unfold isBoundary. cbn [behind ahead].
    rewrite rev_app_distr. simpl.
    rewrite (digit_word _ Hdig), (blank_head Hq0). reflexivity.
  - pose proof (searchFrom_complete p0 [] Hc') as Hs.
    rewrite Et in Ev. rewrite <- Ev in Hs.
    destruct (search reRoadToken v) as [m|] eqn:Em;
      [|unfold search in Em; contradiction].
    destruct (extractRoadToken_found _ Em)
      as (pre' & x' & ds' & rest' & _ & _ & _ & _ & [E' | (g & _ & E')]);
      rewrite E'; discriminate.
Qed.

End TokenProperties.

(** ** The label classifier and the anchors of a route *)

Module AnchorFacts.

Import StrFacts TrimFacts.

(** A trimmed label that [pickAnchor] keeps is a place: it is not empty,
    not a road name alone and not an instruction. *)
Lemma pickAnchor_place v :
  trim v = v ->
  pickAnchor v = []
  \/ (pickAnchor v = v /\ nonEmpty v = true /\ isRoadOnlyLabel v = false
      /\ isInstructionLikeLabel v = false).
Proof.
  intros Hv. unfold pickAnchor.
  destruct (nonEmpty v) eqn:Hne; simpl; [|left; reflexivity].
  destruct (isRoadOnlyLabel v) eqn:Hr; [left; reflexivity|].
  destruct (isInstructionLikeLabel v) eqn:Hi; simpl; [|right; auto].
  unfold isInstructionLikeLabel in Hi. rewrite Hv, Hne in Hi. simpl in Hi.
  destruct (test rePostcode v); [discriminate|]. left. reflexivity.
Qed.

Lemma firstAnchor_place : forall segs p,
  firstAnchor segs = Some p ->
  nonEmpty p = true /\ isRoadOnlyLabel p = false
  /\ isInstructionLikeLabel p = false
  /\ exists j s,
      nth_error segs j = Some s /\ (p = trim (from s) \/ p = trim (to s)).
Proof.
  induction segs as [|s rest IH]; intros p; simpl; [discriminate|].
  destruct (pickAnchor_place (trim_idem (from s)))
    as [E1 | (E1 & H1 & H2 & H3)]; rewrite E1.
  - simpl.
    destruct (pickAnchor_place (trim_idem (to s)))
      as [E2 | (E2 & H1 & H2 & H3)]; rewrite E2.
    + simpl. intros H. apply IH in H.
      destruct H as (Ha & Hb & Hc & j & s' & Hj & Hp).
      repeat split; try assumption. exists (S j), s'. auto.
    + rewrite H1. intros H. injection H as <-.
      repeat split; try assumption. exists 0, s. auto.
  - rewrite H1. intros H. injection H as <-.
    repeat split; try assumption. exists 0, s. auto.
Qed.

End AnchorFacts.

Section ClassifierProperties.

Context {env : Env}.

Import StrFacts TrimFacts AnchorFacts.

(** X2. White space around a label never changes its class:
    [isInstructionLikeLabel], [isRoadOnlyLabel], [looksLikeRoadOnly] and
    [normalizeQ] give the same on a label and on the label trimmed.  A
    label of white space only is an instruction, is no road name for
    [isRoadOnlyLabel] and is one for [looksLikeRoadOnly], and its query is
    empty. *)
Theorem X2_white_space_around_label_is_ignored :
  (forall v,
      isInstructionLikeLabel (trim v) = isInstructionLikeLabel v
      /\ isRoadOnlyLabel (trim v) = isRoadOnlyLabel v
      /\ looksLikeRoadOnly (trim v) = looksLikeRoadOnly v
      /\ normalizeQ (trim v) = normalizeQ v)
  /\ (forall v,
         blank v ->
         isInstructionLikeLabel v = true /\ isRoadOnlyLabel v = false
         /\ looksLikeRoadOnly v = true /\ normalizeQ v = []).
Proof.
  split.
  - intros v.
    unfold isInstructionLikeLabel, isRoadOnlyLabel, looksLikeRoadOnly,
      normalizeQ.
    rewrite trim_idem. auto.
  - intros v Hv.
    unfold isInstructionLikeLabel, isRoadOnlyLabel, looksLikeRoadOnly,
      normalizeQ.
    rewrite (trim_blank Hv). auto.
Qed.

(** X3. The label [nextAnchorLabel] hands to the geocoder is the end
    postcode or end label of the route, or the trimmed [from] or [to] of a
    later segment that is a place: not empty, not a road name alone and
    not an instruction.  (The branch of [pick] that keeps an instruction
    with a postcode is never taken: a label with a postcode is no
    instruction.) *)
Theorem X3_next_anchor_is_a_place r segs idx :
  nextAnchorLabel r segs idx = trim (orElse (endPostcode r) (endLabel r))
  \/ (nonEmpty (nextAnchorLabel r segs idx) = true
      /\ isRoadOnlyLabel (nextAnchorLabel r segs idx) = false
      /\ isInstructionLikeLabel (nextAnchorLabel r segs idx) = false
      /\ exists k s,
          idx < k /\ nth_error segs k = Some s
          /\ (nextAnchorLabel r segs idx = trim (from s)
              \/ nextAnchorLabel r segs idx = trim (to s))).
Proof.
  unfold nextAnchorLabel.
  destruct (firstAnchor (skipn (idx + 1) segs)) as [p|] eqn:E;
    [|left; reflexivity].
  right. apply firstAnchor_place in E.
  destruct E as (H1 & H2 & H3 & j & s & Hj & Hp).
  repeat split; try assumption.
  exists (idx + 1 + j), s. split; [lia|]. split; [|assumption].
  rewrite <- Hj. symmetry. apply nth_error_skipn.
Qed.

End ClassifierProperties.

(** ** The geocode cache, further *)

Section GeocodeProperties.

Context {env : Env}.

Import StrFacts PropsFacts NumFacts GeocodeFacts LookupFacts CacheFacts.

Local Open Scope float_scope.

(** X6. [geocodePlace] fails in two ways only on a label whose queries
    can be sent.  With a label whose key is empty it fails with
    [Missing geocode label] and asks nothing.  Otherwise it fails with
    [No match for: label], after exactly the two queries (the UK-biased
    one, then the raw one), and stores nothing under the key: the next call
    will ask again.  The error [Geocode out of UK bounds] is never raised,
    every candidate having passed the bounds filter. *)
Theorem X6_geocode_failures label hint st e st' :
  sendable label = true ->
  geocodePlace label hint st = (Err e, st') ->
  (e = MissingGeocodeLabel
   /\ nonEmpty (keyOf label) = false
   /\ requests st' = requests st)
  \/ (e = NoMatchFor label
      /\ nonEmpty (keyOf label) = true
      /\ requests st'
         = requests st ++ [PlaceSearch (normalizeQ (label ++ js ", UK"));
                           PlaceSearch (normalizeQ label)]
      /\ cachedEntry (keyOf label) (freshCacheOf st') = None).
Proof.
  intros _.
  rewrite geocodePlace_eq.
  destruct (nonEmpty (keyOf label)) eqn:Hk; simpl.
  - destruct (cachedEntry (keyOf label) (freshCacheOf st)) as [c|] eqn:Hc;
      [discriminate|].
    rewrite geocodeLookup_eq.
    destruct (choose hint (candidates1 label _)); [discriminate|].
    destruct (choose hint (candidates2 label _)); [discriminate|].
    intros H. injection H as <- <-. right.
    split; [reflexivity|]. split; [reflexivity|]. split.
    + unfold asked2, asked1. simpl. rewrite requests_missState.
      rewrite <- app_assoc. reflexivity.
    + apply cachedEntry_missState in Hc. exact Hc.
  - intros H. injection H as <- <-. left.
    split; [reflexivity|]. split; [reflexivity|].
    apply requests_versionChecked.
Qed.

(** X7. A cache of another version is dropped as a whole, for a label
    whose key is no property name of [Object.prototype]: when the stored
    object does not carry the current [__v], no entry of it is used, the
    lookup goes to the network with an empty cache, and after a successful
    lookup the store holds the version tag and the one new entry. *)
Theorem X7_stale_cache_is_dropped label hint st :
  versionOk (readJSON (geocodeStore st)) = false ->
  nonEmpty (keyOf label) = true ->
  keyOf label <> js "__v" ->
  plainKey (keyOf label) = true ->
  geocodePlace label hint st
  = geocodeLookup label hint (keyOf label) emptyCache
      (setGeocodeStore None st)
  /\ forall p st',
      geocodePlace label hint st = (Ok p, st') ->
      geocodeStore st'
      = Some [(js "__v", JNum GEOCODE_CACHE_VERSION);
              (keyOf label, jsonOfPoint p)].
Proof.
  intros Hv Hk Hne _.
  assert (Hg : getProp (keyOf label) emptyCache = None).
  { unfold emptyCache, getProp.
    replace (Str.eqb (js "__v") (keyOf label)) with false; [reflexivity|].
    symmetry. apply eqb_neq. congruence. }
  assert (E : geocodePlace label hint st
              = geocodeLookup label hint (keyOf label) emptyCache
                  (setGeocodeStore None st)).
  { rewrite geocodePlace_eq, Hk. simpl.
    unfold missCache, missState, versionChecked.
    rewrite (freshCacheOf_stale _ Hv), Hv.
    rewrite cachedEntry_emptyCache, Hg. reflexivity. }
  split; [exact E|].
  intros p st'. rewrite E, geocodeLookup_eq.
  assert (Hs : setProp (keyOf label) (jsonOfPoint p) emptyCache
               = [(js "__v", JNum GEOCODE_CACHE_VERSION);
                  (keyOf label, jsonOfPoint p)]).
  { unfold emptyCache, setProp.
    replace (Str.eqb (js "__v") (keyOf label)) with false; [reflexivity|].
    symmetry. apply eqb_neq. congruence. }
  destruct (choose hint (candidates1 label _)) as [f|].
  - intros H. injection H as <- <-. unfold stored.
    cbn [geocodeStore setGeocodeStore]. rewrite Hs. reflexivity.
  - destruct (choose hint (candidates2 label _)) as [f|]; [|discriminate].
    intros H. injection H as <- <-. unfold stored.
    cbn [geocodeStore setGeocodeStore]. rewrite Hs. reflexivity.
Qed.


(** X9. A lookup touches its own key only: with a cache of the current
    version, whatever [geocodePlace] does (hit, purge, miss, failure), the
    entries stored under the other keys are what they were. *)
Theorem X9_other_cached_places_are_kept label hint st res st' k :
  versionOk (readJSON (geocodeStore st)) = true ->
  geocodePlace label hint st = (res, st') ->
  k <> keyOf label ->
  getProp k (readJSON (geocodeStore st'))
  = getProp k (readJSON (geocodeStore st)).
Proof.
  intros Hv H Hk. rewrite geocodePlace_eq in H.
  assert (Hvc : versionChecked st = st).
  { unfold versionChecked. rewrite Hv. reflexivity. }
  rewrite Hvc in H.
  destruct (negb (nonEmpty (keyOf label))).
  { injection H as <- <-. reflexivity. }
  destruct (cachedEntry _ _).
  { injection H as <- <-. reflexivity. }
  assert (Hm : getProp k (missCache (keyOf label) st)
               = getProp k (readJSON (geocodeStore st))
               /\ getProp k (readJSON (geocodeStore
                                         (missState (keyOf label) st)))
                  = getProp k (readJSON (geocodeStore st))).
  { unfold missCache, missState. rewrite Hvc, (freshCacheOf_current _ Hv).
    destruct (getProp (keyOf label) _) as [c|]; [destruct (truthy c)|];
      simpl; rewrite ?getProp_delProp_other by assumption; auto. }
  destruct Hm as [Hm1 Hm2].
  rewrite geocodeLookup_eq in H.
  destruct (choose hint (candidates1 label _)) as [f|].
  - injection H as <- <-. unfold stored. simpl.
    rewrite getProp_setProp_other by assumption. exact Hm1.
  - destruct (choose hint (candidates2 label _)) as [f|];
      injection H as <- <-.
    + unfold stored. simpl.
      rewrite getProp_setProp_other by assumption. exact Hm1.
    + simpl. exact Hm2.
Qed.


End GeocodeProperties.

(** ** The route cache, further *)

Module RouteCacheFacts.

Import StrFacts PropsFacts NumFacts NumBounds LookupFacts RouteFacts.

Local Open Scope float_scope.

Lemma Math_min_intro c x y :
  Num.lt c x -> Num.lt c y -> Num.lt c (Num.Math_min x y).
Proof.
  intros Hx Hy. unfold Num.Math_min.
  rewrite (lt_not_nan_r Hx), (lt_not_nan_r Hy). simpl.
  destruct (x <? y); [assumption|].
  destruct (y <? x); [assumption|].
  destruct (get_sign x); assumption.
Qed.

Lemma Math_max_intro c x y :
  Num.lt x c -> Num.lt y c -> Num.lt (Num.Math_max x y) c.
Proof.
  intros Hx Hy. unfold Num.Math_max.
  rewrite (lt_not_nan_l Hx), (lt_not_nan_l Hy). simpl.
  destruct (x <? y); [assumption|].
  destruct (y <? x); [assumption|].
  destruct (get_sign x); assumption.
Qed.

Lemma within_widen_intro b c :
  within b = true -> inside c -> within (widen b c) = true.
Proof.
  unfold within, widen, inside. cbn [minLat maxLat minLng maxLng].
  rewrite !andb_true_iff. intros [[[H1 H2] H3] H4] (I1 & I2 & I3 & I4).
  repeat split.
  - apply Math_min_intro; assumption.
  - apply Math_max_intro; assumption.
  - apply Math_min_intro; assumption.
  - apply Math_max_intro; assumption.
Qed.

(** Positions strictly inside the sanity bounds have their extent within
    them. *)
Lemma within_extent_intro cs :
  (forall c, In c cs -> inside c) -> within (extent cs) = true.
Proof.
  unfold extent.
  assert (gen : forall cs b,
             within b = true -> (forall c, In c cs -> inside c) ->
             within (fold_left widen cs b) = true).
  { induction cs0 as [|c cs0 IH]; intros b Hb Hin; simpl; [assumption|].
    apply IH.
    - apply within_widen_intro; [assumption|]. apply Hin. left. reflexivity.
    - intros c' Hc'. apply Hin. right. assumption. }
  intros H. apply (gen cs (mkBounds 90 (-90) 180 (-180))); [|assumption].
  reflexivity.
Qed.

Lemma inside_finite c :
  inside c -> is_finite (fst c) = true /\ is_finite (snd c) = true.
Proof.
  intros (H1 & H2 & H3 & H4). split.
  - apply (between_finite (a := (-12)) (b := 5));
      try reflexivity; apply lt_le; assumption.
  - apply (between_finite (a := 45) (b := 62));
      try reflexivity; apply lt_le; assumption.
Qed.

Lemma lngLatsOf_jsonOfLngLats cs : lngLatsOf (jsonOfLngLats cs) = cs.
Proof.
  unfold lngLatsOf, jsonOfLngLats. rewrite map_map.
  induction cs as [|[x y] cs IH]; [reflexivity|].
  cbn [map]. rewrite IH. reflexivity.
Qed.

Lemma looksSane_jsonOfLngLats cs :
  2 <= length cs ->
  (forall c, In c cs -> is_finite (fst c) = true /\ is_finite (snd c) = true) ->
  looksSane (jsonOfLngLats cs) = true.
Proof.
  intros Hl Hf. unfold looksSane, jsonOfLngLats.
  rewrite length_map. apply andb_true_iff. split.
  - apply Nat.leb_le. assumption.
  - rewrite forallb_forall. intros j Hj. apply in_map_iff in Hj.
    destruct Hj as (c & <- & Hc). simpl.
    destruct (Hf c Hc) as [-> ->]. reflexivity.
Qed.

Lemma looksSane_length coords :
  looksSane coords = true -> 2 <= length (lngLatsOf coords).
Proof.
  destruct coords; try discriminate. simpl.
  rewrite andb_true_iff, length_map. intros [H _].
  apply Nat.leb_le. assumption.
Qed.

(** The size of an object under the three updates of the cache. *)
Lemma length_delProp k (o : props) : length (delProp k o) <= length o.
Proof. unfold delProp. apply filter_length_le. Qed.

Lemma length_setProp k v (o : props) :
  length (setProp k v o) <= S (length o).
Proof.
  induction o as [|[k' v'] o IH]; simpl; [lia|].
  destruct (Str.eqb k' k); simpl; lia.
Qed.

Lemma length_evicting ks : forall (o : props),
  length (fold_left (fun c k => delProp k c) ks o) <= length o.
Proof.
  induction ks as [|k ks IH]; intros o; simpl; [lia|].
  etransitivity; [apply IH|]. apply length_delProp.
Qed.

Lemma length_evict (o : props) :
  length o <= 251 -> length (evict o) <= 250.
Proof.
  intros H. unfold evict, keysOf. rewrite length_map.
  destruct (Nat.ltb 250 (length o)) eqn:E.
  - apply Nat.ltb_lt in E.
    destruct o as [|[k v] o]; [simpl in E; lia|].
    cbn [map fst firstn fold_left].
    etransitivity; [apply length_evicting|].
    unfold delProp. cbn [filter fst]. rewrite eqb_refl. cbn [negb].
    etransitivity; [apply filter_length_le|]. simpl in H. lia.
  - apply Nat.ltb_ge in E. assumption.
Qed.

Lemma evict_small (o : props) : length o <= 250 -> evict o = o.
Proof.
  intros H. unfold evict, keysOf. rewrite length_map.
  replace (Nat.ltb 250 (length o)) with false; [reflexivity|].
  symmetry. apply Nat.ltb_ge. assumption.
Qed.

Section WithEnv.

Context {env : Env}.

Lemma length_droppedCache k st :
  length (droppedCache k st) <= length (readJSON (osrmStore st)).
Proof.
  unfold droppedCache.
  destruct (getProp k _) as [c|]; [destruct (truthy c)|];
    try apply length_delProp; lia.
Qed.

Lemma osrmStore_droppedState k st :
  readJSON (osrmStore (droppedState k st)) = droppedCache k st.
Proof.
  unfold droppedState, droppedCache.
  destruct (getProp k _) as [c|]; [destruct (truthy c)|]; reflexivity.
Qed.

End WithEnv.

End RouteCacheFacts.

Section RouteProperties.

Context {env : Env}.

Import StrFacts PropsFacts NumFacts NumBounds LookupFacts RouteFacts.
Import RouteCacheFacts.

Local Open Scope float_scope.

(** X12. A route is asked for once: when [osrmRoute] returns a path whose
    positions lie strictly inside the sanity bounds, and the cache holds
    fewer than 250 entries, a second call for the same two points returns
    the same path from the cache and leaves the state as it is: no
    request, no write. *)
Theorem X12_route_is_served_again a b st cs :
  fst (osrmRoute a b st) = Ok (Some cs) ->
  (forall c, In c cs -> inside c) ->
  length (readJSON (osrmStore st)) < 250 ->
  osrmRoute a b (snd (osrmRoute a b st))
  = (Ok (Some cs), snd (osrmRoute a b st)).
Proof.
  intros H Hin Hlen. rewrite osrmRoute_eq in H. rewrite (osrmRoute_eq a b st).
  destruct (cachedRoute (routeKey a b) (readJSON (osrmStore st)))
    as [coords|] eqn:Hc.
  - cbn [fst snd] in *. rewrite osrmRoute_eq, Hc. rewrite <- H. reflexivity.
  - rewrite osrmFetch_eq in H. rewrite osrmFetch_eq. cbn [fst snd] in *.
    injection H as H. rewrite H.
    assert (Hl : 2 <= length cs).
    { unfold routed in H. destruct (routing _ _ _ _ _) as [cs'|];
        [|discriminate].
      destruct (Nat.ltb (length cs') 2) eqn:E; [discriminate|].
      injection H as <-. apply Nat.ltb_ge in E. assumption. }
    set (cache := setProp (routeKey a b) (jsonOfLngLats cs)
                          (droppedCache (routeKey a b) st)).
    assert (He : evict cache = cache).
    { apply evict_small. unfold cache.
      etransitivity; [apply length_setProp|].
      pose proof (length_droppedCache (routeKey a b) st). lia. }
    rewrite He, osrmRoute_eq.
    cbn [osrmStore setOsrmStore readJSON].
    assert (Hhit : cachedRoute (routeKey a b) cache
                   = Some (jsonOfLngLats cs)).
    { unfold cachedRoute, cache. rewrite getProp_setProp_same.
      rewrite looksSane_jsonOfLngLats;
        [|assumption|intros c Hc'; apply inside_finite; auto].
      rewrite lngLatsOf_jsonOfLngLats, within_extent_intro by assumption.
      reflexivity. }
    rewrite Hhit, lngLatsOf_jsonOfLngLats. reflexivity.
Qed.

(** X13. [osrmRoute] never throws: it returns [null] or a path of at
    least two positions.  It issues at most one request, the one for its
    two points, and leaves the geocode cache and the drawing alone.  A
    path it returns without a request comes from the cache, and all its
    positions lie strictly inside the sanity bounds. *)
Theorem X13_route_result a b st res st' :
  osrmRoute a b st = (res, st') ->
  (exists r,
      res = Ok r /\ forall cs, r = Some cs -> 2 <= length cs)
  /\ (requests st' = requests st
      \/ requests st'
         = requests st ++ [RouteRequest (lng a) (lat a) (lng b) (lat b)])
  /\ geocodeStore st' = geocodeStore st
  /\ sameDrawing st st'
  /\ (requests st' = requests st ->
      forall cs, res = Ok (Some cs) -> forall c, In c cs -> inside c).
Proof.
  intros H. pose proof (osrmRoute_frame _ _ _ H) as (_ & Hd & Hg).
  rewrite osrmRoute_eq in H.
  destruct (cachedRoute (routeKey a b) (readJSON (osrmStore st)))
    as [coords|] eqn:Hc.
  - injection H as <- <-.
    unfold cachedRoute in Hc.
    destruct (getProp _ _) as [c0|]; [|discriminate].
    destruct (truthy c0 && looksSane c0 && within (extent (lngLatsOf c0)))
      eqn:E; [|discriminate].
    injection Hc as ->.
    apply andb_true_iff in E. destruct E as [E Hw].
    apply andb_true_iff in E. destruct E as [_ Hs].
    split.
    { eexists. split; [reflexivity|]. intros cs Hcs. injection Hcs as <-.
      apply looksSane_length. assumption. }
    split; [left; reflexivity|]. split; [assumption|].
    split; [assumption|].
    intros _ cs Hcs. injection Hcs as <-. apply within_extent. assumption.
  - rewrite osrmFetch_eq in H. injection H as <- <-.
    assert (Hr : requests
                   (match routed a b (droppedState (routeKey a b) st) with
                    | Some cs =>
                        setOsrmStore
                          (Some (evict (setProp (routeKey a b)
                                          (jsonOfLngLats cs)
                                          (droppedCache (routeKey a b) st))))
                          (askedRoute a b (droppedState (routeKey a b) st))
                    | None => askedRoute a b (droppedState (routeKey a b) st)
                    end)
                 = requests st
                   ++ [RouteRequest (lng a) (lat a) (lng b) (lat b)]).
    { destruct (routed a b _); simpl; rewrite requests_droppedState;
        reflexivity. }
    split.
    { eexists. split; [reflexivity|]. intros cs Hcs.
      unfold routed in Hcs. destruct (routing _ _ _ _ _) as [cs'|];
        [|discriminate].
      destruct (Nat.ltb (length cs') 2) eqn:E; [discriminate|].
      injection Hcs as <-. apply Nat.ltb_ge in E. assumption. }
    split; [right; exact Hr|]. split; [assumption|]. split; [assumption|].
    rewrite Hr. intros Habs. exfalso.
    apply (f_equal (@length _)) in Habs. rewrite length_app in Habs.
    simpl in Habs. lia.
Qed.

(** X14. The route cache stays bounded: a cache of at most 250 entries
    has at most 250 entries after any call of [osrmRoute]. *)
Theorem X14_route_cache_is_bounded a b st :
  length (readJSON (osrmStore st)) <= 250 ->
  length (readJSON (osrmStore (snd (osrmRoute a b st)))) <= 250.
Proof.
  intros Hlen. rewrite osrmRoute_eq.
  destruct (cachedRoute (routeKey a b) (readJSON (osrmStore st)));
    [exact Hlen|].
  rewrite osrmFetch_eq. cbn [snd].
  pose proof (length_droppedCache (routeKey a b) st) as Hd.
  destruct (routed a b _) as [cs|].
  - cbn [osrmStore setOsrmStore readJSON]. apply length_evict.
    etransitivity; [apply length_setProp|]. lia.
  - unfold askedRoute. cbn [osrmStore addRequest].
    rewrite osrmStore_droppedState. lia.
Qed.

End RouteProperties.

(** ** The path builder, further *)

Module PathFacts.

Import StrFacts LookupFacts RouteFacts RouteCacheFacts DrawFacts.

(** A line of the layer has at least two positions. *)
Definition wellFormed (l : Polyline) : Prop := 2 <= length (latlngs l).

(** The layer and the list [bounds] agree: [bounds] holds the positions
    of the lines of the layer, and every line is well formed. *)
Definition layerOk (st : St) : Prop :=
  Forall wellFormed (routeLayer st)
  /\ bounds st = concat (map latlngs (routeLayer st)).

Section WithEnv.

Context {env : Env}.

(** The anchor of the chain is absent or passes the bounds check. *)
Definition anchorOk (st : St) : Prop :=
  match prev st with
  | Some p => inUkBounds (lat p) (lng p) = true
  | None => True
  end.

Lemma sameDrawing_layerOk st st' :
  sameDrawing st st' -> layerOk st -> layerOk st'.
Proof.
  intros (Hl & Hb & _) [H1 H2]. unfold layerOk. rewrite Hl, Hb. auto.
Qed.

Lemma sameDrawing_anchorOk st st' :
  sameDrawing st st' -> anchorOk st -> anchorOk st'.
Proof.
  intros (_ & _ & Hp & _). unfold anchorOk. rewrite Hp. auto.
Qed.

Lemma layerOk_add st st' line :
  layerOk st -> wellFormed line ->
  routeLayer st' = routeLayer st ++ [line] ->
  bounds st' = bounds st ++ latlngs line ->
  layerOk st'.
Proof.
  intros [H1 H2] Hw Hl Hb. unfold layerOk. rewrite Hl, Hb, H2. split.
  - apply Forall_app. split; [assumption|]. constructor; [assumption|].
    constructor.
  - rewrite map_app, concat_app. simpl. rewrite app_nil_r. reflexivity.
Qed.

Lemma osrmRoute_length a b st cs st' :
  osrmRoute a b st = (Ok (Some cs), st') -> 2 <= length cs.
Proof.
  rewrite osrmRoute_eq.
  destruct (cachedRoute (routeKey a b) (readJSON (osrmStore st)))
    as [coords|] eqn:Hc.
  - intros H. injection H as <- _. unfold cachedRoute in Hc.
    destruct (getProp _ _) as [c0|]; [|discriminate].
    destruct (truthy c0 && looksSane c0 && within (extent (lngLatsOf c0)))
      eqn:E; [|discriminate].
    injection Hc as ->.
    apply andb_true_iff in E. destruct E as [E _].
    apply andb_true_iff in E. destruct E as [_ Hs].
    apply looksSane_length. assumption.
  - rewrite osrmFetch_eq. intros H. injection H as H _.
    unfold routed in H. destruct (routing _ _ _ _ _) as [cs'|];
      [|discriminate].
    destruct (Nat.ltb (length cs') 2) eqn:E; [discriminate|].
    injection H as <-. apply Nat.ltb_ge in E. assumption.
Qed.

(** The line of a segment between its two resolved endpoints: the routed
    path, or the straight dashed line when there is none. *)
Definition segmentLine (seg : Segment) (a b : Point)
  (coords : option (list LngLat)) : Polyline :=
  mkPolyline
    (match coords with
     | Some cs => map swap cs
     | None => [(lat a, lng a); (lat b, lng b)]
     end)
    (riskColor (risk seg)) 6 0.9%float
    (match coords with
     | Some _ => None
     | None => Some (js "10 10")
     end).

(** The line of a segment with stored geometry. *)
Definition storedLine (seg : Segment) (coords : list LngLat) : Polyline :=
  mkPolyline (map swap coords) (riskColor (risk seg)) 6 0.9%float None.

Lemma segmentLine_wellFormed seg a b coords :
  (forall cs, coords = Some cs -> 2 <= length cs) ->
  wellFormed (segmentLine seg a b coords).
Proof.
  intros H. unfold wellFormed, segmentLine. cbn [latlngs].
  destruct coords as [cs|]; [|simpl; lia].
  rewrite length_map. apply H. reflexivity.
Qed.

Lemma drawBetween_detail seg a b st :
  exists st' coords,
    drawBetween seg a b st = (Ok tt, st')
    /\ (forall cs, coords = Some cs -> 2 <= length cs)
    /\ prev st' = Some b
    /\ failedSegments st' = failedSegments st
    /\ routeLayer st' = routeLayer st ++ [segmentLine seg a b coords]
    /\ bounds st' = bounds st ++ latlngs (segmentLine seg a b coords).
Proof.
  unfold drawBetween, bind, modify, pushBounds, addPolyline.
  destruct (osrmRoute a b (setPrev (Some b) st)) as [res st1] eqn:E.
  pose proof (osrmRoute_frame _ _ _ E)
    as ([coords ->] & (Hl & Hb & Hp & Hf) & _).
  set (line := segmentLine seg a b coords).
  set (st2 := setBounds (bounds st1 ++ latlngs line) st1).
  exists (setRouteLayer (routeLayer st2 ++ [line]) st2), coords.
  subst st2 line.
  split; [reflexivity|]. split.
  { intros cs ->. eapply osrmRoute_length; eassumption. }
  cbn [prev failedSegments routeLayer bounds setRouteLayer setBounds].
  rewrite Hp, Hf, Hl, Hb. cbn [prev failedSegments routeLayer bounds setPrev].
  auto.
Qed.

Lemma drawStored_detail seg coords st :
  exists st',
    drawStored seg coords st = (Ok tt, st')
    /\ requests st' = requests st
    /\ geocodeStore st' = geocodeStore st
    /\ osrmStore st' = osrmStore st
    /\ failedSegments st' = failedSegments st
    /\ routeLayer st' = routeLayer st ++ [storedLine seg coords]
    /\ bounds st' = bounds st ++ map swap coords
    /\ prev st'
       = (if inUkBounds (snd (List.last coords (nan, nan)))
                        (fst (List.last coords (nan, nan)))
          then Some (mkPoint (snd (List.last coords (nan, nan)))
                             (fst (List.last coords (nan, nan))) None)
          else prev st).
Proof.
  unfold drawStored, bind, modify, ret, pushBounds, addPolyline, storedLine.
  destruct (inUkBounds _ _); eexists; (split; [reflexivity|]);
    cbn; repeat split; reflexivity.
Qed.

Lemma resolveFrom_detail seg fromLabel st a st1 :
  resolveFrom seg fromLabel st = (Ok (Some a), st1) ->
  prev st = Some a
  \/ (prev st = None /\ inUkBounds (lat a) (lng a) = true).
Proof.
  unfold resolveFrom, bind, gets.
  destruct (prev st) as [p|].
  { intros H. injection H as <- _. left. reflexivity. }
  right. split; [reflexivity|].
  destruct (pinned (fromCoords seg)) as [p|] eqn:Hp.
  { injection H as <- _. eapply pinned_inUk. eassumption. }
  destruct (nonEmpty fromLabel && negb (looksLikeRoadOnly fromLabel));
    [|discriminate].
  destruct (geocodePlace fromLabel None st) as [[x|e] st2] eqn:E;
    [|discriminate].
  injection H as <- _. eapply geocodePlace_inUk. eassumption.
Qed.

(** What a segment drawn from its labels guarantees. *)
Lemma drawResolved_success r segs i seg st st' :
  drawResolved r segs i seg st = (Ok tt, st') ->
  exists a b coords,
    (prev st = Some a
     \/ (prev st = None /\ inUkBounds (lat a) (lng a) = true))
    /\ inUkBounds (lat b) (lng b) = true
    /\ (180 <? haversineKm a b)%float = false
    /\ (forall cs, coords = Some cs -> 2 <= length cs)
    /\ prev st' = Some b
    /\ failedSegments st' = failedSegments st
    /\ routeLayer st' = routeLayer st ++ [segmentLine seg a b coords]
    /\ bounds st' = bounds st ++ latlngs (segmentLine seg a b coords).
Proof.
  unfold drawResolved, bind.
  destruct (resolveFrom seg _ st) as [[[a|]|e] st1] eqn:Ea;
    try discriminate.
  pose proof (resolveFrom_frame _ _ _ Ea) as Fa.
  apply resolveFrom_detail in Ea.
  destruct (resolveTo seg _ a st1) as [[[b|]|e] st2] eqn:Eb;
    try discriminate.
  pose proof (resolveTo_frame _ _ _ _ Eb) as Fb.
  pose proof (sameDrawing_trans Fa Fb) as (Hl & Hbd & _ & Hf).
  destruct (inUkBounds (lat b) (lng b)) eqn:Hb; [|discriminate].
  cbn [negb].
  destruct (180 <? haversineKm a b)%float eqn:Hkm; [discriminate|].
  destruct (drawBetween_detail seg a b st2)
    as (st3 & coords & -> & Hcs & Hp3 & Hf3 & Hl3 & Hb3).
  intros H. injection H as <-.
  exists a, b, coords. rewrite Hl3, Hb3, Hf3, Hl, Hbd, Hf. auto 10.
Qed.

End WithEnv.

End PathFacts.

(** ** The endpoint resolver and the path builder, further *)

Module ResolverFacts.

Import StrFacts LookupFacts.

Section WithEnv.

Context {env : Env} {A : Type} {endpoints : Endpoints A}.

(** Resolving an endpoint leaves the drawing and the route cache alone,
    and issues at most two requests. *)
Lemma resolveEndpoint_frame (seg : A) key hint labelOverride st res st' :
  resolveEndpoint seg key hint labelOverride st = (res, st') ->
  sameDrawing st st'
  /\ osrmStore st' = osrmStore st
  /\ exists asked,
      requests st' = requests st ++ asked /\ length asked <= 2.
Proof.
  assert (same : forall (x : Res Point),
             (x, st) = (res, st') ->
             sameDrawing st st'
             /\ osrmStore st' = osrmStore st
             /\ exists asked,
                 requests st' = requests st ++ asked /\ length asked <= 2).
  { intros x H. injection H as _ <-.
    split; [apply sameDrawing_refl|]. split; [reflexivity|].
    exists []. rewrite app_nil_r. auto. }
  unfold resolveEndpoint.
  destruct (resolveOverride (coordsAt seg key)); [apply same|].
  destruct (negb (nonEmpty _)).
  - destruct (hintUsable hint); apply same.
  - apply geocodePlace_frame.
Qed.

End WithEnv.

End ResolverFacts.

Section ResolverProperties.

Context {env : Env}.

Import StrFacts LookupFacts ResolverFacts.

(** X11. [resolveEndpoint] called without a hint, as the preview of the
    route editor calls it, returns only coordinates that satisfy the
    envelope.  With or without a hint, it leaves the drawing and the route
    cache alone and issues at most two requests. *)
Theorem X11_resolve_without_hint :
  (forall (A : Type) (endpoints : Endpoints A) (seg : A) key labelOverride
          st p st',
      resolveEndpoint seg key None labelOverride st = (Ok p, st') ->
      inEnvelope p)
  /\ (forall (A : Type) (endpoints : Endpoints A) (seg : A) key hint
             labelOverride st res st',
         resolveEndpoint seg key hint labelOverride st = (res, st') ->
         sameDrawing st st'
         /\ osrmStore st' = osrmStore st
         /\ exists asked,
             requests st' = requests st ++ asked /\ length asked <= 2).
Proof.
  split.
  - intros A endpoints seg key labelOverride st p st' H.
    apply resolveEndpoint_cases in H. destruct H as [H | [H _]].
    + apply inUkBounds_inEnvelope. assumption.
    + discriminate.
  - intros A endpoints seg key hint labelOverride st res st' H.
    eapply resolveEndpoint_frame. eassumption.
Qed.

End ResolverProperties.

Section PathProperties.

Context {env : Env}.

Import StrFacts LookupFacts RouteFacts RouteCacheFacts DrawFacts PathFacts.

(** X15. A route drawn from stored geometry needs no network: when every
    segment of the route carries a stored geometry of at least two
    positions, and the route has no start label or has a pinned start
    inside the bounds, drawing the route issues no request and touches no
    cache, no segment fails, and the layer gains the stored lines of the
    segments, in order, and nothing else. *)
Theorem X15_stored_route_is_drawn_offline r st :
  (forall s, In s (segments r) ->
             exists c1 c2 cs, geometry s = Some (c1 :: c2 :: cs)) ->
  nonEmpty (trim (orElse (startPostcode r) (startLabel r))) = false
  \/ (exists p, pinned (startCoords r) = Some p) ->
  requests (drawRoute r st) = requests st
  /\ geocodeStore (drawRoute r st) = geocodeStore st
  /\ osrmStore (drawRoute r st) = osrmStore st
  /\ failedSegments (drawRoute r st) = 0
  /\ routeLayer (drawRoute r st)
     = routeLayer st
       ++ map (fun s =>
                 storedLine s (match geometry s with
                               | Some cs => cs
                               | None => []
                               end))
              (segments r).
Proof.
  intros Hgeo Hstart.
  assert (loop : forall rest i st0,
             (forall s, In s rest ->
                        exists c1 c2 cs, geometry s = Some (c1 :: c2 :: cs)) ->
             let st1 := segmentLoop r (segments r) i rest st0 in
             requests st1 = requests st0
             /\ geocodeStore st1 = geocodeStore st0
             /\ osrmStore st1 = osrmStore st0
             /\ failedSegments st1 = failedSegments st0
             /\ routeLayer st1
                = routeLayer st0
                  ++ map (fun s =>
                            storedLine s (match geometry s with
                                          | Some cs => cs
                                          | None => []
                                          end))
                         rest).
  { induction rest as [|s rest IH]; intros i st0 Hrest; simpl.
    - rewrite app_nil_r. auto.
    - destruct (Hrest s (or_introl eq_refl)) as (c1 & c2 & cs & Hs).
      assert (Hstep : segmentStep r (segments r) i s st0
                      = snd (drawStored s (c1 :: c2 :: cs) st0)
                        /\ fst (drawStored s (c1 :: c2 :: cs) st0) = Ok tt).
      { unfold segmentStep, drawSegment. rewrite Hs.
        destruct (drawStored_detail s (c1 :: c2 :: cs) st0)
          as (st1 & -> & _). auto. }
      destruct Hstep as [Hstep _].
      destruct (drawStored_detail s (c1 :: c2 :: cs) st0)
        as (st1 & E & Hr & Hg & Ho & Hf & Hl & _).
      rewrite E in Hstep. cbn [snd] in Hstep. rewrite Hstep.
      destruct (IH (S i) st1 (fun s' H => Hrest s' (or_intror H)))
        as (Ir & Ig & Io & If & Il).
      rewrite Ir, Ig, Io, If, Il, Hr, Hg, Ho, Hf, Hl, Hs, <- app_assoc.
      auto. }
  assert (init : exists p, initPrev r st = (Ok tt, setPrev p st)).
  { destruct Hstart as [Hb | [p Hp]].
    - exists None. apply initPrev_blank. assumption.
    - destruct (nonEmpty (trim (orElse (startPostcode r) (startLabel r))))
        eqn:Hb.
      + exists (Some p). apply initPrev_pinned; assumption.
      + exists None. apply initPrev_blank. assumption. }
  destruct init as (p & Hinit).
  unfold drawRoute, afterSegments. rewrite Hinit. cbn [snd].
  destruct (loop (segments r) 0 (setFailedSegments 0 (setPrev p st)) Hgeo)
    as (Lr & Lg & Lo & Lf & Ll).
  cbn [failedSegments requests geocodeStore osrmStore routeLayer
       setFailedSegments setPrev] in Lr, Lg, Lo, Lf, Ll.
  unfold routeFallback, bind, gets. rewrite Lf.
  change (Nat.ltb 0 0) with false. cbv iota. unfold ret. cbn [snd].
  rewrite Lr, Lg, Lo, Lf, Ll. auto.
Qed.


(** X17. The anchor of the chain never leaves the bounds: after
    [initPrev], after each turn of the segment loop and when the loop
    ends, [prev] is [null] or a point that passes [inUkBounds]. *)
Theorem X17_anchor_stays_in_bounds :
  (forall r st, anchorOk (snd (initPrev r st)))
  /\ (forall r segs i seg st,
         anchorOk st -> anchorOk (segmentStep r segs i seg st))
  /\ (forall r st, anchorOk (afterSegments r st)).
Proof.
  assert (init : forall r st, anchorOk (snd (initPrev r st))).
  { intros r st.
    destruct (nonEmpty (trim (orElse (startPostcode r) (startLabel r))))
      eqn:Hb.
    - destruct (pinned (startCoords r)) as [p|] eqn:Hp.
      + rewrite (initPrev_pinned _ _ Hb Hp). unfold anchorOk. simpl.
        eapply pinned_inUk. eassumption.
      + rewrite (initPrev_geocoded _ _ Hb Hp).
        destruct (geocodePlace _ None _) as [[p|e] st1] eqn:E.
        * unfold anchorOk. simpl. eapply geocodePlace_inUk. eassumption.
        * exact I.
    - rewrite (initPrev_blank _ _ Hb). exact I. }
  assert (step : forall r segs i seg st,
             anchorOk st -> anchorOk (segmentStep r segs i seg st)).
  { intros r segs i seg st Hst. unfold segmentStep.
    destruct (drawSegment r segs i seg st) as [res st1] eqn:E.
    assert (H1 : anchorOk st1).
    { unfold drawSegment in E.
      assert (resolved : drawResolved r segs i seg st = (res, st1) ->
                         anchorOk st1).
      { intros E'. destruct res as [[]|e].
        - apply drawResolved_success in E'.
          destruct E' as (a & b & coords & _ & Hb & _ & _ & Hp & _).
          unfold anchorOk. rewrite Hp. assumption.
        - apply drawResolved_cases in E'.
          destruct E' as [(e' & _ & Hd) | (Habs & _)]; [|discriminate].
          eapply sameDrawing_anchorOk; eassumption. }
      destruct (geometry seg) as [[|c1 [|c2 cs]]|]; try (apply resolved, E).
      destruct (drawStored_detail seg (c1 :: c2 :: cs) st)
        as (st2 & E2 & _ & _ & _ & _ & _ & _ & Hp).
      rewrite E2 in E. injection E as _ <-.
      unfold anchorOk. rewrite Hp.
      destruct (inUkBounds _ _) eqn:Hin; [exact Hin | exact Hst]. }
    destruct res; [exact H1 | exact H1]. }
  split; [exact init|]. split; [exact step|].
  intros r st. unfold afterSegments.
  assert (loop : forall rest i st0,
             anchorOk st0 -> anchorOk (segmentLoop r (segments r) i rest st0)).
  { induction rest as [|s rest IH]; intros i st0 H0; simpl; [exact H0|].
    apply IH. apply step. exact H0. }
  apply loop. exact (init r st).
Qed.

End PathProperties.

Module LayerFacts.

Import StrFacts LookupFacts RouteFacts RouteCacheFacts DrawFacts PathFacts.

Section WithEnv.

Context {env : Env}.

Lemma layerOk_sameLayer st st' :
  routeLayer st' = routeLayer st -> bounds st' = bounds st ->
  layerOk st -> layerOk st'.
Proof. intros Hl Hb [H1 H2]. unfold layerOk. rewrite Hl, Hb. auto. Qed.

Lemma drawSegment_layerOk r segs i seg st res st' :
  drawSegment r segs i seg st = (res, st') -> layerOk st -> layerOk st'.
Proof.
  intros E Hst. unfold drawSegment in E.
  assert (resolved : drawResolved r segs i seg st = (res, st') ->
                     layerOk st').
  { intros E'. destruct res as [[]|e].
    - apply drawResolved_success in E'.
      destruct E' as (a & b & coords & _ & _ & _ & Hcs & _ & _ & Hl & Hb).
      eapply layerOk_add; try eassumption.
      apply segmentLine_wellFormed. assumption.
    - apply drawResolved_cases in E'.
      destruct E' as [(e' & _ & Hd) | (Habs & _)]; [|discriminate].
      eapply sameDrawing_layerOk; eassumption. }
  destruct (geometry seg) as [[|c1 [|c2 cs]]|]; try (apply resolved, E).
  destruct (drawStored_detail seg (c1 :: c2 :: cs) st)
    as (st2 & E2 & _ & _ & _ & _ & Hl & Hb & _).
  rewrite E2 in E. injection E as _ <-.
  eapply layerOk_add; try eassumption.
  unfold wellFormed, storedLine. simpl. lia.
Qed.

Lemma segmentLoop_layerOk r segs : forall rest i st,
  layerOk st -> layerOk (segmentLoop r segs i rest st).
Proof.
  induction rest as [|seg rest IH]; intros i st Hst; simpl; [exact Hst|].
  apply IH. unfold segmentStep.
  destruct (drawSegment r segs i seg st) as [res st1] eqn:E.
  pose proof (drawSegment_layerOk _ _ _ _ E Hst) as H1.
  destruct res; exact H1.
Qed.

Lemma initPrev_layerOk r st : layerOk st -> layerOk (snd (initPrev r st)).
Proof.
  intros Hst.
  destruct (nonEmpty (trim (orElse (startPostcode r) (startLabel r))))
    eqn:Hb.
  - destruct (pinned (startCoords r)) as [p|] eqn:Hp.
    + rewrite (initPrev_pinned _ _ Hb Hp). exact Hst.
    + rewrite (initPrev_geocoded _ _ Hb Hp).
      destruct (geocodePlace _ None _) as [[p|e] st1] eqn:E;
        apply geocodePlace_frame in E; destruct E as ((Hl & Hbd & _) & _);
        apply (@layerOk_sameLayer st); simpl; assumption.
  - rewrite (initPrev_blank _ _ Hb). exact Hst.
Qed.

Lemma fallbackAnchors_frame r st res st1 :
  fallbackAnchors r st = (res, st1) -> sameDrawing st st1.
Proof.
  unfold fallbackAnchors, bind.
  destruct (pinned (startCoords r)) as [p|].
  - unfold ret at 1.
    destruct (pinned (endCoords r)) as [q|].
    + intros H. injection H as _ <-. apply sameDrawing_refl.
    + destruct (geocodePlace _ (Some p) st) as [[x|e] st2] eqn:E;
        intros H; injection H as _ <-;
        apply geocodePlace_frame in E; apply E.
  - destruct (geocodePlace _ None st) as [[s|e] st0] eqn:Es;
      pose proof (proj1 (geocodePlace_frame _ _ _ Es)) as Fs.
    + destruct (pinned (endCoords r)) as [q|].
      * intros H. injection H as _ <-. exact Fs.
      * destruct (geocodePlace _ (Some s) st0) as [[x|e] st2] eqn:E;
          intros H; injection H as _ <-;
          apply geocodePlace_frame in E; destruct E as [E _];
          exact (sameDrawing_trans Fs E).
    + intros H. injection H as _ <-. exact Fs.
Qed.

Lemma fallbackLine_layerOk s f st res st' :
  fallbackLine s f st = (res, st') -> layerOk st -> layerOk st'.
Proof.
  unfold fallbackLine, bind, pushBounds, addPolyline, modify.
  destruct (inUkBounds (lat s) (lng s) && inUkBounds (lat f) (lng f)).
  - destruct (osrmRoute s f st) as [r1 st1] eqn:E.
    pose proof (osrmRoute_frame _ _ _ E)
      as ([coords ->] & (Hl & Hb & _) & _).
    intros H Hst. injection H as _ <-.
    eapply layerOk_add with (st := st1)
      (line := mkPolyline (fallbackPoints s f coords) (js "#9aa0a6") 5
                          0.6%float
                          (match coords with
                           | Some _ => Some (js "10 10")
                           | None => Some (js "6 10")
                           end)).
    + apply (@layerOk_sameLayer st); assumption.
    + unfold wellFormed, fallbackPoints. cbn [latlngs].
      destruct coords as [cs|]; [|simpl; lia].
      rewrite length_map. eapply osrmRoute_length. eassumption.
    + reflexivity.
    + reflexivity.
  - intros H Hst. injection H as _ <-. exact Hst.
Qed.

Lemma drawRoute_layerOk r st : layerOk st -> layerOk (drawRoute r st).
Proof.
  intros Hst. unfold drawRoute, routeFallback, bind, gets, tryCatch.
  assert (Ha : layerOk (afterSegments r st)).
  { unfold afterSegments. apply segmentLoop_layerOk.
    exact (@initPrev_layerOk r st Hst). }
  destruct (Nat.ltb 0 (failedSegments (afterSegments r st))); [|exact Ha].
  destruct (fallbackAnchors r (afterSegments r st)) as [[[s f]|e] st1] eqn:E;
    pose proof (sameDrawing_layerOk (fallbackAnchors_frame _ _ E) Ha) as H1.
  - cbn [fst snd].
    destruct (fallbackLine s f st1) as [[[]|e] st2] eqn:E2;
      exact (fallbackLine_layerOk _ _ E2 H1).
  - exact H1.
Qed.

End WithEnv.

End LayerFacts.

Section LayerProperties.

Context {env : Env}.

Import StrFacts PathFacts LayerFacts.

(** X18. What [drawRoutesOnMap] leaves on the map: every line of the
    layer has at least two positions, and the list [bounds] the map is
    fitted to holds exactly the positions of the lines of the layer, in
    order.  So [bounds] is empty exactly when the layer is empty: the map
    is fitted to the lines as soon as there is one. *)
Theorem X18_layer_and_bounds_agree all routeIds st :
  Forall wellFormed (routeLayer (drawRoutesOnMap all routeIds st))
  /\ bounds (drawRoutesOnMap all routeIds st)
     = concat (map latlngs (routeLayer (drawRoutesOnMap all routeIds st)))
  /\ (bounds (drawRoutesOnMap all routeIds st) = []
      <-> routeLayer (drawRoutesOnMap all routeIds st) = []).
Proof.
  assert (H : layerOk (drawRoutesOnMap all routeIds st)).
  { unfold drawRoutesOnMap.
    assert (fold : forall routes st0,
               layerOk st0 ->
               layerOk (fold_left (fun s r => drawRoute r s) routes st0)).
    { induction routes as [|r routes IH]; intros st0 H0; simpl;
        [exact H0|].
      apply IH. apply drawRoute_layerOk. exact H0. }
    apply fold. split; [constructor | reflexivity]. }
  destruct H as [Hw Hb]. split; [exact Hw|]. split; [exact Hb|].
  rewrite Hb.
  destruct (routeLayer (drawRoutesOnMap all routeIds st)) as [|l ls];
    [split; reflexivity|].
  split; [|discriminate]. intros E. exfalso.
  apply Forall_inv in Hw. unfold wellFormed in Hw. simpl in E.
  destruct (latlngs l); simpl in *; [lia | discriminate].
Qed.

(** X19. Only the selection counts, not how it is written: the routes
    drawn are the stored routes whose id is in [routeIds], in the order of
    the store, so two lists with the same ids give the same map; and when
    no stored route is selected the layer is cleared and nothing else
    happens. *)
Theorem X19_selection_decides all routeIds st :
  (forall routeIds',
      (forall x, In x routeIds <-> In x routeIds') ->
      drawRoutesOnMap all routeIds st = drawRoutesOnMap all routeIds' st)
  /\ ((forall r, In r all -> ~ In (id r) routeIds) ->
      drawRoutesOnMap all routeIds st = setBounds [] (setRouteLayer [] st)).
Proof.
  assert (sel : forall ids x,
             existsb (Str.eqb x) ids = true <-> In x ids).
  { intros ids x. rewrite existsb_exists. split.
    - intros (y & Hy & E). apply eqb_eq in E. subst. assumption.
    - intros Hx. exists x. split; [assumption | apply eqb_refl]. }
  split.
  - intros ids' Hsame. unfold drawRoutesOnMap. f_equal.
    apply filter_ext. intros r.
    destruct (existsb (Str.eqb (id r)) routeIds) eqn:E1;
      destruct (existsb (Str.eqb (id r)) ids') eqn:E2; try reflexivity.
    + apply sel, Hsame, sel in E1. congruence.
    + apply sel, Hsame, sel in E2. congruence.
  - intros Hnone. unfold drawRoutesOnMap.
    replace (filter (fun r => existsb (Str.eqb (id r)) routeIds) all)
      with (@nil Route); [reflexivity|].
    symmetry. induction all as [|r rest IH]; [reflexivity|]. simpl.
    destruct (existsb (Str.eqb (id r)) routeIds) eqn:E.
    + exfalso. apply sel in E. exact (Hnone r (or_introl eq_refl) E).
    + apply IH. intros r' Hr'. apply Hnone. right. assumption.
Qed.

End LayerProperties.

(** ** The route store, the search box, the preview and the photo
    references *)

Module TextFacts.

Import StrFacts.

Lemma startsWith_spec s p :
  startsWith s p = true <-> exists post, s = p ++ post.
Proof.
  revert s. induction p as [|x p IH]; intros s; destruct s as [|y s]; simpl.
  - split; [intros _; exists []; reflexivity | reflexivity].
  - split; [intros _; exists (y :: s); reflexivity | reflexivity].
  - split; [discriminate | intros [post H]; discriminate].
  - rewrite andb_true_iff, N.eqb_eq, IH. split.
    + intros [-> [post ->]]. exists post. reflexivity.
    + intros [post H]. injection H as -> ->. split; [reflexivity|].
      exists post. reflexivity.
Qed.

Lemma includes_spec s q :
  includes s q = true <-> exists pre post, s = pre ++ q ++ post.
Proof.
  induction s as [|y s IH].
  - cbn [includes]. rewrite orb_false_r, startsWith_spec. split.
    + intros [post H]. exists [], post. exact H.
    + intros (pre & post & H). destruct pre as [|z pre]; [|discriminate].
      exists post. exact H.
  - cbn [includes]. rewrite orb_true_iff, startsWith_spec, IH. split.
    + intros [[post H] | (pre & post & H)].
      * exists [], post. exact H.
      * exists (y :: pre), post. simpl. rewrite H. reflexivity.
    + intros (pre & post & H). destruct pre as [|z pre].
      * left. exists post. exact H.
      * right. injection H as _ H. exists pre, post. exact H.
Qed.

(** Being a part of a string is transitive. *)
Lemma includes_trans s q2 q1 :
  includes s q2 = true -> includes q2 q1 = true -> includes s q1 = true.
Proof.
  rewrite !includes_spec. intros (p2 & t2 & ->) (p1 & t1 & ->).
  exists (p2 ++ p1), (t1 ++ t2). rewrite <- !app_assoc. reflexivity.
Qed.

Lemma includes_nil_l q : includes [] q = true -> q = [].
Proof. destruct q; [reflexivity | discriminate]. Qed.

End TextFacts.

Section StoreProperties.

Context {env : Env}.

Import StrFacts TextFacts.

(** X20. The route store is never empty for its readers.  [get] returns
    a list that is not empty, leaves that list in the store, and returns
    it again when called again.  [save] followed by [get] gives back the
    list saved, unless it is empty: then [get] gives the seed routes and
    stores them.  So deleting the only route of the store brings the seed
    routes back. *)
Theorem X20_route_store_is_never_empty :
  (forall s,
      fst (LST_STORE.get s) <> []
      /\ snd (LST_STORE.get s) = RouteArray (fst (LST_STORE.get s))
      /\ LST_STORE.get (snd (LST_STORE.get s)) = LST_STORE.get s)
  /\ (forall routes s,
         LST_STORE.get (LST_STORE.save routes s)
         = match routes with
           | [] => (SEED_ROUTES, RouteArray SEED_ROUTES)
           | _ :: _ => (routes, RouteArray routes)
           end)
  /\ (forall rid s,
         (forall r, In r (fst (LST_STORE.get s)) -> id r = rid) ->
         LST_STORE.get (deleteRoute rid s)
         = (SEED_ROUTES, RouteArray SEED_ROUTES)).
Proof.
  split; [|split].
  - intros [|[|r rs]]; simpl; repeat split; discriminate.
  - intros [|r rs] s; reflexivity.
  - intros rid s Hall. unfold deleteRoute.
    destruct (LST_STORE.get s) as [routes s1]. cbn [fst] in Hall.
    replace (filter (fun r => negb (Str.eqb (id r) rid)) routes)
      with (@nil Route); [reflexivity|].
    symmetry. induction routes as [|r rs IH]; [reflexivity|]. simpl.
    rewrite (Hall r (or_introl eq_refl)), eqb_refl. simpl.
    apply IH. intros r' Hr'. apply Hall. right. assumption.
Qed.

(** X21. A query that contains another finds no more than it: when the
    text [filterRoutes] looks for (the query trimmed and in lower case) for
    [q1] is a part of the one for [q2], every route found for [q2] is
    found for [q1]; and filtering by [q1] first and by [q2] next gives
    what filtering by [q2] gives.  The routes found are routes of the
    list, in its order. *)
Theorem X21_longer_query_narrows routes q1 q2 :
  includes (toLowerCase (trim q2)) (toLowerCase (trim q1)) = true ->
  incl (filterRoutes routes q2) (filterRoutes routes q1)
  /\ filterRoutes (filterRoutes routes q1) q2 = filterRoutes routes q2
  /\ incl (filterRoutes routes q1) routes.
Proof.
  intros Hq. unfold filterRoutes.
  assert (comp : forall (p1 p2 : Route -> bool) l,
             (forall r, p2 r = true -> p1 r = true) ->
             filter p2 (filter p1 l) = filter p2 l).
  { intros p1 p2 l Himp. induction l as [|r l IH]; [reflexivity|]. simpl.
    destruct (p1 r) eqn:E1; simpl.
    - destruct (p2 r); rewrite IH; reflexivity.
    - destruct (p2 r) eqn:E2; [|exact IH].
      apply Himp in E2. congruence. }
  assert (sub : forall (p : Route -> bool) l, incl (filter p l) l).
  { intros p l r Hr. apply filter_In in Hr. apply Hr. }
  destruct (nonEmpty (toLowerCase (trim q2))) eqn:E2; simpl.
  - destruct (nonEmpty (toLowerCase (trim q1))) eqn:E1; simpl.
    + assert (Himp : forall r,
                 includes (routeHaystack r) (toLowerCase (trim q2)) = true ->
                 includes (routeHaystack r) (toLowerCase (trim q1)) = true).
      { intros r Hr. eapply includes_trans; eassumption. }
      split; [|split; [apply comp; assumption | apply sub]].
      intros r Hr. apply filter_In in Hr. destruct Hr as [Hin Hr].
      apply filter_In. auto.
    + split; [apply sub|]. split; [reflexivity | apply incl_refl].
  - apply nonEmpty_false in E2. rewrite E2 in Hq.
    apply includes_nil_l in Hq. rewrite Hq. simpl.
    split; [apply incl_refl|]. split; [reflexivity | apply incl_refl].
Qed.

(** X22. A reference to a stored photo reads back: the reference
    [saveFile] builds for a photo id is recognised by [isIdbUrl], and
    [idFromUrl] gives the id back; and a reference that [isIdbUrl]
    recognises is the one built from the id [idFromUrl] reads in it. *)
Theorem X22_photo_reference_round_trip :
  (forall photoId,
      MediaStore.isIdbUrl (MediaStore.urlOfId photoId) = true
      /\ MediaStore.idFromUrl (MediaStore.urlOfId photoId) = photoId)
  /\ (forall url,
         MediaStore.isIdbUrl url = true ->
         MediaStore.urlOfId (MediaStore.idFromUrl url) = url).
Proof.
  split.
  - intros photoId. split; [|reflexivity].
    apply startsWith_spec. exists photoId. reflexivity.
  - intros url H. apply startsWith_spec in H. destruct H as [post ->].
    reflexivity.
Qed.

End StoreProperties.

Module PreviewFacts.

Import StrFacts LookupFacts RouteFacts RouteCacheFacts DrawFacts PathFacts.
Import ResolverFacts.

Section WithEnv.

Context {env : Env}.

(** The positions of the line of a segment in the preview. *)
Definition previewPath (seg : Segment) : M (list LatLng) :=
  match geometry seg with
  | Some ((_ :: _ :: _) as coords) => ret (map swap coords)
  | _ =>
      a <- resolveEndpoint seg KFrom None None ;;
      b <- resolveEndpoint seg KTo None None ;;
      coords <- osrmRoute a b ;;
      ret (match coords with
           | Some ((_ :: _ :: _) as cs) => map swap cs
           | _ => [(lat a, lng a); (lat b, lng b)]
           end)
  end.

Lemma previewSegment_eq seg st :
  previewSegment seg st =
  if negb (nonEmpty (from seg)) || negb (nonEmpty (to seg))
  then (Ok None, st)
  else
    match previewPath seg st with
    | (Ok lls, st') =>
        (Ok (Some (mkPolyline lls (riskColor (risk seg)) 5 0.9%float None)),
         st')
    | (Err _, st') => (Ok None, st')
    end.
Proof.
  unfold previewSegment, previewPath, tryCatch, bind.
  destruct (negb (nonEmpty (from seg)) || negb (nonEmpty (to seg)));
    [reflexivity|].
  destruct (geometry seg) as [[|c1 [|c2 cs]]|]; try reflexivity;
    (destruct (resolveEndpoint seg KFrom None None st) as [[a|e] s1];
     [|reflexivity];
     destruct (resolveEndpoint seg KTo None None s1) as [[b|e] s2];
     [|reflexivity];
     destruct (osrmRoute a b s2) as [[c|e] s3]; reflexivity).
Qed.

Lemma previewPath_cases seg st x st' :
  previewPath seg st = (x, st') ->
  ((exists lls, x = Ok lls /\ 2 <= length lls) \/ (exists e, x = Err e))
  /\ sameDrawing st st'.
Proof.
  assert (labels :
            (a <- resolveEndpoint seg KFrom None None ;;
             b <- resolveEndpoint seg KTo None None ;;
             coords <- osrmRoute a b ;;
             ret (match coords with
                  | Some ((_ :: _ :: _) as cs) => map swap cs
                  | _ => [(lat a, lng a); (lat b, lng b)]
                  end)) st = (x, st') ->
            ((exists lls, x = Ok lls /\ 2 <= length lls)
             \/ (exists e, x = Err e))
            /\ sameDrawing st st').
  { unfold bind.
    destruct (resolveEndpoint seg KFrom None None st) as [[a|e] s1] eqn:Ea;
      pose proof (proj1 (resolveEndpoint_frame _ _ _ _ _ Ea)) as Fa.
    2:{ intros H. injection H as <- <-. split; [right; eauto | exact Fa]. }
    destruct (resolveEndpoint seg KTo None None s1) as [[b|e] s2] eqn:Eb;
      pose proof (proj1 (resolveEndpoint_frame _ _ _ _ _ Eb)) as Fb.
    2:{ intros H. injection H as <- <-.
        split; [right; eauto | exact (sameDrawing_trans Fa Fb)]. }
    destruct (osrmRoute a b s2) as [r3 s3] eqn:Er.
    pose proof (osrmRoute_frame _ _ _ Er) as ([coords ->] & Fr & _).
    intros H. injection H as <- <-. split.
    - left. eexists. split; [reflexivity|].
      destruct coords as [[|c1 [|c2 cs]]|]; simpl; lia.
    - exact (sameDrawing_trans (sameDrawing_trans Fa Fb) Fr). }
  unfold previewPath.
  destruct (geometry seg) as [[|c1 [|c2 cs]]|]; try exact labels.
  intros H. injection H as <- <-. split; [|apply sameDrawing_refl].
  left. eexists. split; [reflexivity|]. simpl. lia.
Qed.

(** One turn of the preview loop: no line, or one well-formed line in the
    colour of the risk; the drawing of the public map is not touched. *)
Lemma previewSegment_cases seg st res st' :
  previewSegment seg st = (res, st') ->
  (res = Ok None
   \/ exists line,
       res = Ok (Some line) /\ wellFormed line
       /\ color line = riskColor (risk seg))
  /\ sameDrawing st st'.
Proof.
  rewrite previewSegment_eq.
  destruct (negb (nonEmpty (from seg)) || negb (nonEmpty (to seg))).
  { intros H. injection H as <- <-. split; [left; reflexivity|].
    apply sameDrawing_refl. }
  destruct (previewPath seg st) as [x s4] eqn:E.
  apply previewPath_cases in E.
  destruct E as [[(lls & -> & Hl) | (e & ->)] Hd];
    intros H; injection H as <- <-.
  - split; [|exact Hd]. right. eexists. split; [reflexivity|].
    split; [exact Hl | reflexivity].
  - split; [left; reflexivity | exact Hd].
Qed.

(** The loop of the preview. *)
Lemma previewLoop_cases : forall segs st,
  Forall wellFormed (fst (previewLoop segs st))
  /\ length (fst (previewLoop segs st)) <= length segs
  /\ sameDrawing st (snd (previewLoop segs st)).
Proof.
  induction segs as [|seg rest IH]; intros st; simpl.
  - split; [constructor|]. split; [lia | apply sameDrawing_refl].
  - destruct (previewSegment seg st) as [res st1] eqn:E.
    apply previewSegment_cases in E. destruct E as [Hres Hd].
    specialize (IH st1). destruct (previewLoop rest st1) as [lines st2].
    cbn [fst snd] in *. destruct IH as (Hw & Hl & Hd2).
    destruct Hres as [-> | (line & -> & Hline & _)].
    + split; [exact Hw|]. split; [lia|].
      exact (sameDrawing_trans Hd Hd2).
    + split; [constructor; assumption|]. split; [simpl; lia|].
      exact (sameDrawing_trans Hd Hd2).
Qed.

End WithEnv.

End PreviewFacts.

Section PreviewProperties.

Context {env : Env}.

Import StrFacts LookupFacts PathFacts PreviewFacts.

(** X23. The preview of the route editor: a segment without a [from] or
    a [to] text gives no line and no request; otherwise a segment gives no
    line (when an endpoint does not resolve) or one line of at least two
    positions in the colour of its risk.  So the preview has at most one
    line for each segment, each of at least two positions, and it leaves
    the drawing of the public map as it is. *)
Theorem X23_preview_lines :
  (forall seg st,
      nonEmpty (from seg) = false \/ nonEmpty (to seg) = false ->
      previewSegment seg st = (Ok None, st))
  /\ (forall seg st res st',
         previewSegment seg st = (res, st') ->
         res = Ok None
         \/ exists line,
             res = Ok (Some line) /\ wellFormed line
             /\ color line = riskColor (risk seg))
  /\ (forall segs st,
         Forall wellFormed (fst (previewLoop segs st))
         /\ length (fst (previewLoop segs st)) <= length segs
         /\ sameDrawing st (snd (previewLoop segs st))).
Proof.
  split; [|split].
  - intros seg st H. rewrite previewSegment_eq.
    replace (negb (nonEmpty (from seg)) || negb (nonEmpty (to seg)))
      with true; [reflexivity|].
    destruct H as [-> | ->]; [reflexivity|].
    symmetry. apply orb_true_r.
  - intros seg st res st' H. apply previewSegment_cases in H. apply H.
  - apply previewLoop_cases.
Qed.

End PreviewProperties.

(** ** Why a segment fails *)

Module FailureFacts.

Import RegexFacts StrFacts ClassifierFacts SearchFacts TrimFacts TokenFacts.
Import GeocodeFacts LookupFacts CacheFacts DrawFacts.

Lemma Star_Cls_intro (p : N -> bool) w :
  forallb p w = true -> forall b a c, Matches (Star (Cls p)) b w a c c.
Proof.
  induction w as [|x w IH]; intros Hw b a c.
  - apply MStar0.
  - simpl in Hw. apply andb_true_iff in Hw. destruct Hw as [Hx Hw].
    change (x :: w) with ([x] ++ w). apply MStarS with (c1 := c).
    + discriminate.
    + apply MCls. assumption.
    + apply IH. assumption.
Qed.

(** The first pattern of [looksLikeRoadOnly], [/^[AM]\d+\b/i], accepts
    what the road-only pattern accepts. *)
Lemma looseRoad_intro x ds tail :
  isRoadLetter x = true -> digits13 ds ->
  (tail = []
   \/ exists sp1 sp2 g,
       tail = sp1 ++ 47%N :: sp2 ++ g
       /\ blank sp1 /\ blank sp2 /\ roadTail g) ->
  test (Seq [Bol; roadLetterI; Plus digit; Bnd]) (x :: ds ++ tail) = true.
Proof.
  intros Hx [Hd Hl] Ht.
  assert (Hm : Matches (Seq [Bol; roadLetterI; Plus digit; Bnd]) []
                       (x :: ds) tail [] []).
  { cbn [Seq].
    apply MCat_eq with (w1 := []) (w2 := x :: ds) (c1 := []); [reflexivity| |].
    { apply MBol. }
    apply MCat_eq with (w1 := [x]) (w2 := ds) (c1 := []); [reflexivity| |].
    { apply MCls. exact Hx. }
    apply MCat_eq with (w1 := ds) (w2 := []) (c1 := []);
      [symmetry; apply app_nil_r| |].
    { unfold Plus, digit.
      destruct ds as [|d ds']; [simpl in Hl; lia|].
      simpl in Hd. apply andb_true_iff in Hd. destruct Hd as [Hd1 Hd2].
      apply MCat_eq with (w1 := [d]) (w2 := ds') (c1 := []); [reflexivity| |].
      - apply MCls. assumption.
      - apply Star_Cls_intro. assumption. }
    apply MBnd. unfold isBoundary. cbn [behind ahead].
    destruct (last_digit (conj Hd Hl)) as (ds' & d & -> & Hdig).
    rewrite rev_app_distr. simpl. rewrite (digit_word _ Hdig).
    destruct Ht as [-> | (sp1 & sp2 & g & -> & H1 & _)]; [reflexivity|].
    destruct sp1 as [|y sp1]; [reflexivity|].
    simpl. unfold blank in H1. simpl in H1.
    apply andb_true_iff in H1. destruct H1 as [Hy _].
    rewrite (ws_not_word _ Hy). reflexivity. }
  unfold test, search.
  pose proof (@searchFrom_complete _ _ _ _ [] [] Hm) as Hs.
  change ([] ++ (x :: ds) ++ tail) with (x :: ds ++ tail) in Hs.
  destruct (searchFrom (Seq [Bol; roadLetterI; Plus digit; Bnd]) []
                       (x :: ds ++ tail)); [reflexivity|].
  contradiction.
Qed.

Section WithEnv.

Context {env : Env}.

Lemma isRoadOnly_looksLikeRoadOnly v :
  isRoadOnlyLabel v = true -> looksLikeRoadOnly v = true.
Proof.
  unfold isRoadOnlyLabel, looksLikeRoadOnly. intros H.
  destruct (nonEmpty (trim v)) eqn:Hne; [|discriminate]. cbn [negb] in *.
  unfold test in H.
  destruct (search reRoadOnly (trim v)) as [f|] eqn:E; [|discriminate].
  unfold search in E. apply searchFrom_found in E.
  destruct E as (pre & w & a' & c & Et & Hm & _).
  apply reRoadOnly_word in Hm.
  destruct Hm as (Hb & -> & x & ds & Hx & Hd & Hw).
  rewrite app_nil_r in Hb. assert (pre = []) as ->.
  { destruct pre as [|p pre]; [reflexivity|]. simpl in Hb.
    destruct (rev pre); discriminate. }
  simpl in Et. rewrite app_nil_r in Et. rewrite Et.
  assert (E1 : test (Seq [Bol; roadLetterI; Plus digit; Bnd]) w = true).
  { destruct Hw as [-> | (sp1 & sp2 & g & -> & H1 & H2 & Hg)].
    - rewrite <- (app_nil_r ds). apply looseRoad_intro; auto.
    - apply looseRoad_intro; try assumption.
      right. exists sp1, sp2, g. auto. }
  rewrite E1. reflexivity.
Qed.

(** The two errors of [geocodePlace]. *)
Lemma geocodePlace_error label hint st e st' :
  geocodePlace label hint st = (Err e, st') ->
  e = MissingGeocodeLabel \/ e = NoMatchFor label.
Proof.
  rewrite geocodePlace_eq.
  destruct (negb (nonEmpty (keyOf label))).
  { intros H. injection H as <- _. left. reflexivity. }
  destruct (cachedEntry _ _); [discriminate|].
  rewrite geocodeLookup_eq.
  destruct (choose hint (candidates1 label _)); [discriminate|].
  destruct (choose hint (candidates2 label _)); [discriminate|].
  intros H. injection H as <- _. right. reflexivity.
Qed.

End WithEnv.

End FailureFacts.

Section FailureProperties.

Context {env : Env}.

Import StrFacts LookupFacts DrawFacts FailureFacts.

(** X24. A chain cannot start on a road name.  Whatever
    [isRoadOnlyLabel] accepts, [looksLikeRoadOnly] accepts.  So when the
    chain has no anchor and the segment no pinned [fromCoords] inside the
    bounds, a [from] label that is empty or a road name alone is not
    geocoded, and the segment fails with [Missing geocode label] before
    any request, leaving the state as it is. *)
Theorem X24_chain_cannot_start_on_road_name :
  (forall v, isRoadOnlyLabel v = true -> looksLikeRoadOnly v = true)
  /\ (forall r segs i seg st,
         prev st = None ->
         pinned (fromCoords seg) = None ->
         effectiveLabelForEndpoint r segs i KFrom = []
         \/ isRoadOnlyLabel (effectiveLabelForEndpoint r segs i KFrom)
            = true ->
         drawResolved r segs i seg st = (Err MissingGeocodeLabel, st)).
Proof.
  split; [exact isRoadOnly_looksLikeRoadOnly|].
  intros r segs i seg st Hp Hpin Hl.
  assert (Hfrom : resolveFrom seg (effectiveLabelForEndpoint r segs i KFrom)
                    st = (Ok None, st)).
  { unfold resolveFrom, bind, gets. cbv beta iota. rewrite Hp, Hpin.
    replace (nonEmpty (effectiveLabelForEndpoint r segs i KFrom)
             && negb (looksLikeRoadOnly
                        (effectiveLabelForEndpoint r segs i KFrom)))
      with false; [reflexivity|].
    destruct Hl as [-> | Hl]; [reflexivity|].
    rewrite (isRoadOnly_looksLikeRoadOnly _ Hl). symmetry.
    apply andb_false_r. }
  unfold drawResolved, bind. rewrite Hfrom. reflexivity.
Qed.

(** X25. The reasons for which a segment without stored geometry fails,
    when the queries of its two labels can be sent:
    [Missing geocode label], [No match for] one of its two labels,
    [Bad endpoint for] its road, or [Unrealistic segment jump] with a
    distance above 180 km.  [Bad endpoint] means that there is nothing to
    resolve the [to] endpoint from (no label to geocode, no pinned
    [toCoords] inside the bounds): a [to] endpoint that resolves is always
    inside the bounds.  In every case the drawing is left as it was. *)
Theorem X25_reasons_of_failure r segs i seg st e st' :
  let fromLabel := effectiveLabelForEndpoint r segs i KFrom in
  let toLabel :=
    if nonEmpty (effectiveLabelForEndpoint r segs i KTo)
    then effectiveLabelForEndpoint r segs i KTo
    else nextAnchorLabel r segs i in
  sendable fromLabel = true ->
  sendable toLabel = true ->
  drawResolved r segs i seg st = (Err e, st') ->
  (e = MissingGeocodeLabel
   \/ e = NoMatchFor fromLabel
   \/ e = NoMatchFor toLabel
   \/ (e = BadEndpointFor (road seg)
       /\ nonEmpty toLabel = false /\ pinned (toCoords seg) = None)
   \/ (exists km,
          e = UnrealisticSegmentJump km /\ (180 <? km)%float = true))
  /\ sameDrawing st st'.
Proof.
  intros fromLabel toLabel _ _ H. subst fromLabel. split.
  2:{ apply drawResolved_cases in H.
      destruct H as [(e' & _ & Hd) | (Habs & _)]; [exact Hd | discriminate]. }
  revert H. unfold drawResolved, bind. fold toLabel.
  destruct (resolveFrom seg _ st) as [[[a|]|e1] st1] eqn:Ea.
  - destruct (resolveTo seg toLabel a st1) as [[[b|]|e2] st2] eqn:Eb.
    + assert (Hb : inUkBounds (lat b) (lng b) = true).
      { unfold resolveTo, bind in Eb.
        destruct (pinned (toCoords seg)) as [q|] eqn:Hq.
        - injection Eb as <- _. eapply pinned_inUk. eassumption.
        - destruct (nonEmpty toLabel); [|discriminate].
          destruct (geocodePlace toLabel (Some a) st1) as [[x|e3] st3] eqn:E;
            [|discriminate].
          injection Eb as <- _. eapply geocodePlace_inUk. eassumption. }
      rewrite Hb. cbn [negb].
      destruct (180 <? haversineKm a b)%float eqn:Hkm.
      * intros H. injection H as <- _. do 4 right. eexists. split;
          [reflexivity | exact Hkm].
      * destruct (drawBetween_ok seg a b st2) as (st3 & line & -> & _).
        discriminate.
    + intros H. injection H as <- _. do 3 right. left.
      split; [reflexivity|].
      unfold resolveTo, bind in Eb.
      destruct (pinned (toCoords seg)) as [q|]; [discriminate|].
      destruct (nonEmpty toLabel); [|auto].
      destruct (geocodePlace toLabel (Some a) st1) as [[x|e3] st3];
        discriminate.
    + intros H. injection H as <- _.
      unfold resolveTo, bind in Eb.
      destruct (pinned (toCoords seg)) as [q|]; [discriminate|].
      destruct (nonEmpty toLabel); [|discriminate].
      destruct (geocodePlace toLabel (Some a) st1) as [[x|e3] st3] eqn:E;
        [discriminate|].
      injection Eb as <- _. apply geocodePlace_error in E.
      destruct E as [-> | ->]; auto.
  - intros H. injection H as <- _. left. reflexivity.
  - intros H. injection H as <- _.
    unfold resolveFrom, bind, gets in Ea.
    destruct (prev st); [discriminate|].
    destruct (pinned (fromCoords seg)); [discriminate|].
    destruct (nonEmpty _ && negb _); [|discriminate].
    destruct (geocodePlace _ None st) as [[x|e3] st3] eqn:E;
      [discriminate|].
    injection Ea as <- _. apply geocodePlace_error in E.
    destruct E as [-> | ->]; auto.
Qed.

End FailureProperties.

(** ** The further properties, on examples *)

Module MoreExamples.

Import Scenario.

Local Open Scope float_scope.

(** A cache written by the first version of the module. *)
Definition staleSt : St :=
  mkSt (Some [(js "__v", JNum 1);
              (js "leicester",
               JObj [(js "lat", JNum 52.0); (js "lng", JNum (-1.0))])])
       None [] [] [] None 0.



(** A route drawn in the editor with [Snap to road]: one segment, with its
    geometry. *)
Definition snapped : Route :=
  mkRoute (js "snapped") (js "Newmarket to Ely") [] [] [] None [] [] None
          [mkSegment [] (js "Pinned (52.24390, 0.40810)")
                     (js "Pinned (52.39950, 0.26220)") RiskM
                     (Some (mkPoint 52.2439 0.4081 None))
                     (Some (mkPoint 52.3995 0.2622 None))
                     (Some RouteExamples.newmarketToEly) []].

Definition lonely : Route :=
  mkRoute (js "only") (js "The only route") [] [] [] None [] [] None [].

End MoreExamples.

Lemma X2_white_space_witness :
  isInstructionLikeLabel (js "   ") = true
  /\ isRoadOnlyLabel (js "   ") = false
  /\ looksLikeRoadOnly (js "   ") = true
  /\ normalizeQ (js "   ") = [].
Proof.
  apply (proj2 X2_white_space_around_label_is_ignored). reflexivity.
Defined.

Lemma X4_road_token_witness :
  (exists pre x ds rest,
      js "Take exit onto a17 / 47" = pre ++ x :: ds ++ rest
      /\ ClassifierFacts.isRoadLetter x = true
      /\ ClassifierFacts.digits13 ds
      /\ isBoundary (mkPos (rev pre) (x :: ds ++ rest)) = true
      /\ (@extractRoadToken Scenario.offline (js "Take exit onto a17 / 47")
          = upperAscii x :: ds
          \/ exists g,
              g <> []
              /\ @extractRoadToken Scenario.offline
                   (js "Take exit onto a17 / 47")
                 = upperAscii x :: ds ++ code "/" :: g))
  /\ @extractRoadToken Scenario.offline (js "Bickers Yard") = [].
Proof.
  split.
  - apply (proj1 (@X4_road_token_occurs_in_label Scenario.offline)).
    vm_compute. discriminate.
  - apply (proj2 (@X4_road_token_occurs_in_label Scenario.offline)).
    vm_compute. reflexivity.
Defined.

Lemma X5_road_only_witness :
  @extractRoadToken Scenario.offline (js " a17 / 47 ") <> [].
Proof.
  apply (@X5_road_only_label_has_token Scenario.offline).
  vm_compute. reflexivity.
Defined.

(** Paris is known to the place search, outside the bounds: the lookup
    fails after its two queries and stores nothing. *)
Lemma X6_geocode_failure_witness :
  requests (snd (@geocodePlace Scenario.online (js "Paris") None
                   Scenario.emptySt))
  = [PlaceSearch (js "Paris, UK"); PlaceSearch (js "Paris")]
  /\ LookupFacts.cachedEntry (js "paris")
       (LookupFacts.freshCacheOf
          (snd (@geocodePlace Scenario.online (js "Paris") None
                  Scenario.emptySt)))
     = None.
Proof.
  destruct (@X6_geocode_failures Scenario.online (js "Paris") None
              Scenario.emptySt (NoMatchFor (js "Paris"))
              (snd (@geocodePlace Scenario.online (js "Paris") None
                      Scenario.emptySt)))
    as [(Habs & _) | (_ & _ & Hr & Hc)].
  - vm_compute. reflexivity.
  - vm_compute. reflexivity.
  - discriminate.
  - split; [exact Hr | exact Hc].
Defined.

(** The cache of version 1 is dropped, its Leicester included. *)
Lemma X7_stale_cache_witness :
  geocodeStore (snd (@geocodePlace Scenario.online (js "Leicester") None
                       MoreExamples.staleSt))
  = Some [(js "__v", JNum 2);
          (js "leicester", jsonOfPoint ResolverExamples.leicester)].
Proof.
  apply (proj2 (@X7_stale_cache_is_dropped Scenario.online (js "Leicester")
                  None MoreExamples.staleSt
                  ltac:(vm_compute; reflexivity)
                  ltac:(vm_compute; reflexivity)
                  ltac:(vm_compute; discriminate)
                  ltac:(vm_compute; reflexivity))
               ResolverExamples.leicester).
  vm_compute. reflexivity.
Defined.


(** Looking Leicester up leaves the stored Springfield as it is. *)
Lemma X9_other_places_witness :
  getProp (js "springfield")
          (readJSON (geocodeStore
                       (snd (@geocodePlace Scenario.online (js "Leicester")
                               None Scenario.springfieldCached))))
  = getProp (js "springfield")
            (readJSON (geocodeStore Scenario.springfieldCached)).
Proof.
  apply (@X9_other_cached_places_are_kept Scenario.online (js "Leicester")
           None Scenario.springfieldCached
           (fst (@geocodePlace Scenario.online (js "Leicester") None
                   Scenario.springfieldCached))
           (snd (@geocodePlace Scenario.online (js "Leicester") None
                   Scenario.springfieldCached))
           (js "springfield")).
  - vm_compute. reflexivity.
  - vm_compute. reflexivity.
  - vm_compute. discriminate.
Defined.


(** The [to] of a segment pinned outside the bounds resolves, without a
    hint, to the place of its label. *)
Lemma X11_resolve_witness :
  inEnvelope ResolverExamples.leicester
  /\ LookupFacts.sameDrawing Scenario.emptySt
       (snd (@resolveEndpoint Scenario.online _ _
               ResolverExamples.badPinSegment KTo None None
               Scenario.emptySt)).
Proof.
  split.
  - apply (proj1 (@X11_resolve_without_hint Scenario.online) _ _
             ResolverExamples.badPinSegment KTo None Scenario.emptySt
             ResolverExamples.leicester
             (snd (@resolveEndpoint Scenario.online _ _
                     ResolverExamples.badPinSegment KTo None None
                     Scenario.emptySt))).
    vm_compute. reflexivity.
  - apply (proj2 (@X11_resolve_without_hint Scenario.online) _ _
             ResolverExamples.badPinSegment KTo None None Scenario.emptySt
             (fst (@resolveEndpoint Scenario.online _ _
                     ResolverExamples.badPinSegment KTo None None
                     Scenario.emptySt))
             (snd (@resolveEndpoint Scenario.online _ _
                     ResolverExamples.badPinSegment KTo None None
                     Scenario.emptySt))).
    vm_compute. reflexivity.
Defined.

(** The road from Newmarket to Ely is asked for once. *)
Lemma X12_route_again_witness :
  @osrmRoute RouteExamples.routedHost Scenario.newmarket RouteExamples.ely
    (snd (@osrmRoute RouteExamples.routedHost Scenario.newmarket
            RouteExamples.ely Scenario.emptySt))
  = (Ok (Some RouteExamples.newmarketToEly),
     snd (@osrmRoute RouteExamples.routedHost Scenario.newmarket
            RouteExamples.ely Scenario.emptySt)).
Proof.
  apply (@X12_route_is_served_again RouteExamples.routedHost
           Scenario.newmarket RouteExamples.ely Scenario.emptySt
           RouteExamples.newmarketToEly).
  - vm_compute. reflexivity.
  - intros c [<- | [<- | [<- | []]]]; repeat split; vm_compute; reflexivity.
  - simpl. lia.
Defined.

Lemma X13_route_result_witness :
  (exists r,
      fst (@osrmRoute RouteExamples.routedHost Scenario.newmarket
             RouteExamples.ely Scenario.emptySt) = Ok r
      /\ forall cs, r = Some cs -> 2 <= length cs)
  /\ (requests (snd (@osrmRoute RouteExamples.routedHost Scenario.newmarket
                       RouteExamples.ely Scenario.emptySt))
      = requests Scenario.emptySt
      \/ requests (snd (@osrmRoute RouteExamples.routedHost
                          Scenario.newmarket RouteExamples.ely
                          Scenario.emptySt))
         = requests Scenario.emptySt
           ++ [RouteRequest (lng Scenario.newmarket) (lat Scenario.newmarket)
                            (lng RouteExamples.ely) (lat RouteExamples.ely)]).
Proof.
  destruct (@X13_route_result RouteExamples.routedHost Scenario.newmarket
              RouteExamples.ely Scenario.emptySt
              (fst (@osrmRoute RouteExamples.routedHost Scenario.newmarket
                      RouteExamples.ely Scenario.emptySt))
              (snd (@osrmRoute RouteExamples.routedHost Scenario.newmarket
                      RouteExamples.ely Scenario.emptySt)))
    as (H1 & H2 & _).
  - vm_compute. reflexivity.
  - split; [exact H1 | exact H2].
Defined.

Lemma X14_route_cache_witness :
  length (readJSON (osrmStore
                      (snd (@osrmRoute RouteExamples.routedHost
                              Scenario.newmarket RouteExamples.ely
                              RouteExamples.strayStore))))
  <= 250.
Proof.
  apply (@X14_route_cache_is_bounded RouteExamples.routedHost
           Scenario.newmarket RouteExamples.ely RouteExamples.strayStore).
  simpl. lia.
Defined.

(** The route snapped to the road is drawn with both services down. *)
Lemma X15_stored_route_witness :
  requests (@drawRoute Scenario.offline MoreExamples.snapped Scenario.emptySt)
  = requests Scenario.emptySt
  /\ failedSegments (@drawRoute Scenario.offline MoreExamples.snapped
                       Scenario.emptySt) = 0
  /\ length (routeLayer (@drawRoute Scenario.offline MoreExamples.snapped
                           Scenario.emptySt)) = 1.
Proof.
  destruct (@X15_stored_route_is_drawn_offline Scenario.offline
              MoreExamples.snapped Scenario.emptySt)
    as (Hr & _ & _ & Hf & Hl).
  - intros s [<- | []]. eexists _, _, _. reflexivity.
  - left. reflexivity.
  - split; [exact Hr|]. split; [exact Hf|]. rewrite Hl. reflexivity.
Defined.


Lemma X17_anchor_witness :
  PathFacts.anchorOk
    (@segmentStep Scenario.online DrawExamples.viaBurwell
       (segments DrawExamples.viaBurwell) 1
       (DrawExamples.seg "B1102" "Burwell" "Springfield")
       DrawExamples.beforeSecond)
  /\ PathFacts.anchorOk
       (@afterSegments Scenario.online DrawExamples.viaBurwell
          Scenario.emptySt).
Proof.
  split.
  - apply (proj1 (proj2 (@X17_anchor_stays_in_bounds Scenario.online))).
    vm_compute. reflexivity.
  - apply (proj2 (proj2 (@X17_anchor_stays_in_bounds Scenario.online))).
Defined.

(** The example route: two segments, and the fallback line. *)
Lemma X18_layer_witness :
  bounds (@drawRoutesOnMap Scenario.online [DrawExamples.viaBurwell]
            [js "newmarket-ely"] Scenario.emptySt)
  = concat (map latlngs
              (routeLayer
                 (@drawRoutesOnMap Scenario.online [DrawExamples.viaBurwell]
                    [js "newmarket-ely"] Scenario.emptySt)))
  /\ length (routeLayer
               (@drawRoutesOnMap Scenario.online [DrawExamples.viaBurwell]
                  [js "newmarket-ely"] Scenario.emptySt)) = 3.
Proof.
  split.
  - apply (proj1 (proj2 (@X18_layer_and_bounds_agree Scenario.online
                           [DrawExamples.viaBurwell] [js "newmarket-ely"]
                           Scenario.emptySt))).
  - vm_compute. reflexivity.
Defined.

Lemma X19_selection_witness :
  @drawRoutesOnMap Scenario.offline SEED_ROUTES
    [js "turners-newmarket-rdc-via-m6"; js "turners-newmarket-bickers-yard"]
    Scenario.emptySt
  = @drawRoutesOnMap Scenario.offline SEED_ROUTES
      [js "turners-newmarket-bickers-yard";
       js "turners-newmarket-rdc-via-m6";
       js "turners-newmarket-bickers-yard"]
      Scenario.emptySt
  /\ @drawRoutesOnMap Scenario.offline SEED_ROUTES [js "unknown"]
       Scenario.emptySt
     = setBounds [] (setRouteLayer [] Scenario.emptySt).
Proof.
  split.
  - apply (proj1 (@X19_selection_decides Scenario.offline SEED_ROUTES _
                    Scenario.emptySt)).
    intros x. simpl. tauto.
  - apply (proj2 (@X19_selection_decides Scenario.offline SEED_ROUTES _
                    Scenario.emptySt)).
    intros r [<- | [<- | []]] [H | []]; vm_compute in H; discriminate.
Defined.

(** Deleting the only route of the store brings the seed routes back. *)
Lemma X20_route_store_witness :
  LST_STORE.get (deleteRoute (js "only")
                   (RouteArray [MoreExamples.lonely]))
  = (SEED_ROUTES, RouteArray SEED_ROUTES).
Proof.
  apply (proj2 (proj2 X20_route_store_is_never_empty)).
  intros r [<- | []]. reflexivity.
Defined.

(** Among the seed routes, what [A10, ELY] finds is found by [Ely]. *)
Lemma X21_longer_query_witness :
  incl (@filterRoutes Scenario.offline SEED_ROUTES (js "A10, ELY "))
       (@filterRoutes Scenario.offline SEED_ROUTES (js " Ely"))
  /\ @filterRoutes Scenario.offline
       (@filterRoutes Scenario.offline SEED_ROUTES (js " Ely"))
       (js "A10, ELY ")
     = @filterRoutes Scenario.offline SEED_ROUTES (js "A10, ELY ")
  /\ incl (@filterRoutes Scenario.offline SEED_ROUTES (js " Ely"))
          SEED_ROUTES.
Proof.
  apply (@X21_longer_query_narrows Scenario.offline).
  vm_compute. reflexivity.
Defined.

Lemma X22_photo_reference_witness :
  MediaStore.urlOfId (MediaStore.idFromUrl (js "idb:ph_1700000000000_9f3a"))
  = js "idb:ph_1700000000000_9f3a".
Proof.
  apply (proj2 X22_photo_reference_round_trip). reflexivity.
Defined.

(** A segment without a [to] text has no line in the preview. *)
Lemma X23_preview_witness :
  @previewSegment Scenario.online ResolverExamples.blankSegment
    Scenario.emptySt
  = (Ok None, Scenario.emptySt).
Proof.
  apply (proj1 (@X23_preview_lines Scenario.online)).
  right. reflexivity.
Defined.

Module FailureExamples.

Import Scenario.

(** A route whose first [from] text is an instruction that names a road. *)
Definition fromSlipRoad : Route :=
  mkRoute (js "slip") (js "From the slip road") [] [] [] None (js "Ely") []
          None
          [DrawExamples.seg "A14" "Take exit onto A14" "Ely"].

End FailureExamples.

Lemma X24_road_name_witness :
  looksLikeRoadOnly (js " a17 / 47 ") = true
  /\ @drawResolved Scenario.online FailureExamples.fromSlipRoad
       (segments FailureExamples.fromSlipRoad) 0
       (DrawExamples.seg "A14" "Take exit onto A14" "Ely") Scenario.emptySt
     = (Err MissingGeocodeLabel, Scenario.emptySt).
Proof.
  split.
  - apply (proj1 (@X24_chain_cannot_start_on_road_name Scenario.online)).
    vm_compute. reflexivity.
  - apply (proj2 (@X24_chain_cannot_start_on_road_name Scenario.online)).
    + reflexivity.
    + reflexivity.
    + right. vm_compute. reflexivity.
Defined.

(** The second segment of the example route fails for its [to] label. *)
Lemma X25_reasons_witness :
  let r := DrawExamples.viaBurwell in
  let seg := DrawExamples.seg "B1102" "Burwell" "Springfield" in
  let e := NoMatchFor (js "Springfield") in
  let fromLabel :=
    @effectiveLabelForEndpoint Scenario.online r (segments r) 1 KFrom in
  let toLabel :=
    if nonEmpty (@effectiveLabelForEndpoint Scenario.online r (segments r) 1
                   KTo)
    then @effectiveLabelForEndpoint Scenario.online r (segments r) 1 KTo
    else nextAnchorLabel r (segments r) 1 in
  (e = MissingGeocodeLabel
   \/ e = NoMatchFor fromLabel
   \/ e = NoMatchFor toLabel
   \/ (e = BadEndpointFor (road seg)
       /\ nonEmpty toLabel = false /\ pinned (toCoords seg) = None)
   \/ (exists km,
          e = UnrealisticSegmentJump km /\ (180 <? km)%float = true))
  /\ LookupFacts.sameDrawing DrawExamples.beforeSecond
       (snd (@drawResolved Scenario.online r (segments r) 1 seg
               DrawExamples.beforeSecond)).
Proof.
  apply (@X25_reasons_of_failure Scenario.online DrawExamples.viaBurwell
           (segments DrawExamples.viaBurwell) 1
           (DrawExamples.seg "B1102" "Burwell" "Springfield")
           DrawExamples.beforeSecond (NoMatchFor (js "Springfield"))
           (snd (@drawResolved Scenario.online DrawExamples.viaBurwell
                   (segments DrawExamples.viaBurwell) 1
                   (DrawExamples.seg "B1102" "Burwell" "Springfield")
                   DrawExamples.beforeSecond))).
  - vm_compute. reflexivity.
  - vm_compute. reflexivity.
  - vm_compute. reflexivity.
Defined.
